(** * compositor-killer: frame pacing, fence tracking and the poll reactor

    A shallow embedding of the main loop of the Wayland stress client
    (the [main] function and its listeners, and [fence_timestamp]),
    with the display server, the GPU driver, the kernel and the allocator
    kept abstract behind the [Platform] interface.

    Conventions.
    - C arrays are lists indexed with stdpp's [!!] and [<[ _ := _ ]>].
      The two heap arrays [fds] and [fences] are the lists of their [cap]
      allocated slots; [len] of them are in use.
    - [uint64_t] values are integers in [Z]; subtraction and the clock
      arithmetic wrap modulo [2^64] ([wrap64]).  [int], [uint32_t] and
      [int32_t] values that are only stored and compared are plain [Z].
      The one [int] that is incremented, [frame_num], is incremented
      only under the loop condition [frame_num < max_frames], so it
      stays within [int] ([frame_num_in_range]).
    - Every call into a collaborator that the program only performs
      (no result used) is recorded as an [action] in an output trace;
      every call whose result steers the program takes that result from
      the abstract world [W] of the [Platform]. *)

From Stdlib Require Import ZArith Lia String.
From stdpp Require Import base numbers list strings sorting.

Local Open Scope Z_scope.

(** ** Constants of the system headers (Linux) *)

Definition POLLIN : Z := 1.
Definition POLLOUT : Z := 4.
Definition POLLERR : Z := 8.
Definition POLLHUP : Z := 16.
Definition EINTR : Z := 4.
Definition EAGAIN : Z := 11.
Definition INT_MAX : Z := 2147483647.

Definition wrap64 (x : Z) : Z := x mod 2 ^ 64.

(** ** Data *)

(** [struct pollfd] *)
Record pollfd := { fd : Z; events : Z; revents : Z }.

(** The anonymous [struct { int frame_num; uint64_t start_ns; }] of [main]. *)
Module Fence.
Record t := { frame_num : Z; start_ns : Z }.
End Fence.

(** [struct wl_state]; [frame] is [true] when the pointer is not [NULL].
    The two global proxies never change inside the loop and are left out. *)
Record wl_state := {
  close : bool;
  serial : Z;
  width : Z;
  height : Z;
  frame : bool
}.

(** [struct sync_fence_info], of which only the timestamp is read. *)
Record sync_fence_info := { timestamp_ns : Z }.

(** [struct sync_file_info]: the count, and the contents of the user
    buffer the [sync_fence_info] field points to. *)
Record sync_file_info := {
  num_fences : nat;
  fence_buffer : list sync_fence_info
}.

(** The variables of [main] that the loop updates. *)
Record main_vars := {
  wl : wl_state;
  fds : list pollfd;
  fences : list Fence.t;
  len : nat;
  cap : nat;
  frame_num : Z
}.

(** The variables of [main] fixed before the loop starts. *)
Record config := {
  fixed_size : bool;
  fixed_width : Z;
  fixed_height : Z;
  max_frames : Z;
  unsynchronized : bool;
  egl_has_fences : bool
}.

(** Events the display server can deliver to the listeners of the loop. *)
Inductive event :=
| xdg_wm_base_ping (serial : Z)
| xdg_surface_configure (serial : Z)
| xdg_toplevel_configure (width height : Z)
| xdg_toplevel_close
| wl_callback_done (time : Z).

(** Calls the program performs on its collaborators, in order. *)
Inductive action :=
| WlSurfaceFrame
| WlCallbackDestroy
| WlEglWindowResize (w h : Z)
| XdgSurfaceAckConfigure (serial : Z)
| XdgWmBasePong (serial : Z)
| GlDrawArrays (frame w h : Z)
| EglSwapBuffers
| WlDisplayPrepareRead
| WlDisplayDispatchPending
| WlDisplayFlush
| WlDisplayCancelRead
| Poll (nfds : nat) (display_events : Z) (timeout : Z)
| WlDisplayReadEvents
| Close (fd : Z)
| Printf (frame : Z) (latency_ns : Z)
| Perror (msg : string)
| Teardown.

Global Instance action_eq_dec : EqDecision action.
Proof. solve_decision. Defined.

Global Instance event_eq_dec : EqDecision event.
Proof. solve_decision. Defined.

(** How the loop body is left. *)
Inductive outcome :=
| Continue
| Break
| Return (code : Z).

(** ** The collaborators

    [W] is the state of everything outside the program.  Each operation
    returns what the C call returns (with [errno] where the program reads
    it) and the next state of the world. *)
Class Platform (W : Type) := {
  (** [clock_gettime(CLOCK_MONOTONIC)]: [tv_sec] and [tv_nsec] *)
  clock_gettime : W → (Z * Z) * W;
  (** [eglDupNativeFenceFDANDROID] on the sync object just created *)
  egl_dup_fence : W → Z * W;
  (** [realloc] to the given number of elements: [false] is [NULL] *)
  realloc : nat → W → bool * W;
  (** contents of memory [realloc] hands out beyond the old block *)
  uninit_pollfd : pollfd;
  uninit_fence : Fence.t;
  (** [wl_display_prepare_read]: return value and [errno] *)
  wl_display_prepare_read : W → (Z * Z) * W;
  (** [wl_display_dispatch_pending]: the events handed to the listeners *)
  wl_display_dispatch_pending : W → list event * W;
  (** [wl_display_flush]: return value and [errno] *)
  wl_display_flush : W → (Z * Z) * W;
  (** [poll] on the first [nfds] entries: return value, [errno], and the
      [revents] it stores, entry by entry *)
  poll : list pollfd → Z → W → (Z * Z * list Z) * W;
  (** [ioctl(fd, SYNC_IOC_FILE_INFO, &file)]: [None] is [-1], otherwise
      the structure and user buffer as the kernel leaves them *)
  ioctl_sync_file_info : Z → sync_file_info → W → option sync_file_info * W
}.

(** ** [fence_timestamp] *)

(** One turn of [for (i = 0; i < file.num_fences; ++i)].  A read past the
    buffer, which the kernel's reply rules out, leaves [latest] alone. *)
Definition latest_step (buffer : list sync_fence_info) (latest : Z) (i : nat) : Z :=
  match buffer !! i with
  | Some f => if latest <? timestamp_ns f then timestamp_ns f else latest
  | None => latest
  end.

Definition fence_timestamp {W} `{Platform W} (fd : Z) (w : W)
  : (Z * list action) * W :=
  let file := {| num_fences := 0; fence_buffer := [] |} in
  match ioctl_sync_file_info fd file w with
  | (None, w) => ((0, [Perror "SYNC_IOC_FILE_INFO"]), w)
  | (Some file, w) =>
    let fences := replicate (num_fences file) {| timestamp_ns := 0 |} in
    let file := {| num_fences := num_fences file; fence_buffer := fences |} in
    match ioctl_sync_file_info fd file w with
    | (None, w) => ((0, [Perror "SYNC_IOC_FILE_INFO"]), w)
    | (Some file, w) =>
      let latest :=
        foldl (latest_step (fence_buffer file)) 0 (seq 0 (num_fences file)) in
      ((latest, []), w)
    end
  end.

(** The first program ([main.c]) carries its own copy of the function. *)
Module Simple.

Definition latest_step (buffer : list sync_fence_info) (latest : Z) (i : nat) : Z :=
  match buffer !! i with
  | Some f => if latest <? timestamp_ns f then timestamp_ns f else latest
  | None => latest
  end.

Definition fence_timestamp {W} `{Platform W} (fd : Z) (w : W)
  : (Z * list action) * W :=
  let file := {| num_fences := 0; fence_buffer := [] |} in
  match ioctl_sync_file_info fd file w with
  | (None, w) => ((0, [Perror "SYNC_IOC_FILE_INFO"]), w)
  | (Some file, w) =>
    let fences := replicate (num_fences file) {| timestamp_ns := 0 |} in
    let file := {| num_fences := num_fences file; fence_buffer := fences |} in
    match ioctl_sync_file_info fd file w with
    | (None, w) => ((0, [Perror "SYNC_IOC_FILE_INFO"]), w)
    | (Some file, w) =>
      let latest :=
        foldl (latest_step (fence_buffer file)) 0 (seq 0 (num_fences file)) in
      ((latest, []), w)
    end
  end.

End Simple.

(** ** Field updates *)

Definition set_close (b : bool) (s : wl_state) : wl_state :=
  {| close := b; serial := serial s; width := width s; height := height s;
     frame := frame s |}.
Definition set_serial (x : Z) (s : wl_state) : wl_state :=
  {| close := close s; serial := x; width := width s; height := height s;
     frame := frame s |}.
Definition set_width (x : Z) (s : wl_state) : wl_state :=
  {| close := close s; serial := serial s; width := x; height := height s;
     frame := frame s |}.
Definition set_height (x : Z) (s : wl_state) : wl_state :=
  {| close := close s; serial := serial s; width := width s; height := x;
     frame := frame s |}.
Definition set_frame (b : bool) (s : wl_state) : wl_state :=
  {| close := close s; serial := serial s; width := width s; height := height s;
     frame := b |}.

Definition set_events (x : Z) (p : pollfd) : pollfd :=
  {| fd := fd p; events := x; revents := revents p |}.
Definition set_revents (x : Z) (p : pollfd) : pollfd :=
  {| fd := fd p; events := events p; revents := x |}.

Definition set_wl (s : wl_state) (v : main_vars) : main_vars :=
  {| wl := s; fds := fds v; fences := fences v; len := len v; cap := cap v;
     frame_num := frame_num v |}.
Definition set_fds (l : list pollfd) (v : main_vars) : main_vars :=
  {| wl := wl v; fds := l; fences := fences v; len := len v; cap := cap v;
     frame_num := frame_num v |}.
Definition set_fences (l : list Fence.t) (v : main_vars) : main_vars :=
  {| wl := wl v; fds := fds v; fences := l; len := len v; cap := cap v;
     frame_num := frame_num v |}.
Definition set_len (n : nat) (v : main_vars) : main_vars :=
  {| wl := wl v; fds := fds v; fences := fences v; len := n; cap := cap v;
     frame_num := frame_num v |}.
Definition set_cap (n : nat) (v : main_vars) : main_vars :=
  {| wl := wl v; fds := fds v; fences := fences v; len := len v; cap := n;
     frame_num := frame_num v |}.
Definition set_frame_num (x : Z) (v : main_vars) : main_vars :=
  {| wl := wl v; fds := fds v; fences := fences v; len := len v; cap := cap v;
     frame_num := x |}.

(** ** Listeners *)

Definition xdg_ping (serial : Z) (s : wl_state) : wl_state * list action :=
  (s, [XdgWmBasePong serial]).

Definition xdg_base_configure (serial : Z) (s : wl_state) : wl_state * list action :=
  (set_serial serial s, []).

Definition toplevel_configure (width height : Z) (s : wl_state)
  : wl_state * list action :=
  (set_height height (set_width width s), []).

Definition toplevel_close (s : wl_state) : wl_state * list action :=
  (set_close true s, []).

Definition frame_done (s : wl_state) : wl_state * list action :=
  (set_frame false s, [WlCallbackDestroy]).

(** The listener tables.  The only callback object the program ever owns
    is the one in [frame]: without it there is no proxy a [done] event
    could be delivered to, and the library drops the event. *)
Definition dispatch (e : event) (s : wl_state) : wl_state * list action :=
  match e with
  | xdg_wm_base_ping serial => xdg_ping serial s
  | xdg_surface_configure serial => xdg_base_configure serial s
  | xdg_toplevel_configure width height => toplevel_configure width height s
  | xdg_toplevel_close => toplevel_close s
  | wl_callback_done _ => if frame s then frame_done s else (s, [])
  end.

Fixpoint dispatch_all (es : list event) (s : wl_state) : wl_state * list action :=
  match es with
  | [] => (s, [])
  | e :: es =>
    let '(s, out) := dispatch e s in
    let '(s, out') := dispatch_all es s in
    (s, out ++ out')
  end.

(** ** The loop of [main] *)

Section Loop.
Context {W : Type} `{Platform W}.

(** *** Render *)

(** The block under [/* Resize window */]. *)
Definition resize_window (c : config) (s : wl_state) : wl_state * list action :=
  if serial s =? 0 then (s, [])
  else
    let s := if fixed_size c
             then set_height (fixed_height c) (set_width (fixed_width c) s)
             else s in
    let s := if width s =? 0 then set_width 500 s else s in
    let s := if height s =? 0 then set_height 500 s else s in
    (set_serial 0 s,
     [WlEglWindowResize (width s) (height s); XdgSurfaceAckConfigure (serial s)]).

(** [if (len == cap) { cap *= 2; fds = realloc(fds, ...);
    fences = realloc(fences, ...); if (!fds || !fences) return 1; }]:
    the flag is [false] at the [return 1].  By then [cap] is doubled and
    both pointers are assigned; a refused [realloc] has left [NULL] in
    its pointer, the array without a slot. *)
Definition grow (v : main_vars) (w : W) : bool * main_vars * W :=
  if decide (len v = cap v) then
    let cap' := (cap v * 2)%nat in
    let '(got_fds, w) := realloc cap' w in
    let '(got_fences, w) := realloc cap' w in
    (got_fds && got_fences,
     set_cap cap'
       (set_fences (if got_fences then resize cap' uninit_fence (fences v) else [])
          (set_fds (if got_fds then resize cap' uninit_pollfd (fds v) else []) v)),
     w)
  else (true, v, w).

(** Writing slot [len]: [fd] and [events] of the descriptor, both fields of
    the metadata; [revents] keeps what the slot held. *)
Definition store_fence (fence_fd start : Z) (v : main_vars) : main_vars :=
  let slot := default uninit_pollfd (fds v !! len v) in
  set_len (S (len v))
    (set_fences
       (<[len v := {| Fence.frame_num := frame_num v; Fence.start_ns := start |}]>
          (fences v))
       (set_fds
          (<[len v := {| fd := fence_fd; events := POLLIN; revents := revents slot |}]>
             (fds v)) v)).

(** The second [if (egl_has_fences)] block: grow when full, then append
    the duplicated descriptor with the current frame number. *)
Definition track (start : Z) (v : main_vars) (w : W) : bool * main_vars * W :=
  match grow v w with
  | (false, v, w) => (false, v, w)
  | (true, v, w) =>
    let '(fence_fd, w) := egl_dup_fence w in
    (true, store_fence fence_fd start v, w)
  end.

(** The body of [if (unsynchronized || !wl_state.frame)] up to and
    including [eglSwapBuffers]: the frame callback, the resize, the draw
    call and, with fences, the submit time sampled before presenting. *)
Definition draw (c : config) (v : main_vars) (w : W)
  : main_vars * Z * W * list action :=
  let s := wl v in
  let '(s, out) :=
    if negb (unsynchronized c) then (set_frame true s, [WlSurfaceFrame])
    else (s, []) in
  let '(s, out_resize) := resize_window c s in
  let out := out ++ out_resize
                 ++ [GlDrawArrays (frame_num v) (width s) (height s)] in
  let '(start, w) :=
    if egl_has_fences c then
      let '((tv_sec, tv_nsec), w) := clock_gettime w in
      (wrap64 (tv_sec * 1000000000 + tv_nsec), w)
    else (0, w) in
  (set_wl s v, start, w, out ++ [EglSwapBuffers]).

(** The whole body: [draw], then the fence is tracked and the frame
    counter advances.  Where the tracker cannot grow, [main] returns 1
    with the variables as the failed growth left them. *)
Definition submit (c : config) (v : main_vars) (w : W)
  : outcome * main_vars * W * list action :=
  let '(v, start, w, out) := draw c v w in
  if egl_has_fences c then
    match track start v w with
    | (false, v, w) => (Return 1, v, w, out)
    | (true, v, w) => (Continue, set_frame_num (frame_num v + 1) v, w, out)
    end
  else (Continue, set_frame_num (frame_num v + 1) v, w, out).

Definition render (c : config) (v : main_vars) (w : W)
  : outcome * main_vars * W * list action :=
  if unsynchronized c || negb (frame (wl v)) then submit c v w
  else (Continue, v, w, []).

(** *** Preparing to sleep *)

(** [while (wl_display_prepare_read(d) != 0 && errno == EAGAIN)
       wl_display_dispatch_pending(d);] *)
Fixpoint prepare_read_loop (fuel : nat) (s : wl_state) (w : W) (out : list action)
  : option (wl_state * W * list action) :=
  match fuel with
  | O => None
  | S fuel =>
    let '((ret, errno), w) := wl_display_prepare_read w in
    let out := out ++ [WlDisplayPrepareRead] in
    if negb (ret =? 0) && (errno =? EAGAIN) then
      let '(es, w) := wl_display_dispatch_pending w in
      let '(s, acts) := dispatch_all es s in
      prepare_read_loop fuel s w (out ++ WlDisplayDispatchPending :: acts)
    else Some (s, w, out)
  end.

(** [do { ret = wl_display_flush(d); } while (ret > 0);] with the [errno]
    the last call left. *)
Fixpoint flush_loop (fuel : nat) (w : W) (out : list action)
  : option (Z * Z * W * list action) :=
  match fuel with
  | O => None
  | S fuel =>
    let '((ret, errno), w) := wl_display_flush w in
    let out := out ++ [WlDisplayFlush] in
    if 0 <? ret then flush_loop fuel w out
    else Some (ret, errno, w, out)
  end.

(** [fds[0].events |= POLLOUT] and [fds[0].events &= ~POLLOUT]. *)
Definition arm_pollout (l : list pollfd) : list pollfd :=
  match l !! 0%nat with
  | Some p => <[0%nat := set_events (Z.lor (events p) POLLOUT) p]> l
  | None => l
  end.

Definition disarm_pollout (l : list pollfd) : list pollfd :=
  match l !! 0%nat with
  | Some p => <[0%nat := set_events (Z.land (events p) (Z.lnot POLLOUT)) p]> l
  | None => l
  end.

(** What [poll] leaves in the [revents] of the entries it was given. *)
Fixpoint store_revents (revs : list Z) (l : list pollfd) : list pollfd :=
  match revs, l with
  | r :: revs, p :: l => set_revents r p :: store_revents revs l
  | _, _ => l
  end.

(** *** Reading out rendering times where complete *)

(** [fds[j] = fds[j + 1]; fences[j] = fences[j + 1];]  Inside the
    allocation both reads succeed; past it the slot is left alone. *)
Definition copy_slot (j : nat) (v : main_vars) : main_vars :=
  let l := match fds v !! S j with
           | Some p => <[j := p]> (fds v)
           | None => fds v
           end in
  let m := match fences v !! S j with
           | Some f => <[j := f]> (fences v)
           | None => fences v
           end in
  set_fences m (set_fds l v).

(** [for (j = i; j < len - 1; ++j)] run for its [n] turns from [j]. *)
Fixpoint shift_loop (n j : nat) (v : main_vars) : main_vars :=
  match n with
  | O => v
  | S n => shift_loop n (S j) (copy_slot j v)
  end.

(** The compaction that ends a turn of the reap loop: the inner [for]
    and [--len]. *)
Definition remove_slot (i : nat) (v : main_vars) : main_vars :=
  let v' := shift_loop (len v - 1 - i) i v in
  set_len (len v - 1) v'.

(** [for (size_t i = 1; i < len;)]: a slot whose [revents] lacks [POLLIN]
    is stepped over; a ready one is queried, closed, reported and
    removed, and [i] stays. *)
Fixpoint reap_loop (fuel i : nat) (v : main_vars) (w : W) (out : list action)
  : option (main_vars * W * list action) :=
  match fuel with
  | O => None
  | S fuel =>
    if decide (i < len v)%nat then
      let p := default uninit_pollfd (fds v !! i) in
      let f := default uninit_fence (fences v !! i) in
      if Z.land (revents p) POLLIN =? 0 then reap_loop fuel (S i) v w out
      else
        let '((end_ns, log), w) := fence_timestamp (fd p) w in
        let out := out ++ log ++
                   [Close (fd p);
                    Printf (Fence.frame_num f) (wrap64 (end_ns - Fence.start_ns f))] in
        reap_loop fuel i (remove_slot i v) w out
    else Some (v, w, out)
  end.

(** The loop needs at most one turn per slot in use and one closing test. *)
Definition reap (v : main_vars) (w : W) : option (main_vars * W * list action) :=
  reap_loop (S (len v)) 1 v w [].

(** *** One turn of the [while] loop *)

(** The [if (ret == -1) { ... } else { ... }] after the flush loop, on
    [fds]: [None] is the branch that cancels the read and breaks. *)
Definition after_flush (ret errno : Z) (l : list pollfd) : option (list pollfd) :=
  if ret =? -1 then
    if errno =? EAGAIN then Some (arm_pollout l) else None
  else Some (disarm_pollout l).

(** [poll(fds, len, unsynchronized ? 0 : -1)] and the two tests on its
    result. *)
Definition wait (c : config) (v : main_vars) (w : W)
  : outcome * main_vars * W * list action :=
  let timeout := if unsynchronized c then 0 else -1 in
  let display_events := events (default uninit_pollfd (fds v !! 0%nat)) in
  let '((ret, errno, revs), w) := poll (take (len v) (fds v)) timeout w in
  let out := [Poll (len v) display_events timeout] in
  let v := set_fds (store_revents (take (len v) revs) (fds v)) v in
  if (ret =? -1) && negb (errno =? EINTR) then
    (Break, v, w, out ++ [Perror "poll"; WlDisplayCancelRead])
  else if negb (Z.land (revents (default uninit_pollfd (fds v !! 0%nat)))
                       (Z.lor POLLERR POLLHUP) =? 0) then
    (Break, v, w, out ++ [WlDisplayCancelRead])
  else (Continue, v, w, out).

(** [wl_display_read_events], [wl_display_dispatch_pending] and the reap
    loop. *)
Definition read_and_reap (v : main_vars) (w : W)
  : option (main_vars * W * list action) :=
  let '(es, w) := wl_display_dispatch_pending w in
  let '(s, acts) := dispatch_all es (wl v) in
  match reap (set_wl s v) w with
  | None => None
  | Some (v, w, out) =>
    Some (v, w, WlDisplayReadEvents :: WlDisplayDispatchPending :: acts ++ out)
  end.

(** What follows [poll]: on [Continue] the events are read and
    dispatched and the fences reaped; a [Break] ends the turn. *)
Definition after_wait (out : list action)
    (r : outcome * main_vars * W * list action)
  : option (outcome * main_vars * W * list action) :=
  match r with
  | (Continue, v, w, out_wait) =>
    match read_and_reap v w with
    | None => None
    | Some (v, w, out_reap) =>
      Some (Continue, v, w, out ++ out_wait ++ out_reap)
    end
  | (o, v, w, out_wait) => Some (o, v, w, out ++ out_wait)
  end.

Definition iteration (inner : nat) (c : config) (v : main_vars) (w : W)
  : option (outcome * main_vars * W * list action) :=
  match render c v w with
  | (Return code, v, w, out) => Some (Return code, v, w, out)
  | (_, v, w, out) =>
    match prepare_read_loop inner (wl v) w [] with
    | None => None
    | Some (s, w, out_prepare) =>
      let v := set_wl s v in
      match flush_loop inner w [] with
      | None => None
      | Some (ret, errno, w, out_flush) =>
        let out := out ++ out_prepare ++ out_flush in
        match after_flush ret errno (fds v) with
        | None => Some (Break, v, w, out ++ [WlDisplayCancelRead])
        | Some l => after_wait out (wait c (set_fds l v) w)
        end
      end
    end
  end.

(** *** After the loop *)

(** The destroy and close calls after the loop; [Teardown] stands for the
    fixed run of calls from [free(fds)] to [wl_display_disconnect]. *)
Definition teardown (v : main_vars) : list action :=
  (if frame (wl v) then [WlCallbackDestroy] else [])
  ++ map (λ p, Close (fd p)) (drop 1 (take (len v) (fds v)))
  ++ [Teardown].

(** [while (!wl_state.close && frame_num < max_frames) { ... }] followed
    by the code after it; the result carries the exit status of [main]. *)
Fixpoint main_loop (fuel inner : nat) (c : config) (v : main_vars) (w : W)
    (out : list action) : option (Z * main_vars * W * list action) :=
  match fuel with
  | O => None
  | S fuel =>
    if negb (close (wl v)) && (frame_num v <? max_frames c) then
      match iteration inner c v w with
      | None => None
      | Some (Continue, v, w, acts) => main_loop fuel inner c v w (out ++ acts)
      | Some (Break, v, w, acts) => Some (0, v, w, out ++ acts ++ teardown v)
      | Some (Return code, v, w, acts) => Some (code, v, w, out ++ acts)
      end
    else Some (0, v, w, out ++ teardown v)
  end.

End Loop.

(** The variables as the loop finds them: one slot in use, ten allocated
    and zeroed by [calloc], slot 0 holding the display socket. *)
Definition zero_pollfd : pollfd := {| fd := 0; events := 0; revents := 0 |}.
Definition zero_fence : Fence.t := {| Fence.frame_num := 0; Fence.start_ns := 0 |}.

Definition init_vars (display_fd : Z) (s : wl_state) : main_vars :=
  {| wl := s;
     fds := {| fd := display_fd; events := Z.lor POLLIN POLLOUT; revents := 0 |}
            :: replicate 9 zero_pollfd;
     fences := replicate 10 zero_fence;
     len := 1;
     cap := 10;
     frame_num := 0 |}.

(** ** A scripted world

    A small concrete [Platform] to run the loop on.  Time is the number of
    [poll] calls so far.  The script says, for each time, what the server
    sends, which transport faults occur, and which descriptors are ready;
    the world itself keeps the time, whether undispatched events sit in
    the queue, and the number of unsent bytes. *)
Module Sim.

Record script := {
  server : Z → list event;          (* events dispatched at a given time *)
  flush_errno : Z → option Z;       (* [errno] of a failing flush *)
  poll_errno : Z → option Z;        (* [errno] of a failing poll *)
  ready : Z → Z → Z;                (* time, descriptor: its [revents] *)
  memory : option nat;              (* largest block [realloc] grants *)
  points : Z → option (list Z)      (* descriptor: fence timestamps *)
}.

Record world := { now : Z; stale : bool; unsent : Z }.

Definition set_now (x : Z) (w : world) : world :=
  {| now := x; stale := stale w; unsent := unsent w |}.
Definition set_stale (b : bool) (w : world) : world :=
  {| now := now w; stale := b; unsent := unsent w |}.
Definition set_unsent (x : Z) (w : world) : world :=
  {| now := now w; stale := stale w; unsent := x |}.

Definition sim_ioctl (sc : script) (fd : Z) (file : sync_file_info) (w : world)
  : option sync_file_info * world :=
  match points sc fd with
  | None => (None, w)
  | Some ts =>
    if decide (num_fences file = 0)%nat
    then (Some {| num_fences := length ts; fence_buffer := fence_buffer file |}, w)
    else if decide (num_fences file < length ts)%nat then (None, w)
    else (Some {| num_fences := length ts;
                  fence_buffer := map (λ t, {| timestamp_ns := t |}) ts |}, w)
  end.

Definition platform (sc : script) : Platform world := {|
  clock_gettime w := ((now w, 250), w);
  egl_dup_fence w := (100 + now w, w);
  realloc n w :=
    (match memory sc with
     | Some m => bool_decide (n ≤ m)%nat
     | None => true
     end, w);
  uninit_pollfd := {| fd := -1; events := 0; revents := POLLIN |};
  uninit_fence := {| Fence.frame_num := -1; Fence.start_ns := 0 |};
  wl_display_prepare_read w :=
    if stale w then ((-1, EAGAIN), w) else ((0, 0), w);
  wl_display_dispatch_pending w := (server sc (now w), set_stale false w);
  wl_display_flush w :=
    if 0 <? unsent w then ((unsent w, 0), set_unsent 0 w)
    else match flush_errno sc (now w) with
         | Some e => ((-1, e), w)
         | None => ((0, 0), w)
         end;
  poll l timeout w :=
    match poll_errno sc (now w) with
    | Some e => ((-1, e, []), set_now (now w + 1) w)
    | None => ((Z.of_nat (length l), 0, map (λ p, ready sc (now w) (fd p)) l),
               set_now (now w + 1) w)
    end;
  ioctl_sync_file_info := sim_ioctl sc
|}.

(** Descriptor 200 is a fence merged from three points, descriptor 201
    is not a fence, any other one is a single point that completed 4 ms
    after the time its number encodes. *)
Definition fence_points (fd : Z) : option (list Z) :=
  if fd =? 200 then Some [7; 9; 8]
  else if fd =? 201 then None
  else Some [(fd - 100) * 1000000000 + 4000250].

(** A server that never speaks, a transport that never fails, fences
    that are ready at the next [poll]. *)
Definition quiet : script := {|
  server _ := [];
  flush_errno _ := None;
  poll_errno _ := None;
  ready _ fd := if fd <? 100 then 0 else POLLIN;
  memory := None;
  points := fence_points
|}.

(** The same, with a server that asks the window to close at once. *)
Definition closing : script := {|
  server _ := [xdg_toplevel_close];
  flush_errno _ := None;
  poll_errno _ := None;
  ready _ fd := if fd <? 100 then 0 else POLLIN;
  memory := None;
  points := fence_points
|}.

(** A server that answers every frame with [done] and a new
    [configure], over a transport that never fails. *)
Definition paced : script := {|
  server t := [wl_callback_done t; xdg_surface_configure (t + 1)];
  flush_errno _ := None;
  poll_errno _ := None;
  ready _ fd := if fd <? 100 then 0 else POLLIN;
  memory := None;
  points := fence_points
|}.

(** A connection whose peer is gone: flushing fails with [EPIPE]. *)
Definition broken : script := {|
  server _ := [];
  flush_errno _ := Some 32;
  poll_errno _ := None;
  ready _ fd := if fd <? 100 then 0 else POLLIN;
  memory := None;
  points := fence_points
|}.

(** Fences on even descriptors complete at once, the others never. *)
Definition alternating : script := {|
  server _ := [];
  flush_errno _ := None;
  poll_errno _ := None;
  ready _ fd := if (fd <? 100) || Z.odd fd then 0 else POLLIN;
  memory := None;
  points := fence_points
|}.

(** A machine that cannot grow the arrays beyond ten slots. *)
Definition cramped : script := {|
  server _ := [];
  flush_errno _ := None;
  poll_errno _ := None;
  ready _ _ := 0;
  memory := Some 10%nat;
  points := fence_points
|}.

Definition start : world := {| now := 0; stale := false; unsent := 0 |}.

(** Events are queued already and five bytes wait to be sent. *)
Definition busy : world := {| now := 0; stale := true; unsent := 5 |}.

End Sim.

Definition wl_zero : wl_state :=
  {| close := false; serial := 0; width := 500; height := 500; frame := false |}.

Definition cfg (unsync fences : bool) (K : Z) : config :=
  {| fixed_size := false; fixed_width := 0; fixed_height := 0;
     max_frames := K; unsynchronized := unsync; egl_has_fences := fences |}.


(** ** Vocabulary of the statements *)

(** The timestamps a reply reports: those of the first [num_fences]
    entries of the buffer. *)
Definition timestamps (file : sync_file_info) : list Z :=
  map timestamp_ns (take (num_fences file) (fence_buffer file)).

(** The latest of a set of timestamps, [0] when there is none. *)
Definition latest_of (ts : list Z) : Z := foldr Z.max 0 ts.

(** The request of the second query: the count the first one reported
    and a buffer of that many entries. *)
Definition second_request (file : sync_file_info) : sync_file_info :=
  {| num_fences := num_fences file;
     fence_buffer := replicate (num_fences file) {| timestamp_ns := 0 |} |}.

Definition first_request : sync_file_info :=
  {| num_fences := 0; fence_buffer := [] |}.

(** The slots in use, as pairs of a descriptor and its metadata. *)
Definition live_fds (v : main_vars) : list pollfd := take (len v) (fds v).
Definition live_fences (v : main_vars) : list Fence.t := take (len v) (fences v).
Definition entries (v : main_vars) : list (pollfd * Fence.t) :=
  zip (live_fds v) (live_fences v).

(** The test of the reap loop on a slot, and its negation. *)
Definition waiting (e : pollfd * Fence.t) : bool :=
  Z.land (revents e.1) POLLIN =? 0.
Definition is_ready (e : pollfd * Fence.t) : bool := negb (waiting e).

(** Frame numbers named by the latency lines of a trace, in order. *)
Fixpoint printed (out : list action) : list Z :=
  match out with
  | [] => []
  | Printf frame _ :: out => frame :: printed out
  | _ :: out => printed out
  end.

(** Both arrays are allocated to the capacity and the slots in use fit. *)
Definition tracker_ok (v : main_vars) : Prop :=
  length (fds v) = cap v ∧ length (fences v) = cap v ∧ (1 ≤ len v ≤ cap v)%nat.

Section Vocabulary.
Context {W : Type} `{Platform W}.

(** What the specification asks of reaping, entry by entry: for each
    ready entry query the completion time, close the descriptor and emit
    the latency sample [completion - submit_time]. *)
Fixpoint reap_report (es : list (pollfd * Fence.t)) (w : W) : W * list action :=
  match es with
  | [] => (w, [])
  | e :: es =>
    if is_ready e then
      let '((end_ns, log), w) := fence_timestamp (fd e.1) w in
      let '(w, out) := reap_report es w in
      (w, log ++ [Close (fd e.1);
                  Printf (Fence.frame_num e.2)
                         (wrap64 (end_ns - Fence.start_ns e.2))] ++ out)
    else reap_report es w
  end.

(** A run of [track] calls, one per [(frame_id, submit_time)]. *)
Fixpoint track_all (rs : list (Z * Z)) (v : main_vars) (w : W)
  : bool * main_vars * W :=
  match rs with
  | [] => (true, v, w)
  | r :: rs =>
    match track r.2 (set_frame_num r.1 v) w with
    | (false, v, w) => (false, v, w)
    | (true, v, w) => track_all rs v w
    end
  end.

End Vocabulary.

Definition record_of (r : Z * Z) : Fence.t :=
  {| Fence.frame_num := r.1; Fence.start_ns := r.2 |}.

(** The effect of the shifting loop of [remove_slot] on one array. *)
Fixpoint shift_list {A} (n j : nat) (l : list A) : list A :=
  match n with
  | O => l
  | S n => shift_list n (S j)
             (match l !! S j with Some x => <[j := x]> l | None => l end)
  end.

(** Serials acknowledged by a trace, and frames drawn by it, in order. *)
Fixpoint acks (out : list action) : list Z :=
  match out with
  | [] => []
  | XdgSurfaceAckConfigure serial :: out => serial :: acks out
  | _ :: out => acks out
  end.

Fixpoint drawn (out : list action) : list Z :=
  match out with
  | [] => []
  | GlDrawArrays frame _ _ :: out => frame :: drawn out
  | _ :: out => drawn out
  end.

(** The size the resize block applies: the fixed one when a fixed size
    was asked for, else the negotiated one, and 500 for a dimension
    that is 0. *)
Definition applied (fixed : bool) (fixed_dim negotiated : Z) : Z :=
  let d := if fixed then fixed_dim else negotiated in
  if d =? 0 then 500 else d.

(** Where an action can come from: the listeners, the reap loop, the
    read-intent loop, the wait, the reading of events, the render block. *)
Definition from_listener (a : action) : bool :=
  match a with
  | XdgWmBasePong _ | WlCallbackDestroy => true
  | _ => false
  end.

Definition from_reap (a : action) : bool :=
  match a with
  | Close _ | Printf _ _ | Perror _ => true
  | _ => false
  end.

Definition from_prepare (a : action) : bool :=
  match a with
  | WlDisplayPrepareRead | WlDisplayDispatchPending => true
  | _ => false
  end.

Definition from_wait (a : action) : bool :=
  match a with
  | Poll _ _ _ | Perror _ | WlDisplayCancelRead => true
  | _ => false
  end.

Definition from_read (a : action) : bool :=
  match a with
  | WlDisplayReadEvents | WlDisplayDispatchPending => true
  | _ => false
  end.

Definition from_draw (a : action) : bool :=
  match a with
  | WlSurfaceFrame | WlEglWindowResize _ _ | XdgSurfaceAckConfigure _
  | GlDrawArrays _ _ _ | EglSwapBuffers => true
  | _ => false
  end.

(** Frame callbacks alive after a trace: requests minus destructions. *)
Fixpoint outstanding (out : list action) : Z :=
  match out with
  | [] => 0
  | WlSurfaceFrame :: out => outstanding out + 1
  | WlCallbackDestroy :: out => outstanding out - 1
  | _ :: out => outstanding out
  end.

(** The same count followed along the trace from [alive] callbacks (one
    or none): [None] as soon as a second callback is requested or one
    that does not exist is destroyed. *)
Fixpoint callback_run (alive : bool) (out : list action) : option bool :=
  match out with
  | [] => Some alive
  | WlSurfaceFrame :: out => if alive then None else callback_run true out
  | WlCallbackDestroy :: out => if alive then callback_run false out else None
  | _ :: out => callback_run alive out
  end.

Definition calls (a : action) (out : list action) : nat :=
  count_occ action_eq_dec out a.

(** The turns of the loop: from the variables, world and trace at one
    test of the loop condition to those at a later one. *)
Inductive loop_steps {W} `{Platform W} (c : config)
  : main_vars * W * list action → main_vars * W * list action → Prop :=
| loop_here x : loop_steps c x x
| loop_turn inner v w out v1 w1 acts x :
    close (wl v) = false → frame_num v < max_frames c →
    iteration inner c v w = Some (Continue, v1, w1, acts) →
    loop_steps c (v1, w1, out ++ acts) x →
    loop_steps c (v, w, out) x.

(** What the loop relies on from the display connection.  A failed
    [wl_display_prepare_read] means events are queued, and
    [wl_display_dispatch_pending] empties the queue, so the next attempt
    does not fail that way again.  A [wl_display_flush] that reports
    bytes sent has drained the buffer, so the next one reports none. *)
Definition read_intent_contract {W} `{Platform W} : Prop :=
  ∀ x : W,
    (wl_display_prepare_read x).1.1 ≠ 0 →
    (wl_display_prepare_read x).1.2 = EAGAIN →
    let x' := (wl_display_dispatch_pending (wl_display_prepare_read x).2).2 in
    (wl_display_prepare_read x').1.1 = 0 ∨
    (wl_display_prepare_read x').1.2 ≠ EAGAIN.

Definition flush_contract {W} `{Platform W} : Prop :=
  ∀ x : W,
    0 < (wl_display_flush x).1.1 →
    (wl_display_flush (wl_display_flush x).2).1.1 ≤ 0.

(** Frame numbers held by the tracker, slot 0 left out. *)
Definition tracked (v : main_vars) : list Z :=
  map Fence.frame_num (drop 1 (live_fences v)).





Definition no_alloc_failure {W} `{Platform W} : Prop :=
  ∀ (n : nat) (x : W), (realloc n x).1 = true.

(** The first [n] turns of the loop, when each of them is taken and
    completes. *)
Fixpoint turns {W} `{Platform W} (n inner : nat) (c : config) (v : main_vars)
    (w : W) (out : list action) : option (main_vars * W * list action) :=
  match n with
  | O => Some (v, w, out)
  | S n =>
    if negb (close (wl v)) && (frame_num v <? max_frames c) then
      match iteration inner c v w with
      | Some (Continue, v1, w1, acts) => turns n inner c v1 w1 (out ++ acts)
      | _ => None
      end
    else None
  end.

(** ** Concrete inputs *)

(** A tracker holding frames 3, 4 and 5 in slots 1 to 3, of which the
    fence of frame 4 is ready. *)
Definition three_frames : main_vars :=
  {| wl := wl_zero;
     fds := [ {| fd := 7; events := POLLIN; revents := 0 |};
              {| fd := 103; events := POLLIN; revents := 0 |};
              {| fd := 104; events := POLLIN; revents := POLLIN |};
              {| fd := 105; events := POLLIN; revents := 0 |} ]
            ++ replicate 6 zero_pollfd;
     fences := [ zero_fence;
                 {| Fence.frame_num := 3; Fence.start_ns := 3000000250 |};
                 {| Fence.frame_num := 4; Fence.start_ns := 4000000250 |};
                 {| Fence.frame_num := 5; Fence.start_ns := 5000000250 |} ]
               ++ replicate 6 zero_fence;
     len := 4;
     cap := 10;
     frame_num := 6 |}.

Definition eleven : list (Z * Z) :=
  [(0, 10); (1, 11); (2, 12); (3, 13); (4, 14); (5, 15); (6, 16); (7, 17);
   (8, 18); (9, 19); (10, 20)].

(** Started with [-f 800x600]; the server has proposed 1024x768 with
    serial 7. *)
Definition fixed_800x600 : config :=
  {| fixed_size := true; fixed_width := 800; fixed_height := 600;
     max_frames := INT_MAX; unsynchronized := false; egl_has_fences := true |}.

Definition proposed_1024x768 : wl_state :=
  {| close := false; serial := 7; width := 1024; height := 768; frame := false |}.

(** * Further parts of the program

    The extension lookup [has_ext], and after it the vocabulary of the
    properties of the loop that go beyond the tracker and the frame
    callbacks, and the loop of the first version of the program
    ([main.c]). *)

From Stdlib Require Import Ascii.

(** ** [has_ext]

    A C string is the list of its characters before the terminating NUL,
    and a pointer into it is the rest of the string from that place. *)

(** [strlen]; [strchr] as the offset of the first occurrence, [None]
    being [NULL]; [strncmp] as the difference of the first two characters
    that differ among the first [n], the end of a string counting as
    NUL. *)
Definition strlen (s : list ascii) : nat := length s.

Fixpoint strchr (s : list ascii) (c : ascii) : option nat :=
  match s with
  | [] => None
  | x :: s => if decide (x = c) then Some 0%nat else S <$> strchr s c
  end.

Fixpoint strncmp (a b : list ascii) (n : nat) {struct n} : Z :=
  match n with
  | O => 0
  | S n =>
    match a, b with
    | [], [] => 0
    | [], y :: _ => - Z.of_nat (nat_of_ascii y)
    | x :: _, [] => Z.of_nat (nat_of_ascii x)
    | x :: a, y :: b =>
      if decide (x = y) then strncmp a b n
      else Z.of_nat (nat_of_ascii x) - Z.of_nat (nat_of_ascii y)
    end
  end.

(** [while ( *exts ) { ... }]: [Some true] and [Some false] are the two
    [return]s. *)
Fixpoint has_ext_loop (fuel : nat) (exts ext : list ascii) : option bool :=
  match fuel with
  | O => None
  | S fuel =>
    match exts with
    | [] => Some false
    | _ :: _ =>
      let end_ := strchr exts " "%char in
      let len := match end_ with Some k => k | None => strlen exts end in
      if strncmp exts ext len =? 0 then Some true
      else
        let skip := match end_ with Some _ => 1%nat | None => 0%nat end in
        has_ext_loop fuel (drop (len + skip) exts) ext
    end
  end.

(** A turn that does not return moves past at least one character. *)
Definition has_ext (exts ext : list ascii) : option bool :=
  has_ext_loop (S (length exts)) exts ext.

(** The character that ends a C string. *)
Definition NUL : ascii := "000"%char.

(** [t] is one of the pieces the spaces cut [exts] into, [pre] and
    [post] being what comes before and after it; an empty piece at the
    very end does not count. *)
Definition piece_at (pre t post : list ascii) : Prop :=
  (pre = [] ∨ last pre = Some " "%char) ∧
  (" "%char ∉ t) ∧
  (post = [] ∧ t ≠ [] ∨ head post = Some " "%char).

(** Some piece of [exts] is an initial part of [ext]. *)
Definition listed_prefix (exts ext : list ascii) : Prop :=
  ∃ pre t post, exts = pre ++ t ++ post ∧ piece_at pre t post ∧ t `prefix_of` ext.

(** Extension strings as libraries report them, to run [has_ext] on. *)
Definition egl_client_exts : list ascii :=
  list_ascii_of_string
    "EGL_EXT_client_extensions EGL_EXT_platform_base EGL_EXT_platform_wayland ".

Definition egl_short_exts : list ascii :=
  list_ascii_of_string "EGL_KHR_fence_sync EGL_ANDROID_native_fence".

Definition egl_spaced_exts : list ascii :=
  list_ascii_of_string "EGL_KHR_image  EGL_KHR_fence_sync".

(** ** Vocabulary of the further properties *)

(** Descriptors closed by a trace, in order. *)
Fixpoint closed (out : list action) : list Z :=
  match out with
  | [] => []
  | Close fd :: out => fd :: closed out
  | _ :: out => closed out
  end.

(** Descriptors held by the tracker, slot 0 left out. *)
Definition tracked_fds (v : main_vars) : list Z := map fd (drop 1 (live_fds v)).

(** A descriptor [eglDupNativeFenceFDANDROID] returns in some state of
    the world. *)
Definition duplicated {W} `{Platform W} (d : Z) : Prop :=
  ∃ x : W, d = (egl_dup_fence x).1.

Section Duplicated.
Context {W : Type} `{Platform W}.

(** The descriptor the render block of a turn obtains from
    [eglDupNativeFenceFDANDROID]: none when the block is skipped, when
    fences are not in use or when the tracker could not grow; otherwise
    what the call returns in the world that [draw] and [grow] leave. *)
Definition duplicated_by (c : config) (v : main_vars) (w : W) : list Z :=
  if (unsynchronized c || negb (frame (wl v))) && egl_has_fences c then
    let '(v, _, w, _) := draw c v w in
    match grow v w with
    | (true, _, w) => [(egl_dup_fence w).1]
    | (false, _, _) => []
    end
  else [].

(** The descriptors obtained that way along a run of [main_loop], in
    order. *)
Fixpoint duplicated_in (fuel inner : nat) (c : config) (v : main_vars) (w : W)
  : list Z :=
  match fuel with
  | O => []
  | S fuel =>
    if negb (close (wl v)) && (frame_num v <? max_frames c) then
      duplicated_by c v w
      ++ match iteration inner c v w with
         | Some (Continue, v, w, _) => duplicated_in fuel inner c v w
         | _ => []
         end
    else []
  end.

End Duplicated.

(** What identifies an entry of the tracker: its descriptor, the events
    asked for and the metadata, [revents] left out. *)
Definition key (e : pollfd * Fence.t) : Z * Z * Fence.t := (fd e.1, events e.1, e.2).

(** What the loop keeps true of the slots in use: slot 0 holds the
    display socket, polled for input and at times for output, and every
    other slot a duplicated fence polled for input. *)
Definition slots_ok {W} `{Platform W} (display_fd : Z) (v : main_vars) : Prop :=
  ∃ p0 f0 rest,
    entries v = (p0, f0) :: rest ∧ fd p0 = display_fd ∧
    (events p0 = POLLIN ∨ events p0 = Z.lor POLLIN POLLOUT) ∧
    Forall (λ e, duplicated (fd e.1) ∧ events e.1 = POLLIN) rest.

(** The calls of [poll] in a trace: number of descriptors, events asked
    of the display socket, timeout. *)
Fixpoint polls (out : list action) : list (nat * Z * Z) :=
  match out with
  | [] => []
  | Poll nfds display_events timeout :: out =>
    (nfds, display_events, timeout) :: polls out
  | _ :: out => polls out
  end.

(** The server never completes a frame callback. *)
Definition no_done {W} `{Platform W} : Prop :=
  ∀ (x : W) (time : Z), wl_callback_done time ∉ (wl_display_dispatch_pending x).1.

(** ** The first program ([main.c])

    The earlier, simpler client: one fence descriptor at a time in
    [fds[1]], a frame drawn from inside the [done] listener, and a loop
    that polls without blocking. *)

(** [wl_display_dispatch]: the events it reads and hands to the
    listeners. *)
Class Dispatch (W : Type) := {
  wl_display_dispatch : W → list event * W
}.

Module MainC.

(** [struct state], without the proxies and handles that never change
    once the loop runs; [frame] is [true] when the pointer is not
    [NULL]. *)
Record state := {
  frame : bool;
  running : bool;
  conf_serial : Z;
  conf_width : Z;
  conf_height : Z;
  submit_time_ns : Z;
  fence : Z
}.

Definition set_frame (b : bool) (s : state) : state :=
  {| frame := b; running := running s; conf_serial := conf_serial s;
     conf_width := conf_width s; conf_height := conf_height s;
     submit_time_ns := submit_time_ns s; fence := fence s |}.
Definition set_running (b : bool) (s : state) : state :=
  {| frame := frame s; running := b; conf_serial := conf_serial s;
     conf_width := conf_width s; conf_height := conf_height s;
     submit_time_ns := submit_time_ns s; fence := fence s |}.
Definition set_conf_serial (x : Z) (s : state) : state :=
  {| frame := frame s; running := running s; conf_serial := x;
     conf_width := conf_width s; conf_height := conf_height s;
     submit_time_ns := submit_time_ns s; fence := fence s |}.
Definition set_conf_width (x : Z) (s : state) : state :=
  {| frame := frame s; running := running s; conf_serial := conf_serial s;
     conf_width := x; conf_height := conf_height s;
     submit_time_ns := submit_time_ns s; fence := fence s |}.
Definition set_conf_height (x : Z) (s : state) : state :=
  {| frame := frame s; running := running s; conf_serial := conf_serial s;
     conf_width := conf_width s; conf_height := x;
     submit_time_ns := submit_time_ns s; fence := fence s |}.
Definition set_submit_time_ns (x : Z) (s : state) : state :=
  {| frame := frame s; running := running s; conf_serial := conf_serial s;
     conf_width := conf_width s; conf_height := conf_height s;
     submit_time_ns := x; fence := fence s |}.
Definition set_fence (x : Z) (s : state) : state :=
  {| frame := frame s; running := running s; conf_serial := conf_serial s;
     conf_width := conf_width s; conf_height := conf_height s;
     submit_time_ns := submit_time_ns s; fence := x |}.

(** The calls of this program: those the later program performs too,
    and its own.  [Took] is the line [printf] writes, with the latency
    and the two times it is computed from; [Disconnect] stands for the
    three calls that end [main]. *)
Inductive call :=
| Shared (a : action)
| GlViewport (w h : Z)
| GlClear
| WlDisplayDispatch
| Took (latency_ns submit_ns time_ns : Z)
| Disconnect.

Global Instance call_eq_dec : EqDecision call.
Proof. solve_decision. Defined.

(** The variables of [main] the loop updates: the state the listeners
    share, and [struct pollfd fds[2]]. *)
Record loop_vars := { st : state; fds : list pollfd }.

(** [fds[i]], for [i] below 2. *)
Definition slot (i : nat) (l : list pollfd) : pollfd :=
  default zero_pollfd (l !! i).

Section Program.
Context {W : Type} `{Platform W} `{Dispatch W}.

Definition draw (s : state) (w : W) : state * W * list call :=
  let s := set_frame true s in
  let '(s, out_resize) :=
    if conf_serial s =? 0 then (s, [])
    else
      let s := if conf_width s =? 0 then set_conf_width 500 s else s in
      let s := if conf_height s =? 0 then set_conf_height 500 s else s in
      (set_conf_serial 0 s,
       [Shared (WlEglWindowResize (conf_width s) (conf_height s));
        Shared (XdgSurfaceAckConfigure (conf_serial s))]) in
  let '((tv_sec, tv_nsec), w) := clock_gettime w in
  let s := set_submit_time_ns (wrap64 (tv_sec * 1000000000 + tv_nsec)) s in
  let '(fence_fd, w) := egl_dup_fence w in
  (set_fence fence_fd s, w,
   Shared WlSurfaceFrame :: out_resize
   ++ [GlViewport (conf_width s) (conf_height s); GlClear;
       Shared EglSwapBuffers]).

Definition frame_done (s : state) (w : W) : state * W * list call :=
  let '(s, w, out) := draw (set_frame false s) w in
  (s, w, Shared WlCallbackDestroy :: out).

(** The listener tables; a [done] event needs a callback object to be
    delivered to. *)
Definition dispatch (e : event) (s : state) (w : W) : state * W * list call :=
  match e with
  | xdg_wm_base_ping serial => (s, w, [Shared (XdgWmBasePong serial)])
  | xdg_surface_configure serial => (set_conf_serial serial s, w, [])
  | xdg_toplevel_configure width height =>
    (set_conf_height height (set_conf_width width s), w, [])
  | xdg_toplevel_close => (set_running false s, w, [])
  | wl_callback_done _ => if frame s then frame_done s w else (s, w, [])
  end.

Fixpoint dispatch_all (es : list event) (s : state) (w : W)
  : state * W * list call :=
  match es with
  | [] => (s, w, [])
  | e :: es =>
    let '(s, w, out) := dispatch e s w in
    let '(s, w, out') := dispatch_all es s w in
    (s, w, out ++ out')
  end.

(** [if (fds[1].fd != -1 && (fds[1].revents & POLLIN)) { ... }] *)
Definition reap_fence (s : state) (l : list pollfd) (w : W)
  : state * list pollfd * W * list call :=
  let p := slot 1 l in
  if negb (fd p =? -1) && negb (Z.land (revents p) POLLIN =? 0) then
    let '((time_ns, log), w) := Simple.fence_timestamp (fd p) w in
    (set_submit_time_ns 0 s,
     <[1%nat := {| fd := -1; events := 0; revents := revents p |}]> l, w,
     map Shared log
     ++ [Shared (Close (fd p));
         Took (wrap64 (time_ns - submit_time_ns s)) (submit_time_ns s) time_ns])
  else (s, l, w, []).

(** The [if] chain on [fds[0].revents]; [None] is the [break]. *)
Definition serve_display (s : state) (l : list pollfd) (w : W)
  : option (state * W * list call) :=
  let r := revents (slot 0 l) in
  if negb (Z.land r (Z.lor POLLERR POLLHUP) =? 0) then None
  else if negb (Z.land r POLLIN =? 0) then
    let '(es, w) := wl_display_dispatch w in
    let '(s, w, acts) := dispatch_all es s w in
    Some (s, w, WlDisplayDispatch :: acts)
  else if negb (Z.land r POLLOUT =? 0) then
    let '(_, w) := wl_display_flush w in
    Some (s, w, [Shared WlDisplayFlush])
  else Some (s, w, []).

(** [if (st.fence != -1) { fds[1].fd = st.fence; ... st.fence = -1; }] *)
Definition install_fence (s : state) (l : list pollfd) : state * list pollfd :=
  if fence s =? -1 then (s, l)
  else
    (set_fence (-1) s,
     <[1%nat := {| fd := fence s; events := POLLIN;
                   revents := revents (slot 1 l) |}]> l).

(** The body of [while (st.running)]. *)
Definition turn (v : loop_vars) (w : W) : outcome * loop_vars * W * list call :=
  let '((ret, errno, revs), w) := poll (fds v) 0 w in
  let out := [Shared (Poll 2 (events (slot 0 (fds v))) 0)] in
  let l := store_revents (take 2 revs) (fds v) in
  if ret =? -1 then
    (Break, {| st := st v; fds := l |}, w, out ++ [Shared (Perror "poll")])
  else
    let '(s, l, w, out_reap) := reap_fence (st v) l w in
    match serve_display s l w with
    | None => (Break, {| st := s; fds := l |}, w, out ++ out_reap)
    | Some (s, w, out_serve) =>
      let '(s, l) := install_fence s l in
      (Continue, {| st := s; fds := l |}, w, out ++ out_reap ++ out_serve)
    end.

(** [draw(&st)] and the initialisation of [fds] before the loop. *)
Definition start (display_fd : Z) (s : state) (w : W)
  : loop_vars * W * list call :=
  let '(s, w, out) := draw s w in
  ({| st := set_fence (-1) s;
      fds := [ {| fd := display_fd; events := Z.lor POLLIN POLLOUT; revents := 0 |};
               {| fd := fence s; events := POLLIN; revents := 0 |} ] |},
   w, out).

(** The code after the loop. *)
Definition finish (v : loop_vars) : list call :=
  (if running (st v) then [Shared (Perror "wl_display_dispatch")] else [])
  ++ [Disconnect].

(** [while (st.running) { ... }] and the code after it. *)
Fixpoint main_loop (fuel : nat) (v : loop_vars) (w : W) (out : list call)
  : option (loop_vars * W * list call) :=
  match fuel with
  | O => None
  | S fuel =>
    if running (st v) then
      match turn v w with
      | (Continue, v, w, acts) => main_loop fuel v w (out ++ acts)
      | (_, v, w, acts) => Some (v, w, out ++ acts ++ finish v)
      end
    else Some (v, w, out ++ finish v)
  end.

(** The turns of the loop, from one test of the loop condition to a
    later one. *)
Inductive loop_steps
  : loop_vars * W * list call → loop_vars * W * list call → Prop :=
| loop_here x : loop_steps x x
| loop_turn v w out v1 w1 acts x :
    running (st v) = true →
    turn v w = (Continue, v1, w1, acts) →
    loop_steps (v1, w1, out ++ acts) x →
    loop_steps (v, w, out) x.

(** The first [n] turns, when each of them is taken and completes. *)
Fixpoint turns (n : nat) (v : loop_vars) (w : W) (out : list call)
  : option (loop_vars * W * list call) :=
  match n with
  | O => Some (v, w, out)
  | S n =>
    if running (st v) then
      match turn v w with
      | (Continue, v1, w1, acts) => turns n v1 w1 (out ++ acts)
      | _ => None
      end
    else None
  end.

End Program.

(** The calls of a trace that the later program performs too. *)
Fixpoint shared (out : list call) : list action :=
  match out with
  | [] => []
  | Shared a :: out => a :: shared out
  | _ :: out => shared out
  end.

(** The state [main] enters [draw] with for the first time: zeroed but
    for [running], with the size the first round trip left. *)
Definition state_zero : state :=
  {| frame := false; running := true; conf_serial := 0; conf_width := 500;
     conf_height := 500; submit_time_ns := 0; fence := 0 |}.

End MainC.

(** The scripted world hands [wl_display_dispatch] what the server sends
    at the time. *)
Definition sim_dispatch (sc : Sim.script) : Dispatch Sim.world := {|
  wl_display_dispatch w := (Sim.server sc (Sim.now w), w)
|}.

(** The [done] events of a batch. *)
Definition is_done (e : event) : bool :=
  match e with
  | wl_callback_done _ => true
  | _ => false
  end.

(** What the first program keeps true of [fds[1]]: it is empty, or it
    holds a duplicated fence polled for input. *)
Definition fence_slot_ok {W} `{Platform W} (p : pollfd) : Prop :=
  fd p = -1 ∧ events p = 0 ∨ duplicated (fd p) ∧ events p = POLLIN.

(** A server that completes every frame callback at once, on a socket
    that is always readable, while no fence ever signals. *)
Definition eager : Sim.script := {|
  Sim.server t := [wl_callback_done t];
  Sim.flush_errno _ := None;
  Sim.poll_errno _ := None;
  Sim.ready _ fd := if fd <? 100 then POLLIN else 0;
  Sim.memory := None;
  Sim.points := Sim.fence_points
|}.

(** The same socket with a server that asks the window to close. *)
Definition leaving : Sim.script := {|
  Sim.server _ := [xdg_toplevel_close];
  Sim.flush_errno _ := None;
  Sim.poll_errno _ := None;
  Sim.ready _ fd := if fd <? 100 then POLLIN else 0;
  Sim.memory := None;
  Sim.points := Sim.fence_points
|}.

(** A call that resizes the drawable gives it no dimension of 0. *)
Definition resize_ok (a : action) : Prop :=
  match a with
  | WlEglWindowResize w h => w ≠ 0 ∧ h ≠ 0
  | _ => True
  end.

(** What a batch of events asks of the listeners: the serials of its
    pings, the last serial and the last size it configures, and whether
    it holds a close request. *)
Fixpoint pings (es : list event) : list Z :=
  match es with
  | [] => []
  | xdg_wm_base_ping serial :: es => serial :: pings es
  | _ :: es => pings es
  end.

Fixpoint pongs (out : list action) : list Z :=
  match out with
  | [] => []
  | XdgWmBasePong serial :: out => serial :: pongs out
  | _ :: out => pongs out
  end.

Definition last_serial (es : list event) (serial : Z) : Z :=
  foldl (λ acc e, match e with xdg_surface_configure x => x | _ => acc end)
        serial es.

Definition last_size (es : list event) (size : Z * Z) : Z * Z :=
  foldl (λ acc e, match e with xdg_toplevel_configure w h => (w, h) | _ => acc end)
        size es.

Definition is_close (e : event) : bool :=
  match e with
  | xdg_toplevel_close => true
  | _ => false
  end.

(** A call of the first program that is neither the message printed
    after its loop nor the calls that end [main]. *)
Definition before_finish (a : MainC.call) : Prop :=
  a ≠ MainC.Shared (Perror "wl_display_dispatch") ∧ a ≠ MainC.Disconnect.

(** A [poll] that a signal interrupts. *)
Definition interrupted : Sim.script := {|
  Sim.server _ := [];
  Sim.flush_errno _ := None;
  Sim.poll_errno _ := Some EINTR;
  Sim.ready _ _ := 0;
  Sim.memory := None;
  Sim.points := Sim.fence_points
|}.

(** A socket whose send buffer is full: flushing fails with [EAGAIN]. *)
Definition congested : Sim.script := {|
  Sim.server _ := [];
  Sim.flush_errno _ := Some EAGAIN;
  Sim.poll_errno _ := None;
  Sim.ready _ fd := if fd <? 100 then 0 else POLLIN;
  Sim.memory := None;
  Sim.points := Sim.fence_points
|}.


(** ** The retries of a turn and the display library

    The two inner loops of a turn repeat for as long as the library
    gives the answer that asks for it. *)
Section Library.
Context {W : Type} `{Platform W}.

(** [wl_display_prepare_read(d) != 0 && errno == EAGAIN] in a world, and
    the world after the [wl_display_dispatch_pending] that follows. *)
Definition read_again (x : W) : bool :=
  negb ((wl_display_prepare_read x).1.1 =? 0)
  && ((wl_display_prepare_read x).1.2 =? EAGAIN).

Definition read_next (x : W) : W :=
  (wl_display_dispatch_pending (wl_display_prepare_read x).2).2.

(** [ret > 0] for the [wl_display_flush] of a world, and the world after
    that call. *)
Definition flush_again (x : W) : bool := 0 <? (wl_display_flush x).1.1.

Definition flush_next (x : W) : W := (wl_display_flush x).2.

(** How many times in a row, at most [n], the library asks again from
    the world [x] on, and the world it is asked in after [k] rounds. *)
Fixpoint asked (again : W → bool) (next : W → W) (n : nat) (x : W) : nat :=
  match n with
  | O => O
  | S n => if again x then S (asked again next n (next x)) else O
  end.

Fixpoint rounds (next : W → W) (k : nat) (x : W) : W :=
  match k with
  | O => x
  | S k => rounds next k (next x)
  end.

End Library.

(** A display connection whose queue holds events that dispatching
    never hands out, as on a connection in a fatal error state:
    [wl_display_prepare_read] fails with [EAGAIN] every time and
    [wl_display_dispatch_pending] delivers nothing.  Nothing else ever
    happens. *)
Definition wedged : Platform unit := {|
  clock_gettime w := ((0, 0), w);
  egl_dup_fence w := (100, w);
  realloc _ w := (true, w);
  uninit_pollfd := zero_pollfd;
  uninit_fence := zero_fence;
  wl_display_prepare_read w := ((-1, EAGAIN), w);
  wl_display_dispatch_pending w := ([], w);
  wl_display_flush w := ((0, 0), w);
  poll l _ w := ((0, 0, map (λ _, 0) l), w);
  ioctl_sync_file_info _ _ w := (None, w)
|}.
(** * Properties *)

(** ** The completion time of a fence *)

Section FenceCompletion.
Context {W : Type} `{Platform W}.

Lemma latest_step_max (pre : list sync_fence_info) (f : sync_fence_info)
    (post : list sync_fence_info) (a : Z) :
  latest_step (pre ++ f :: post) a (length pre) = Z.max a (timestamp_ns f).
Proof.
  unfold latest_step. rewrite list_lookup_middle by reflexivity.
  destruct (Z.ltb_spec a (timestamp_ns f)); lia.
Qed.

Lemma latest_loop_foldl (l pre post : list sync_fence_info) (a : Z) :
  foldl (latest_step (pre ++ l ++ post)) a (seq (length pre) (length l))
  = foldl Z.max a (map timestamp_ns l).
Proof.
  revert pre a. induction l as [|f l IH]; intros pre a; [reflexivity|].
  cbn [length seq foldl map app]. rewrite latest_step_max.
  replace (pre ++ f :: l ++ post) with ((pre ++ [f]) ++ l ++ post)
    by (rewrite <- app_assoc; reflexivity).
  replace (S (length pre)) with (length (pre ++ [f]))
    by (rewrite length_app; cbn; lia).
  apply IH.
Qed.

Lemma foldl_max_latest (ts : list Z) (a : Z) :
  0 ≤ a → foldl Z.max a ts = Z.max a (latest_of ts).
Proof.
  revert a. induction ts as [|t ts IH]; intros a Ha.
  - cbn. lia.
  - change (foldl Z.max (Z.max a t) ts = Z.max a (Z.max t (latest_of ts))).
    rewrite IH by lia. lia.
Qed.

Lemma latest_of_upper (ts : list Z) (t : Z) : t ∈ ts → t ≤ latest_of ts.
Proof.
  induction 1 as [t ts|t u ts _ IH];
    [change (t ≤ Z.max t (latest_of ts))|change (t ≤ Z.max u (latest_of ts))];
    lia.
Qed.

Lemma latest_of_nonneg (ts : list Z) : 0 ≤ latest_of ts.
Proof.
  induction ts as [|t ts IH]; [cbn; lia|].
  change (0 ≤ Z.max t (latest_of ts)). lia.
Qed.

Lemma latest_of_attained (ts : list Z) :
  Forall (λ t, 0 ≤ t) ts → ts ≠ [] → latest_of ts ∈ ts.
Proof.
  induction 1 as [|t ts Ht Hts IH]; [congruence|]. intros _.
  change (latest_of (t :: ts)) with (Z.max t (latest_of ts)).
  destruct (Z.max_spec t (latest_of ts)) as [[Hlt ->]|[Hle ->]].
  - apply list_elem_of_further. apply IH. intros ->. cbn in Hlt. lia.
  - apply list_elem_of_here.
Qed.

(** C4.  [fence_timestamp] returns [0] and logs with [perror] when either
    query fails.  When both succeed, and the second reply announces no
    more entries than the buffer holds, each a [uint64_t], the result is
    the maximum of the reported timestamps: an upper bound that is one of
    them, hence the timestamp itself when there is one point.  The copy
    of the function in the other program is the same function. *)
Theorem fence_timestamp_latest (fd : Z) (w : W) :
  Simple.fence_timestamp fd w = fence_timestamp fd w ∧
  match ioctl_sync_file_info fd first_request w with
  | (None, w1) =>
    fence_timestamp fd w = ((0, [Perror "SYNC_IOC_FILE_INFO"]), w1)
  | (Some file1, w1) =>
    match ioctl_sync_file_info fd (second_request file1) w1 with
    | (None, w2) =>
      fence_timestamp fd w = ((0, [Perror "SYNC_IOC_FILE_INFO"]), w2)
    | (Some file2, w2) =>
      (num_fences file2 ≤ length (fence_buffer file2))%nat →
      Forall (λ t, 0 ≤ t < 2 ^ 64) (timestamps file2) →
      fence_timestamp fd w = ((latest_of (timestamps file2), []), w2) ∧
      (∀ t, t ∈ timestamps file2 → t ≤ latest_of (timestamps file2)) ∧
      (timestamps file2 ≠ [] → latest_of (timestamps file2) ∈ timestamps file2) ∧
      (∀ t, timestamps file2 = [t] → latest_of (timestamps file2) = t)
    end
  end.
Proof.
  split; [reflexivity|].
  unfold fence_timestamp. fold first_request.
  destruct (ioctl_sync_file_info fd first_request w) as [[file1|] w1];
    [|reflexivity].
  fold (second_request file1).
  destruct (ioctl_sync_file_info fd (second_request file1) w1) as [[file2|] w2];
    [|reflexivity].
  intros Hn Hts.
  assert (Hpos : Forall (λ t, 0 ≤ t) (timestamps file2)).
  { eapply Forall_impl; [exact Hts|]. cbn. lia. }
  split; [|split; [|split]].
  - pose proof (latest_loop_foldl (take (num_fences file2) (fence_buffer file2))
                  [] (drop (num_fences file2) (fence_buffer file2)) 0) as Hloop.
    rewrite take_drop, length_take_le in Hloop by exact Hn.
    cbn [app length] in Hloop. rewrite Hloop.
    rewrite foldl_max_latest by lia. fold (timestamps file2).
    pose proof (latest_of_nonneg (timestamps file2)).
    do 2 f_equal. lia.
  - apply latest_of_upper.
  - apply latest_of_attained. exact Hpos.
  - intros t Ht. rewrite Ht in Hpos |- *. apply Forall_cons in Hpos as [Ht0 _].
    cbn. lia.
Qed.

End FenceCompletion.

(** ** The tracker: compaction *)

Section Shift.
Context {A : Type}.

Lemma length_shift_list (n j : nat) (l : list A) :
  length (shift_list n j l) = length l.
Proof.
  revert j l. induction n as [|n IH]; intros j l; [reflexivity|].
  cbn [shift_list]. rewrite IH. destruct (l !! S j); [apply length_insert|reflexivity].
Qed.

Lemma lookup_shift_list (n j k : nat) (l : list A) :
  (j + n < length l)%nat →
  shift_list n j l !! k
  = if decide (j ≤ k < j + n)%nat then l !! S k else l !! k.
Proof.
  revert j l. induction n as [|n IH]; intros j l Hn.
  - cbn [shift_list]. case_decide; [lia|reflexivity].
  - cbn [shift_list].
    destruct (lookup_lt_is_Some_2 l (S j)) as [x Hx]; [lia|]. rewrite Hx.
    rewrite IH by (rewrite length_insert; lia).
    repeat case_decide; try lia.
    + rewrite list_lookup_insert_ne by lia. reflexivity.
    + assert (k = j) as -> by lia.
      rewrite list_lookup_insert_eq by lia. congruence.
    + rewrite list_lookup_insert_ne by lia. reflexivity.
Qed.

Lemma take_shift_list (n j : nat) (l : list A) :
  (j + n < length l)%nat →
  take (j + n) (shift_list n j l) = delete j (take (S (j + n)) l).
Proof.
  intros Hn. apply list_eq. intros k.
  rewrite lookup_take, lookup_shift_list by lia.
  destruct (decide (k < j)%nat).
  - rewrite list_lookup_delete_lt, lookup_take_lt by lia.
    repeat case_decide; try lia; reflexivity.
  - rewrite list_lookup_delete_ge, lookup_take by lia.
    repeat case_decide; try lia; reflexivity.
Qed.

End Shift.

Lemma zip_delete {A B} (i : nat) (l : list A) (k : list B) :
  zip (delete i l) (delete i k) = delete i (zip l k).
Proof.
  revert i k. induction l as [|x l IH]; intros [|i] [|y k]; cbn; try reflexivity.
  - destruct l; reflexivity.
  - f_equal. apply IH.
Qed.

Lemma length_entries (v : main_vars) :
  (len v ≤ length (fds v))%nat → (len v ≤ length (fences v))%nat →
  length (entries v) = len v.
Proof.
  intros Hp Hf. unfold entries, live_fds, live_fences.
  rewrite length_zip_with, !length_take. lia.
Qed.

Lemma lookup_entries (v : main_vars) (i : nat) (e : pollfd * Fence.t) :
  entries v !! i = Some e →
  (i < len v)%nat ∧ fds v !! i = Some e.1 ∧ fences v !! i = Some e.2.
Proof.
  unfold entries, live_fds, live_fences. rewrite lookup_zip_with, !lookup_take.
  case_decide; [|discriminate].
  destruct (fds v !! i) as [p|]; [|discriminate].
  destruct (fences v !! i) as [f|]; [|discriminate].
  cbn. intros [= <-]. auto.
Qed.

Lemma shift_loop_fields (n j : nat) (v : main_vars) :
  fds (shift_loop n j v) = shift_list n j (fds v) ∧
  fences (shift_loop n j v) = shift_list n j (fences v) ∧
  wl (shift_loop n j v) = wl v ∧ len (shift_loop n j v) = len v ∧
  cap (shift_loop n j v) = cap v ∧ frame_num (shift_loop n j v) = frame_num v.
Proof.
  revert j v. induction n as [|n IH]; intros j v; [cbn; auto 6|].
  cbn [shift_loop shift_list].
  destruct (IH (S j) (copy_slot j v)) as (-> & -> & -> & -> & -> & ->).
  cbn. auto 6.
Qed.

Lemma remove_slot_fields (i : nat) (v : main_vars) :
  fds (remove_slot i v) = shift_list (len v - 1 - i) i (fds v) ∧
  fences (remove_slot i v) = shift_list (len v - 1 - i) i (fences v) ∧
  wl (remove_slot i v) = wl v ∧ len (remove_slot i v) = (len v - 1)%nat ∧
  cap (remove_slot i v) = cap v ∧ frame_num (remove_slot i v) = frame_num v.
Proof.
  unfold remove_slot. cbn.
  destruct (shift_loop_fields (len v - 1 - i) i v) as (-> & -> & -> & _ & -> & ->).
  auto 6.
Qed.

(** Removing slot [i] deletes entry [i] and keeps the others in place. *)
Lemma entries_remove_slot (i : nat) (v : main_vars) :
  (i < len v)%nat → (len v ≤ length (fds v))%nat →
  (len v ≤ length (fences v))%nat →
  entries (remove_slot i v) = delete i (entries v).
Proof.
  intros Hi Hp Hf. unfold entries, live_fds, live_fences.
  destruct (remove_slot_fields i v) as (-> & -> & _ & -> & _ & _).
  rewrite <- zip_delete.
  remember (len v - 1 - i)%nat as n eqn:Hn.
  replace (len v - 1)%nat with (i + n)%nat by lia.
  rewrite !take_shift_list by lia.
  replace (S (i + n)) with (len v) by lia.
  reflexivity.
Qed.

(** *** Bookkeeping on lists and traces *)

Lemma filter_waiting_sublist (l : list (pollfd * Fence.t)) :
  sublist (List.filter waiting l) l.
Proof.
  induction l as [|e l IH]; cbn; [constructor|].
  destruct (waiting e); constructor; exact IH.
Qed.

Lemma length_filter_split (l : list (pollfd * Fence.t)) :
  (length (List.filter waiting l) + length (List.filter is_ready l))%nat
  = length l.
Proof.
  induction l as [|e l IH]; [reflexivity|].
  cbn [List.filter]. unfold is_ready at 1.
  destruct (waiting e); cbn [negb length]; lia.
Qed.

Lemma printed_app (l k : list action) : printed (l ++ k) = printed l ++ printed k.
Proof.
  induction l as [|a l IH]; [reflexivity|].
  destruct a; cbn; rewrite IH; reflexivity.
Qed.

Section Reap.
Context {W : Type} `{Platform W}.

(** The reap loop from slot [i] on: the entries before [i] stay, of those
    from [i] on the waiting ones stay in order, and the report is the one
    the specification asks for. *)
Lemma reap_loop_spec (fuel : nat) :
  ∀ (i : nat) (v : main_vars) (w : W) (out : list action)
    (pre rest : list (pollfd * Fence.t)),
  entries v = pre ++ rest → i = length pre →
  (len v ≤ length (fds v))%nat → (len v ≤ length (fences v))%nat →
  (length rest < fuel)%nat →
  ∃ v',
    reap_loop fuel i v w out
    = Some (v', (reap_report rest w).1, out ++ (reap_report rest w).2) ∧
    entries v' = pre ++ List.filter waiting rest ∧
    wl v' = wl v ∧ cap v' = cap v ∧ frame_num v' = frame_num v ∧
    length (fds v') = length (fds v) ∧
    length (fences v') = length (fences v) ∧
    (len v' ≤ len v)%nat.
Proof.
  induction fuel as [|fuel IH]; intros i v w out pre rest Hes Hi Hp Hf Hfuel;
    [lia|].
  pose proof (length_entries v Hp Hf) as Hlen.
  rewrite Hes, length_app in Hlen.
  cbn [reap_loop]. case_decide as Hlt.
  - destruct rest as [|e rest]; [cbn in Hlen; lia|].
    assert (He : entries v !! i = Some e).
    { rewrite Hes, Hi. apply list_lookup_middle. reflexivity. }
    apply lookup_entries in He as (_ & -> & ->). cbn [default from_option id reap_report List.filter].
    unfold is_ready, waiting.
    destruct (Z.land (revents e.1) POLLIN =? 0) eqn:Hw; cbn [negb].
    + destruct (IH (S i) v w out (pre ++ [e]) rest) as (v' & -> & Hes' & Hrest);
        try assumption.
      * rewrite <- app_assoc. exact Hes.
      * rewrite length_app. cbn. lia.
      * cbn in Hfuel. lia.
      * exists v'. split; [reflexivity|]. split; [|exact Hrest].
        rewrite Hes', <- app_assoc. reflexivity.
    + destruct (fence_timestamp (fd e.1) w) as [[end_ns log] w1].
      destruct (remove_slot_fields i v) as (Hfds & Hfences & Hwl & Hlen' & Hcap & Hnum).
      destruct (IH i (remove_slot i v) w1
                  (out ++ log ++ [Close (fd e.1);
                     Printf (Fence.frame_num e.2)
                            (wrap64 (end_ns - Fence.start_ns e.2))])
                  pre rest)
        as (v' & -> & Hes' & Hwl' & Hcap' & Hnum' & Hlp & Hlf & Hle).
      * rewrite entries_remove_slot, Hes by assumption.
        rewrite Hi, delete_take_drop, take_app_length.
        replace (pre ++ e :: rest) with ((pre ++ [e]) ++ rest)
          by (rewrite <- app_assoc; reflexivity).
        rewrite drop_app_length'; [reflexivity|rewrite length_app; cbn; lia].
      * exact Hi.
      * rewrite Hfds, length_shift_list, Hlen'. lia.
      * rewrite Hfences, length_shift_list, Hlen'. lia.
      * cbn in Hfuel. lia.
      * exists v'. destruct (reap_report rest w1) as [w2 out2]. cbn [fst snd].
        split; [rewrite <- !app_assoc; reflexivity|].
        rewrite Hes', Hwl', Hcap', Hnum', Hlp, Hlf, Hwl, Hcap, Hnum, Hfds, Hfences,
          !length_shift_list.
        repeat split; lia.
  - assert (rest = []) as -> by (destruct rest; [reflexivity|cbn in Hlen; lia]).
    exists v. cbn. rewrite !app_nil_r in *. repeat split; auto.
Qed.

Lemma printed_fence_timestamp (fd : Z) (w : W) :
  printed (fence_timestamp fd w).1.2 = [].
Proof.
  unfold fence_timestamp.
  destruct (ioctl_sync_file_info fd _ w) as [[file1|] w1]; [|reflexivity].
  destruct (ioctl_sync_file_info fd _ w1) as [[file2|] w2]; reflexivity.
Qed.

Lemma printed_reap_report (es : list (pollfd * Fence.t)) (w : W) :
  printed (reap_report es w).2
  = map (λ e, Fence.frame_num e.2) (List.filter is_ready es).
Proof.
  revert w. induction es as [|e es IH]; intros w; [reflexivity|].
  cbn [reap_report List.filter]. destruct (is_ready e); [|apply IH].
  pose proof (printed_fence_timestamp (fd e.1) w) as Hlog.
  destruct (fence_timestamp (fd e.1) w) as [[end_ns log] w1].
  specialize (IH w1). destruct (reap_report es w1) as [w2 out].
  cbn in Hlog, IH |- *. rewrite printed_app, Hlog. cbn. rewrite IH. reflexivity.
Qed.

(** C1.  On a tracker whose two arrays have the same length and whose
    slot 0 is in use, reaping returns; with N the number of ready slots
    after slot 0, both collections shrink by exactly N, slot 0 is
    untouched, the entries left are those that were not ready, in their
    old order, and the trace names each reaped frame exactly once, in
    order: it is the report the specification describes. *)
Theorem reap_shrinks_in_order (v : main_vars) (w : W) :
  length (fds v) = length (fences v) →
  (1 ≤ len v ≤ length (fds v))%nat →
  let reaped := List.filter is_ready (drop 1 (entries v)) in
  ∃ v' w' out,
    reap v w = Some (v', w', out) ∧
    (w', out) = reap_report (drop 1 (entries v)) w ∧
    (length (live_fds v') + length reaped)%nat = length (live_fds v) ∧
    (length (live_fences v') + length reaped)%nat = length (live_fences v) ∧
    length (fds v') = length (fences v') ∧
    fds v' !! 0%nat = fds v !! 0%nat ∧
    fences v' !! 0%nat = fences v !! 0%nat ∧
    entries v' = take 1 (entries v) ++ List.filter waiting (drop 1 (entries v)) ∧
    sublist (entries v') (entries v) ∧
    printed out = map (λ e, Fence.frame_num e.2) reaped.
Proof.
  intros Heq [Hone Hlen].
  assert (Hf : (len v ≤ length (fences v))%nat) by lia.
  pose proof (length_entries v Hlen Hf) as Hn.
  destruct (entries v) as [|e0 rest] eqn:Hes; [cbn in Hn; lia|].
  change (drop 1 (e0 :: rest)) with rest.
  change (take 1 (e0 :: rest)) with [e0].
  intros reaped.
  destruct (reap_loop_spec (S (len v)) 1 v w [] [e0] rest)
    as (v' & Hrun & Hes' & _ & _ & _ & Hlp & Hlf & Hle); auto.
  { cbn in Hn. lia. }
  exists v', (reap_report rest w).1, (reap_report rest w).2.
  assert (Hp' : (len v' ≤ length (fds v'))%nat) by lia.
  assert (Hf' : (len v' ≤ length (fences v'))%nat) by lia.
  pose proof (length_entries v' Hp' Hf') as Hn'.
  rewrite Hes' in Hn'. cbn in Hn, Hn'.
  pose proof (length_filter_split rest) as Hsplit. fold reaped in Hsplit.
  assert (H0 : entries v !! 0%nat = Some e0) by (rewrite Hes; reflexivity).
  assert (H0' : entries v' !! 0%nat = Some e0) by (rewrite Hes'; reflexivity).
  apply lookup_entries in H0 as (_ & Ha & Hb).
  apply lookup_entries in H0' as (_ & Ha' & Hb').
  split; [exact Hrun|]. split; [destruct (reap_report rest w); reflexivity|].
  unfold live_fds, live_fences. rewrite !length_take.
  repeat split; try lia; try congruence.
  - rewrite Hes'. constructor. apply filter_waiting_sublist.
  - apply printed_reap_report.
Qed.

End Reap.

(** ** The tracker: appending *)

Section Track.
Context {W : Type} `{Platform W}.

Lemma grow_spec (v : main_vars) (w : W) :
  length (fds v) = cap v → length (fences v) = cap v → (len v ≤ cap v)%nat →
  match grow v w with
  | (true, v', _) =>
    length (fds v') = cap v' ∧ length (fences v') = cap v' ∧
    cap v' = (if decide (len v = cap v) then cap v * 2 else cap v)%nat ∧
    len v' = len v ∧ live_fds v' = live_fds v ∧ live_fences v' = live_fences v ∧
    wl v' = wl v ∧ frame_num v' = frame_num v
  | (false, v', _) =>
    len v = cap v ∧
    ((realloc (cap v * 2) w).1 = false ∨
     (realloc (cap v * 2) (realloc (cap v * 2) w).2).1 = false) ∧
    cap v' = (cap v * 2)%nat ∧ len v' = len v ∧
    wl v' = wl v ∧ frame_num v' = frame_num v
  end.
Proof.
  intros Hp Hf Hle. unfold grow. case_decide as Hfull.
  - destruct (realloc (cap v * 2) w) as [got_fds w1]. cbn [fst snd].
    destruct (realloc (cap v * 2) w1) as [got_fences w2]. cbn [fst snd].
    destruct got_fds, got_fences; cbn [andb]; auto 8.
    unfold live_fds, live_fences. cbn.
    rewrite !length_resize, !take_resize_le, !resize_le by lia.
    auto 8.
  - cbn. auto 8.
Qed.

(** The two ways through [grow], with the worlds named. *)
Lemma grow_room (v : main_vars) (w : W) :
  len v ≠ cap v → grow v w = (true, v, w).
Proof. intros Hne. unfold grow. case_decide; [contradiction|reflexivity]. Qed.

Lemma grow_full (v : main_vars) (w : W) :
  len v = cap v →
  let cap' := (cap v * 2)%nat in
  let w1 := (realloc cap' w).2 in
  grow v w
  = ((realloc cap' w).1 && (realloc cap' w1).1,
     set_cap cap'
       (set_fences (if (realloc cap' w1).1
                    then resize cap' uninit_fence (fences v) else [])
          (set_fds (if (realloc cap' w).1
                    then resize cap' uninit_pollfd (fds v) else []) v)),
     (realloc cap' w1).2).
Proof.
  intros Hfull. unfold grow. case_decide; [|contradiction]. cbn zeta.
  destruct (realloc (cap v * 2) w) as [got_fds w1]. cbn [fst snd].
  destruct (realloc (cap v * 2) w1) as [got_fences w2]. reflexivity.
Qed.

Lemma store_fence_spec (fence_fd start : Z) (v : main_vars) :
  (len v < length (fds v))%nat → (len v < length (fences v))%nat →
  let v' := store_fence fence_fd start v in
  (∃ p, fd p = fence_fd ∧ events p = POLLIN ∧
        live_fds v' = live_fds v ++ [p]) ∧
  live_fences v'
  = live_fences v
    ++ [{| Fence.frame_num := frame_num v; Fence.start_ns := start |}] ∧
  length (fds v') = length (fds v) ∧ length (fences v') = length (fences v) ∧
  len v' = S (len v) ∧ cap v' = cap v ∧ wl v' = wl v ∧
  frame_num v' = frame_num v.
Proof.
  intros Hp Hf. unfold store_fence, live_fds, live_fences. cbn.
  rewrite !length_insert.
  split; [eexists; split; [|split]|].
  3: { erewrite take_S_r by (apply list_lookup_insert_eq; exact Hp).
       rewrite take_insert_ge by lia. reflexivity. }
  1, 2: reflexivity.
  erewrite take_S_r by (apply list_lookup_insert_eq; exact Hf).
  rewrite take_insert_ge by lia. auto 8.
Qed.

Lemma entries_snoc (v v' : main_vars) (p : pollfd) (f : Fence.t) :
  (len v ≤ length (fds v))%nat → (len v ≤ length (fences v))%nat →
  live_fds v' = live_fds v ++ [p] → live_fences v' = live_fences v ++ [f] →
  entries v' = entries v ++ [(p, f)].
Proof.
  intros Hp Hf Hfds Hfences. unfold entries. rewrite Hfds, Hfences.
  rewrite (zip_with_app pair); [reflexivity|]. unfold live_fds, live_fences.
  rewrite !length_take. lia.
Qed.

(** One call of [track]. *)
Lemma track_spec (start : Z) (v : main_vars) (w : W) :
  tracker_ok v →
  match track start v w with
  | (true, v', _) =>
    tracker_ok v' ∧ len v' = S (len v) ∧
    cap v' = (if decide (len v = cap v) then cap v * 2 else cap v)%nat ∧
    (∃ p, events p = POLLIN ∧ live_fds v' = live_fds v ++ [p]) ∧
    live_fences v'
    = live_fences v
      ++ [{| Fence.frame_num := frame_num v; Fence.start_ns := start |}] ∧
    wl v' = wl v ∧ frame_num v' = frame_num v
  | (false, v', _) =>
    len v = cap v ∧
    ((realloc (cap v * 2) w).1 = false ∨
     (realloc (cap v * 2) (realloc (cap v * 2) w).2).1 = false) ∧
    cap v' = (cap v * 2)%nat ∧ len v' = len v ∧
    wl v' = wl v ∧ frame_num v' = frame_num v
  end.
Proof.
  intros (Hp & Hf & Hone & Hle). unfold track.
  pose proof (grow_spec v w Hp Hf Hle) as Hg.
  destruct (grow v w) as [[[] v1] w1]; [|exact Hg].
  destruct Hg as (Hp1 & Hf1 & Hcap & Hlen & Hlp & Hlf & Hwl & Hnum).
  destruct (egl_dup_fence w1) as [fence_fd w2].
  assert (len v1 < cap v1)%nat as Hlt.
  { rewrite Hcap, Hlen. case_decide; lia. }
  destruct (store_fence_spec fence_fd start v1)
    as ((p & _ & Hev & Hfds) & Hfences & Hp2 & Hf2 & Hlen2 & Hcap2 & Hwl2 & Hnum2);
    try lia.
  unfold tracker_ok. rewrite Hp2, Hf2, Hlen2, Hcap2, Hwl2, Hnum2, Hfences, Hfds.
  rewrite Hlp, Hlf, Hnum, Hwl, Hlen. repeat split; try lia; try assumption.
  exists p. split; [exact Hev|reflexivity].
Qed.

(** The slot [store_fence] writes, field by field. *)
Lemma store_fence_slot (fence_fd start : Z) (v : main_vars) :
  (len v < length (fds v))%nat → (len v < length (fences v))%nat →
  let v' := store_fence fence_fd start v in
  let slot := {| fd := fence_fd; events := POLLIN;
                 revents := revents (default uninit_pollfd (fds v !! len v)) |} in
  let record := {| Fence.frame_num := frame_num v; Fence.start_ns := start |} in
  fds v' !! len v = Some slot ∧ fences v' !! len v = Some record ∧
  live_fds v' = live_fds v ++ [slot] ∧ live_fences v' = live_fences v ++ [record].
Proof.
  intros Hp Hf. unfold store_fence, live_fds, live_fences. cbn.
  rewrite !list_lookup_insert_eq by assumption.
  split; [reflexivity|]. split; [reflexivity|]. split.
  - erewrite take_S_r by (apply list_lookup_insert_eq; exact Hp).
    rewrite take_insert_ge by lia. reflexivity.
  - erewrite take_S_r by (apply list_lookup_insert_eq; exact Hf).
    rewrite take_insert_ge by lia. reflexivity.
Qed.

(** One call of [track] with the descriptor and the world named: the
    slot written holds what [eglDupNativeFenceFDANDROID] returned, asked
    after the two reallocations when the tracker was full. *)
Lemma track_appends (start : Z) (v : main_vars) (w : W) :
  tracker_ok v →
  let cap' := (cap v * 2)%nat in
  let w1 := (realloc cap' w).2 in
  let w2 := (realloc cap' w1).2 in
  let wd := if decide (len v = cap v) then w2 else w in
  let slot := {| fd := (egl_dup_fence wd).1; events := POLLIN;
                 revents := revents (default uninit_pollfd (fds v !! len v)) |} in
  let record := {| Fence.frame_num := frame_num v; Fence.start_ns := start |} in
  (len v < cap v)%nat ∨ (realloc cap' w).1 && (realloc cap' w1).1 = true →
  ∃ v', track start v w = (true, v', (egl_dup_fence wd).2) ∧
        fds v' !! len v = Some slot ∧ fences v' !! len v = Some record ∧
        live_fds v' = live_fds v ++ [slot] ∧
        live_fences v' = live_fences v ++ [record].
Proof.
  intros (Hp & Hf & Hone & Hle) cap' w1 w2 wd slot record Hcase.
  unfold track. destruct (decide (len v = cap v)) as [Hfull|Hroom].
  - destruct Hcase as [Hlt|Hgot]; [lia|].
    rewrite grow_full by exact Hfull. fold cap' w1 w2. rewrite Hgot.
    apply andb_true_iff in Hgot as [Hg1 Hg2]. rewrite Hg1, Hg2.
    subst wd. destruct (egl_dup_fence w2) as [fence_fd w3] eqn:Hdup.
    eexists. split; [reflexivity|].
    match goal with |- context [store_fence _ _ ?u] => set (v1 := u) end.
    destruct (store_fence_slot fence_fd start v1) as (Hs & Hr & Hlp & Hlf);
      [subst v1; cbn; rewrite length_resize; lia..|].
    assert (Hnew : fds v1 !! len v = Some uninit_pollfd).
    { subst v1. cbn. apply lookup_resize_new; lia. }
    assert (Hold : fds v !! len v = None) by (apply lookup_ge_None_2; lia).
    change (len v1) with (len v) in Hs, Hr, Hlp, Hlf.
    change (frame_num v1) with (frame_num v) in Hr, Hlf.
    rewrite Hnew in Hs, Hlp. subst slot record. rewrite Hold. cbn [fst].
    cbn [default from_option id] in Hs, Hlp |- *.
    split; [exact Hs|]. split; [exact Hr|].
    rewrite Hlp, Hlf. unfold live_fds, live_fences. subst v1. cbn.
    rewrite !take_resize_le, !resize_le by lia. auto.
  - clear Hcase. rewrite grow_room by exact Hroom. subst wd.
    destruct (egl_dup_fence w) as [fence_fd w3] eqn:Hdup.
    eexists. split; [reflexivity|].
    destruct (store_fence_slot fence_fd start v) as (Hs & Hr & Hlp & Hlf);
      [lia..|]. auto.
Qed.

(** A refused reallocation: [track] stops before the descriptor is
    duplicated, with the capacity doubled already. *)
Lemma track_refused (start : Z) (v : main_vars) (w : W) :
  len v = cap v →
  let cap' := (cap v * 2)%nat in
  let w1 := (realloc cap' w).2 in
  (realloc cap' w).1 && (realloc cap' w1).1 = false →
  ∃ v', track start v w = (false, v', (realloc cap' w1).2) ∧
        cap v' = cap' ∧ len v' = len v ∧
        fds v' = (if (realloc cap' w).1
                  then resize cap' uninit_pollfd (fds v) else []) ∧
        fences v' = (if (realloc cap' w1).1
                     then resize cap' uninit_fence (fences v) else []) ∧
        wl v' = wl v ∧ frame_num v' = frame_num v.
Proof.
  intros Hfull cap' w1 Hgot. unfold track.
  rewrite grow_full by exact Hfull. fold cap' w1. rewrite Hgot.
  eexists. split; [reflexivity|]. cbn. auto 8.
Qed.

Lemma tracker_ok_set_frame_num (x : Z) (v : main_vars) :
  tracker_ok v → tracker_ok (set_frame_num x v).
Proof. exact id. Qed.

Lemma track_all_app (rs rs' : list (Z * Z)) (v : main_vars) (w : W) :
  track_all (rs ++ rs') v w
  = match track_all rs v w with
    | (true, v1, w1) => track_all rs' v1 w1
    | (false, v1, w1) => (false, v1, w1)
    end.
Proof.
  revert v w. induction rs as [|r rs IH]; intros v w; [reflexivity|].
  cbn [app track_all].
  destruct (track r.2 (set_frame_num r.1 v) w) as [[[] v1] w1];
    [apply IH|reflexivity].
Qed.

(** A run of calls appends its records in order, whatever growth occurs
    on the way; it fails only where [realloc] does. *)
Lemma track_all_spec (rs : list (Z * Z)) (v : main_vars) (w : W) :
  tracker_ok v →
  match track_all rs v w with
  | (true, v', _) =>
    tracker_ok v' ∧ len v' = (len v + length rs)%nat ∧
    live_fences v' = live_fences v ++ map record_of rs ∧
    (∃ ps, live_fds v' = live_fds v ++ ps ∧ length ps = length rs ∧
           Forall (λ p, events p = POLLIN) ps) ∧
    ((len v + length rs ≤ cap v)%nat → cap v' = cap v)
  | (false, _, _) => ∃ n w0, (realloc n w0).1 = false
  end.
Proof.
  revert v w. induction rs as [|r rs IH]; intros v w Hok.
  - cbn. rewrite app_nil_r. repeat split; auto; try apply Hok.
    exists []. rewrite app_nil_r. auto.
  - cbn [track_all].
    pose proof (track_spec r.2 (set_frame_num r.1 v) w
                  (tracker_ok_set_frame_num _ _ Hok)) as Ht.
    destruct (track r.2 (set_frame_num r.1 v) w) as [[[] v1] w1].
    + destruct Ht as (Hok1 & Hlen & Hcap & (p & Hev & Hlp) & Hlf & _ & _).
      specialize (IH v1 w1 Hok1).
      destruct (track_all rs v1 w1) as [[[] v2] w2]; [|exact IH].
      destruct IH as (Hok2 & Hlen2 & Hlf2 & (ps & Hlp2 & Hn2 & Hev2) & Hcap2).
      cbn [set_frame_num len cap frame_num] in Hlen, Hcap, Hlf.
      change (live_fds (set_frame_num r.1 v)) with (live_fds v) in Hlp.
      change (live_fences (set_frame_num r.1 v)) with (live_fences v) in Hlf.
      split; [exact Hok2|]. split; [cbn [length]; lia|]. split; [|split].
      * rewrite Hlf2, Hlf. rewrite <- app_assoc. reflexivity.
      * exists (p :: ps). rewrite Hlp2, Hlp, <- app_assoc.
        split; [reflexivity|]. split; [cbn; lia|]. constructor; assumption.
      * cbn [length]. intros Hfit.
        assert (Hc : cap v1 = cap v) by (rewrite Hcap; case_decide; lia).
        rewrite Hcap2 by lia. exact Hc.
    + destruct Ht as (_ & [Hr|Hr] & _); eauto.
Qed.

(** Where no reallocation is refused the run of calls goes through. *)
Lemma track_all_total (rs : list (Z * Z)) (v : main_vars) (w : W) :
  no_alloc_failure → tracker_ok v → (track_all rs v w).1.1 = true.
Proof.
  intros Hna. revert v w. induction rs as [|r rs IH]; intros v w Hok;
    [reflexivity|].
  cbn [track_all].
  pose proof (track_spec r.2 (set_frame_num r.1 v) w
                (tracker_ok_set_frame_num _ _ Hok)) as Ht.
  destruct (track r.2 (set_frame_num r.1 v) w) as [[[] v1] w1].
  - apply IH. apply Ht.
  - destruct Ht as (_ & [Hr|Hr] & _); rewrite Hna in Hr; discriminate.
Qed.

Lemma track_all_scenario (rs : list (Z * Z)) (display_fd : Z) (s : wl_state)
    (w : W) (v' : main_vars) (w' : W) :
  length rs = 11%nat →
  track_all rs (init_vars display_fd s) w = (true, v', w') →
  cap v' = 20%nat ∧ len v' = 12%nat ∧
  live_fences v' = zero_fence :: map record_of rs.
Proof.
  intros Hn Hrun.
  assert (Hok : tracker_ok (init_vars display_fd s)).
  { unfold tracker_ok. cbn. lia. }
  pose proof (track_all_spec rs _ w Hok) as Hall. rewrite Hrun in Hall.
  destruct Hall as (_ & Hlen & Hlf & _).
  split; [|split; [cbn in Hlen; lia|exact Hlf]].
  rewrite <- (take_drop 9 rs) in Hrun. rewrite track_all_app in Hrun.
  pose proof (track_all_spec (take 9 rs) _ w Hok) as H9.
  destruct (track_all (take 9 rs) (init_vars display_fd s) w) as [[[] v9] w9];
    [|discriminate].
  destruct H9 as (Hok9 & Hlen9 & _ & _ & Hcap9).
  rewrite length_take, Hn in Hlen9, Hcap9. cbn in Hlen9, Hcap9.
  specialize (Hcap9 ltac:(lia)).
  destruct (drop 9 rs) as [|r10 [|r11 [|]]] eqn:Hd;
    apply (f_equal length) in Hd; rewrite length_drop in Hd; cbn in Hd; try lia.
  cbn [track_all] in Hrun.
  pose proof (track_spec r10.2 (set_frame_num r10.1 v9) w9
                (tracker_ok_set_frame_num _ _ Hok9)) as H10.
  destruct (track r10.2 (set_frame_num r10.1 v9) w9) as [[[] v10] w10];
    [|discriminate].
  destruct H10 as (Hok10 & Hlen10 & Hcap10 & _).
  cbn [set_frame_num len cap] in Hlen10, Hcap10.
  pose proof (track_spec r11.2 (set_frame_num r11.1 v10) w10
                (tracker_ok_set_frame_num _ _ Hok10)) as H11.
  destruct (track r11.2 (set_frame_num r11.1 v10) w10) as [[[] v11] w11];
    [|discriminate].
  destruct H11 as (_ & _ & Hcap11 & _).
  cbn [set_frame_num len cap] in Hcap11.
  injection Hrun as <- _. rewrite Hcap11, Hcap10.
  repeat case_decide; lia.
Qed.

(** A turn whose render block meets a full tracker and a refused
    reallocation ends [main] with status 1, right after the frame was
    presented. *)
Lemma main_returns_1 (c : config) (fuel inner : nat) (v : main_vars) (w : W)
    (out : list action) :
  egl_has_fences c = true →
  close (wl v) = false → frame_num v < max_frames c →
  unsynchronized c || negb (frame (wl v)) = true →
  len v = cap v →
  let cap' := (cap v * 2)%nat in
  let wa := (draw c v w).1.2 in
  let w1 := (realloc cap' wa).2 in
  (realloc cap' wa).1 && (realloc cap' w1).1 = false →
  ∃ v1, main_loop (S fuel) inner c v w out
        = Some (1, v1, (realloc cap' w1).2, out ++ (draw c v w).2) ∧
        cap v1 = cap' ∧ len v1 = len v ∧
        last (draw c v w).2 = Some EglSwapBuffers.
Proof.
  intros Hfences Hclose Hnum Hgate Hfull cap' wa w1 Hgot.
  cbn [main_loop]. rewrite Hclose. cbn [negb andb].
  destruct (Z.ltb_spec (frame_num v) (max_frames c)) as [_|]; [|lia].
  unfold iteration, render. rewrite Hgate. unfold submit.
  subst wa. destruct (draw c v w) as [[[v0 start] w0] acts] eqn:Hdraw.
  cbn [fst snd] in *. rewrite Hfences.
  assert (Hv0 : len v0 = len v ∧ cap v0 = cap v ∧
                last acts = Some EglSwapBuffers).
  { unfold draw in Hdraw.
    destruct (if negb (unsynchronized c) then _ else _) as [s0 o0].
    destruct (resize_window c s0) as [s1 o1].
    destruct (if egl_has_fences c then _ else _) as [st wt].
    injection Hdraw as <- _ _ <-. rewrite last_snoc. auto. }
  destruct Hv0 as (Hlen0 & Hcap0 & Hlast).
  destruct (track_refused start v0 w0) as (v1 & Htrack & Hcap1 & Hlen1 & _).
  { congruence. }
  { rewrite Hcap0. exact Hgot. }
  rewrite Hcap0 in Htrack. fold cap' w1 in Htrack. rewrite Htrack.
  exists v1. split; [reflexivity|]. rewrite Hcap1, Hlen1, Hcap0, Hlen0. auto.
Qed.

(** C2.  On a tracker with both arrays allocated to the capacity, one
    call of [track] with room left, or with a full tracker and both
    reallocations granted, appends: slot [len] of the descriptors holds
    the descriptor [eglDupNativeFenceFDANDROID] returned, with events
    [POLLIN], slot [len] of the metadata holds the frame number and the
    submit time, the slots before are as they were, and the capacity is
    doubled for both arrays exactly when the tracker was full.  A run of
    calls keeps every record, in order, at the slot it was written to,
    none lost and none twice; it goes through wherever no reallocation
    is refused, and eleven calls on the initial tracker of capacity 10
    end with capacity 20.  With the tracker full and a reallocation
    refused, [track] fails with the capacity already doubled, and the
    turn of the loop that met it ends [main] with status 1. *)
Theorem track_appends_and_grows (v : main_vars) (w : W) (start : Z)
    (rs : list (Z * Z)) :
  tracker_ok v →
  let cap' := (cap v * 2)%nat in
  let w1 := (realloc cap' w).2 in
  let w2 := (realloc cap' w1).2 in
  let granted := (realloc cap' w).1 && (realloc cap' w1).1 in
  let wd := if decide (len v = cap v) then w2 else w in
  let slot := {| fd := (egl_dup_fence wd).1; events := POLLIN;
                 revents := revents (default uninit_pollfd (fds v !! len v)) |} in
  let record := {| Fence.frame_num := frame_num v; Fence.start_ns := start |} in
  ((len v < cap v)%nat ∨ granted = true →
   ∃ v', track start v w = (true, v', (egl_dup_fence wd).2) ∧
         tracker_ok v' ∧ len v' = S (len v) ∧
         cap v' = (if decide (len v = cap v) then cap' else cap v) ∧
         fds v' !! len v = Some slot ∧ fences v' !! len v = Some record ∧
         live_fds v' = live_fds v ++ [slot] ∧
         live_fences v' = live_fences v ++ [record] ∧
         entries v' = entries v ++ [(slot, record)]) ∧
  (len v = cap v → granted = false →
   ∃ v', track start v w = (false, v', w2) ∧
         cap v' = cap' ∧ len v' = len v ∧
         fds v' = (if (realloc cap' w).1
                   then resize cap' uninit_pollfd (fds v) else []) ∧
         fences v' = (if (realloc cap' w1).1
                      then resize cap' uninit_fence (fences v) else [])) ∧
  (∀ v' w', track_all rs v w = (true, v', w') →
     tracker_ok v' ∧ len v' = (len v + length rs)%nat ∧
     live_fences v' = live_fences v ++ map record_of rs ∧
     (∀ i r, rs !! i = Some r →
             fences v' !! (len v + i)%nat = Some (record_of r)) ∧
     (∃ ps, live_fds v' = live_fds v ++ ps ∧ length ps = length rs ∧
            Forall (λ p, events p = POLLIN) ps) ∧
     ((len v + length rs ≤ cap v)%nat → cap v' = cap v)) ∧
  (∀ r, track_all (rs ++ [r]) v w
        = match track_all rs v w with
          | (true, v1, w1) => track r.2 (set_frame_num r.1 v1) w1
          | failed => failed
          end) ∧
  (no_alloc_failure → ∃ v' w', track_all rs v w = (true, v', w')) ∧
  (∀ v' w', track_all rs v w = (false, v', w') →
            ∃ n w0, (realloc n w0).1 = false) ∧
  (∀ display_fd s v' w',
     length rs = 11%nat →
     track_all rs (init_vars display_fd s) w = (true, v', w') →
     cap v' = 20%nat ∧ len v' = 12%nat ∧
     live_fences v' = zero_fence :: map record_of rs) ∧
  (∀ c fuel inner out,
     egl_has_fences c = true →
     close (wl v) = false → frame_num v < max_frames c →
     unsynchronized c || negb (frame (wl v)) = true →
     len v = cap v →
     let wa := (draw c v w).1.2 in
     let wb := (realloc cap' wa).2 in
     (realloc cap' wa).1 && (realloc cap' wb).1 = false →
     ∃ v1, main_loop (S fuel) inner c v w out
           = Some (1, v1, (realloc cap' wb).2, out ++ (draw c v w).2) ∧
           cap v1 = cap' ∧ len v1 = len v ∧
           last (draw c v w).2 = Some EglSwapBuffers).
Proof.
  intros Hok cap' w1 w2 granted wd slot record.
  split; [|split; [|split; [|split; [|split; [|split; [|split]]]]]].
  - intros Hcase.
    destruct (track_appends start v w Hok Hcase)
      as (v' & Hrun & Hs & Hr & Hlp & Hlf).
    exists v'. split; [exact Hrun|].
    pose proof (track_spec start v w Hok) as Hspec. rewrite Hrun in Hspec.
    destruct Hspec as (Hok' & Hlen' & Hcap' & _).
    destruct Hok as (Hp & Hf & Hone & Hle).
    repeat split; try assumption; try apply Hok'.
    apply entries_snoc; try lia; assumption.
  - intros Hfull Hgot.
    destruct (track_refused start v w Hfull Hgot)
      as (v' & Hrun & Hcap' & Hlen' & Hfds & Hfences & _).
    exists v'. auto.
  - intros v' w' Hrun.
    pose proof (track_all_spec rs v w Hok) as Ht. rewrite Hrun in Ht.
    destruct Ht as (Hok' & Hlen' & Hlf & Hps & Hcap).
    repeat split; try assumption; try apply Hok'.
    intros i r Hr.
    assert (Hi : (i < length rs)%nat) by (eapply lookup_lt_Some; exact Hr).
    assert (Hl : live_fences v' !! (len v + i)%nat = Some (record_of r)).
    { rewrite Hlf, lookup_app_r; unfold live_fences;
        rewrite length_take; destruct Hok as (_ & Hf & _ & Hle);
        [|lia]. replace (len v + i - len v `min` length (fences v))%nat
        with i by lia. rewrite list_lookup_fmap, Hr. reflexivity. }
    unfold live_fences in Hl. rewrite lookup_take_lt in Hl by lia. exact Hl.
  - intros r. rewrite track_all_app.
    destruct (track_all rs v w) as [[[] v1] w1']; [|reflexivity].
    cbn [track_all].
    destruct (track r.2 (set_frame_num r.1 v1) w1') as [[[] v2] w2'];
      reflexivity.
  - intros Hna. pose proof (track_all_total rs v w Hna Hok) as Ht.
    destruct (track_all rs v w) as [[b v'] w']. cbn in Ht. subst b. eauto.
  - intros v' w' Hrun.
    pose proof (track_all_spec rs v w Hok) as Ht. rewrite Hrun in Ht. exact Ht.
  - intros display_fd s v' w' Hn Hrun.
    exact (track_all_scenario rs display_fd s w v' w' Hn Hrun).
  - intros c fuel inner out Hfences Hclose Hnum Hgate Hfull wa wb Hgot.
    exact (main_returns_1 c fuel inner v w out Hfences Hclose Hnum Hgate Hfull
             Hgot).
Qed.

End Track.

(** ** Resizing and acknowledging *)

Section Resize.
Context {W : Type} `{Platform W}.

Lemma acks_app (l k : list action) : acks (l ++ k) = acks l ++ acks k.
Proof.
  induction l as [|a l IH]; [reflexivity|].
  destruct a; cbn; rewrite IH; reflexivity.
Qed.

Lemma resize_window_pending (c : config) (s : wl_state) :
  serial s ≠ 0 →
  let wd := applied (fixed_size c) (fixed_width c) (width s) in
  let ht := applied (fixed_size c) (fixed_height c) (height s) in
  resize_window c s
  = (set_serial 0 (set_height ht (set_width wd s)),
     [WlEglWindowResize wd ht; XdgSurfaceAckConfigure (serial s)]).
Proof.
  intros Hs. unfold resize_window, applied.
  destruct (Z.eqb_spec (serial s) 0) as [|_]; [contradiction|].
  destruct s as [cl sr wd ht fr].
  cbn [serial width height close frame set_width set_height set_serial] in *.
  destruct (fixed_size c);
    cbn [serial width height close frame set_width set_height set_serial].
  - destruct (fixed_width c =? 0) eqn:E1;
      cbn [serial width height close frame set_width set_height set_serial];
      destruct (fixed_height c =? 0) eqn:E2; reflexivity.
  - destruct (wd =? 0) eqn:E1;
      cbn [serial width height close frame set_width set_height set_serial];
      destruct (ht =? 0) eqn:E2; reflexivity.
Qed.

Lemma resize_window_idle (c : config) (s : wl_state) :
  serial s = 0 → resize_window c s = (s, []).
Proof. intros Hs. unfold resize_window. rewrite Hs. reflexivity. Qed.

Lemma resize_window_clears (c : config) (s : wl_state) :
  serial (resize_window c s).1 = 0.
Proof.
  destruct (Z.eq_dec (serial s) 0) as [Hs|Hs].
  - rewrite resize_window_idle by exact Hs. exact Hs.
  - rewrite resize_window_pending by exact Hs. reflexivity.
Qed.

Lemma resize_window_fields (c : config) (s : wl_state) :
  close (resize_window c s).1 = close s ∧ frame (resize_window c s).1 = frame s.
Proof.
  destruct (Z.eq_dec (serial s) 0) as [Hs|Hs].
  - rewrite resize_window_idle by exact Hs. auto.
  - rewrite resize_window_pending by exact Hs. auto.
Qed.



(** Everything [draw] does, field by field and call by call. *)
Lemma draw_spec (c : config) (v : main_vars) (w : W) :
  ∃ s start w',
    draw c v w
    = (set_wl s v, start, w',
       (if unsynchronized c then [] else [WlSurfaceFrame])
       ++ (resize_window c (wl v)).2
       ++ [GlDrawArrays (frame_num v) (width s) (height s); EglSwapBuffers]) ∧
    close s = close (wl v) ∧ serial s = 0 ∧
    frame s = (if unsynchronized c then frame (wl v) else true) ∧
    (egl_has_fences c = false → w' = w).
Proof.
  unfold draw.
  destruct (unsynchronized c); cbn [negb].
  - pose proof (resize_window_clears c (wl v)) as Hs.
    pose proof (resize_window_fields c (wl v)) as [Hc Hf].
    destruct (resize_window c (wl v)) as [s out]. cbn [fst snd] in *.
    destruct (egl_has_fences c).
    + destruct (clock_gettime w) as [[tv_sec tv_nsec] w1].
      eexists _, _, _. split; [rewrite <- !app_assoc; reflexivity|].
      repeat split; auto. discriminate.
    + eexists _, _, _. split; [rewrite <- !app_assoc; reflexivity|].
      repeat split; auto.
  - pose proof (resize_window_clears c (set_frame true (wl v))) as Hs.
    pose proof (resize_window_fields c (set_frame true (wl v))) as [Hc Hf].
    assert (Hout : (resize_window c (set_frame true (wl v))).2
                   = (resize_window c (wl v)).2).
    { destruct (Z.eq_dec (serial (wl v)) 0) as [Hz|Hz].
      - rewrite !resize_window_idle by exact Hz. reflexivity.
      - rewrite !resize_window_pending by exact Hz. reflexivity. }
    destruct (resize_window c (set_frame true (wl v))) as [s out].
    cbn [fst snd] in *. subst out.
    destruct (egl_has_fences c).
    + destruct (clock_gettime w) as [[tv_sec tv_nsec] w1].
      eexists _, _, _. split; [rewrite <- !app_assoc; reflexivity|].
      repeat split; auto. discriminate.
    + eexists _, _, _. split; [rewrite <- !app_assoc; reflexivity|].
      repeat split; auto.
Qed.


End Resize.

(** ** The events asked of the display socket *)

Section Transport.
Context {W : Type} `{Platform W}.

Lemma land_lor_same (e m : Z) : Z.land (Z.lor e m) m = m.
Proof.
  apply Z.bits_inj. intros n. rewrite Z.land_spec, Z.lor_spec.
  destruct (Z.testbit e n), (Z.testbit m n); reflexivity.
Qed.

Lemma arm_pollout_spec (l : list pollfd) (p : pollfd) :
  l !! 0%nat = Some p →
  ∃ p', arm_pollout l !! 0%nat = Some p' ∧
        Z.land (events p') POLLOUT = POLLOUT ∧
        fd p' = fd p ∧ revents p' = revents p ∧
        drop 1 (arm_pollout l) = drop 1 l.
Proof.
  intros Hp. unfold arm_pollout. rewrite Hp.
  destruct l as [|q l]; [discriminate|]. cbn in Hp. injection Hp as ->.
  eexists. split; [reflexivity|]. cbn. rewrite land_lor_same. auto.
Qed.

End Transport.

(** ** What each block does to the variables and to the trace *)

Lemma drawn_app (l k : list action) : drawn (l ++ k) = drawn l ++ drawn k.
Proof.
  induction l as [|a l IH]; [reflexivity|].
  destruct a; cbn; rewrite IH; reflexivity.
Qed.

Lemma outstanding_app (l k : list action) :
  outstanding (l ++ k) = outstanding l + outstanding k.
Proof.
  induction l as [|a l IH]; [reflexivity|].
  destruct a; cbn; rewrite ?IH; lia.
Qed.

Lemma callback_run_app (alive : bool) (l k : list action) :
  callback_run alive (l ++ k)
  = match callback_run alive l with
    | Some b => callback_run b k
    | None => None
    end.
Proof.
  revert alive. induction l as [|a l IH]; intros alive; [reflexivity|].
  destruct a, alive; cbn; auto.
Qed.

Lemma callback_run_seq (a b d : bool) (l k : list action) :
  callback_run a l = Some b → callback_run b k = Some d →
  callback_run a (l ++ k) = Some d.
Proof. intros Hl Hk. rewrite callback_run_app, Hl. exact Hk. Qed.

Lemma printed_quiet (l : list action) :
  Forall (λ a, ∀ f n, a ≠ Printf f n) l → printed l = [].
Proof.
  induction 1 as [|a l Ha _ IH]; [reflexivity|].
  destruct a; cbn; auto. exfalso. eapply Ha. reflexivity.
Qed.

Lemma drawn_quiet (l : list action) :
  Forall (λ a, ∀ f x y, a ≠ GlDrawArrays f x y) l → drawn l = [].
Proof.
  induction 1 as [|a l Ha _ IH]; [reflexivity|].
  destruct a; cbn; auto. exfalso. eapply Ha. reflexivity.
Qed.

Lemma callback_run_quiet (alive : bool) (l : list action) :
  Forall (λ a, a ≠ WlSurfaceFrame ∧ a ≠ WlCallbackDestroy) l →
  callback_run alive l = Some alive.
Proof.
  induction 1 as [|a l [Ha Hb] _ IH]; [reflexivity|].
  destruct a; cbn; auto; congruence.
Qed.

Lemma calls_app (a : action) (l k : list action) :
  calls a (l ++ k) = (calls a l + calls a k)%nat.
Proof. apply count_occ_app. Qed.

Lemma calls_single_ne (a b : action) : b ≠ a → calls a [b] = 0%nat.
Proof. intros Hne. unfold calls. rewrite count_occ_cons_neq by exact Hne. reflexivity. Qed.

Lemma calls_quiet (a : action) (l : list action) :
  Forall (λ x, x ≠ a) l → calls a l = 0%nat.
Proof.
  intros Hl. apply count_occ_not_In. intros Hin.
  rewrite Forall_forall in Hl. apply list_elem_of_In in Hin.
  exact (Hl _ Hin eq_refl).
Qed.

(** The monitor agrees with the count: while it runs, the number of
    callbacks alive is the count, and it is 0 or 1 after every prefix. *)
Lemma callback_run_outstanding (alive b : bool) (out pre post : list action) :
  callback_run alive out = Some b → out = pre ++ post →
  outstanding out + (if alive then 1 else 0) = (if b then 1 else 0) ∧
  0 ≤ outstanding pre + (if alive then 1 else 0) ≤ 1.
Proof.
  revert alive pre post.
  induction out as [|a out IH]; intros alive pre post Hrun Hsplit.
  - destruct pre; [|discriminate]. cbn in *. injection Hrun as <-.
    destruct alive; lia.
  - assert (Hnext : callback_run (match a with
                                  | WlSurfaceFrame => true
                                  | WlCallbackDestroy => false
                                  | _ => alive
                                  end) out = Some b).
    { destruct a, alive; cbn in Hrun |- *; congruence. }
    destruct pre as [|a' pre].
    + destruct (IH _ [] out Hnext eq_refl) as [Hcount _].
      split; [|cbn; destruct alive; lia].
      destruct a, alive; cbn in Hrun, Hcount |- *; try discriminate; lia.
    + injection Hsplit as <- Hsplit.
      destruct (IH _ pre post Hnext Hsplit) as [Hcount Hpre].
      destruct a, alive; cbn in Hrun, Hcount, Hpre |- *; try discriminate; lia.
Qed.

(** From the origin of the actions of a list to what they are not. *)
Ltac quiet H :=
  eapply Forall_impl; [exact H|];
  let a := fresh "a" in let Ha := fresh "Ha" in
  intros a Ha; destruct a; cbn in Ha; try discriminate;
  repeat split; intros; congruence.

Section Blocks.
Context {W : Type} `{Platform W}.

Lemma dispatch_spec (e : event) (s : wl_state) :
  Forall (λ a, from_listener a = true) (dispatch e s).2 ∧
  callback_run (frame s) (dispatch e s).2 = Some (frame (dispatch e s).1) ∧
  (frame s = false → frame (dispatch e s).1 = false) ∧
  (e ≠ xdg_toplevel_close → close (dispatch e s).1 = close s) ∧
  (frame (dispatch e s).1 = false ↔
   frame s = false ∨ ∃ time, e = wl_callback_done time).
Proof.
  destruct e; cbn; try destruct (frame s) eqn:Hf; cbn;
    repeat split; auto; try congruence; try (now intros [|[? [=]]]);
    try (now repeat constructor); eauto.
Qed.

Lemma dispatch_all_spec (es : list event) (s : wl_state) :
  Forall (λ a, from_listener a = true) (dispatch_all es s).2 ∧
  callback_run (frame s) (dispatch_all es s).2
  = Some (frame (dispatch_all es s).1) ∧
  (frame s = false → frame (dispatch_all es s).1 = false) ∧
  (xdg_toplevel_close ∉ es → close (dispatch_all es s).1 = close s).
Proof.
  revert s. induction es as [|e es IH]; intros s.
  - cbn. auto using Forall_nil.
  - cbn [dispatch_all].
    destruct (dispatch_spec e s) as (Ha & Hb & Hc & Hd & _).
    destruct (dispatch e s) as [s1 out1]. cbn [fst snd] in *.
    destruct (IH s1) as (Ha' & Hb' & Hc' & Hd').
    destruct (dispatch_all es s1) as [s2 out2]. cbn [fst snd] in *.
    split; [apply Forall_app; auto|]. split; [|split].
    + rewrite callback_run_app, Hb. exact Hb'.
    + auto.
    + intros Hno. rewrite Hd', Hd; auto.
      * intros ->. apply Hno. apply list_elem_of_here.
      * intros Hin. apply Hno. apply list_elem_of_further. exact Hin.
Qed.

Lemma prepare_read_loop_spec (fuel : nat) :
  ∀ (s : wl_state) (w : W) (out0 : list action) s' w' out,
  prepare_read_loop fuel s w out0 = Some (s', w', out) →
  ∃ acts, out = out0 ++ acts ∧
    Forall (λ a, from_prepare a || from_listener a = true) acts ∧
    callback_run (frame s) acts = Some (frame s') ∧
    (frame s = false → frame s' = false) ∧
    ((∀ x, xdg_toplevel_close ∉ (wl_display_dispatch_pending x).1) →
     close s' = close s).
Proof.
  induction fuel as [|fuel IH]; intros s w out0 s' w' out Hrun; [discriminate|].
  cbn [prepare_read_loop] in Hrun.
  destruct (wl_display_prepare_read w) as [[ret errno] w1].
  destruct (negb (ret =? 0) && (errno =? EAGAIN)).
  - destruct (wl_display_dispatch_pending w1) as [es w2] eqn:Hes.
    pose proof (dispatch_all_spec es s) as (Ha & Hb & Hc & Hd).
    destruct (dispatch_all es s) as [s1 acts1] eqn:Hdis. cbn [fst snd] in *.
    apply IH in Hrun as (acts & -> & Hall & Hrun & Hframe & Hclose).
    exists (WlDisplayPrepareRead :: WlDisplayDispatchPending :: acts1 ++ acts).
    split; [rewrite <- !app_assoc; reflexivity|]. split; [|split; [|split]].
    + repeat constructor. apply Forall_app. split; [|exact Hall].
      eapply Forall_impl; [exact Ha|]. cbn. intros a ->. apply orb_true_r.
    + cbn [callback_run]. rewrite callback_run_app, Hb. exact Hrun.
    + auto.
    + intros Hno. rewrite Hclose by exact Hno. apply Hd.
      specialize (Hno w1). rewrite Hes in Hno. exact Hno.
  - injection Hrun as <- <- <-. exists [WlDisplayPrepareRead].
    repeat split; auto.
Qed.

Lemma flush_loop_spec (fuel : nat) :
  ∀ (w : W) (out0 : list action) ret errno w' out,
  flush_loop fuel w out0 = Some (ret, errno, w', out) →
  ret ≤ 0 ∧ ∃ acts, out = out0 ++ acts ∧ Forall (λ a, a = WlDisplayFlush) acts.
Proof.
  induction fuel as [|fuel IH]; intros w out0 ret errno w' out Hrun; [discriminate|].
  cbn [flush_loop] in Hrun.
  destruct (wl_display_flush w) as [[r e] w1].
  destruct (Z.ltb_spec 0 r).
  - apply IH in Hrun as (Hret & acts & -> & Hall).
    split; [exact Hret|]. exists (WlDisplayFlush :: acts).
    split; [rewrite <- app_assoc; reflexivity|]. constructor; auto.
  - injection Hrun as <- <- <- <-. split; [lia|].
    exists [WlDisplayFlush]. split; [reflexivity|]. repeat constructor.
Qed.

Lemma length_store_revents (revs : list Z) (l : list pollfd) :
  length (store_revents revs l) = length l.
Proof.
  revert l. induction revs as [|r revs IH]; intros [|p l]; cbn; auto.
Qed.

Lemma length_after_flush (ret errno : Z) (l l' : list pollfd) :
  after_flush ret errno l = Some l' → length l' = length l.
Proof.
  unfold after_flush, arm_pollout, disarm_pollout.
  destruct (ret =? -1); [destruct (errno =? EAGAIN)|];
    intros [= <-]; destruct (l !! 0%nat); auto using length_insert.
Qed.

Lemma wait_spec (c : config) (v : main_vars) (w : W) o v' w' out :
  wait c v w = (o, v', w', out) →
  Forall (λ a, from_wait a = true) out ∧
  wl v' = wl v ∧ fences v' = fences v ∧ len v' = len v ∧ cap v' = cap v ∧
  frame_num v' = frame_num v ∧ length (fds v') = length (fds v) ∧
  (o = Continue ∨ o = Break).
Proof.
  unfold wait. destruct (poll _ _ w) as [[[ret errno] revs] w1].
  repeat match goal with |- context [if ?b then _ else _] => destruct b end;
    intros [= <- <- <- <-]; cbn; rewrite length_store_revents;
    repeat split; auto; repeat constructor.
Qed.

Lemma fence_timestamp_log (fd : Z) (w : W) :
  Forall (λ a, from_reap a = true) (fence_timestamp fd w).1.2.
Proof.
  unfold fence_timestamp.
  destruct (ioctl_sync_file_info fd _ w) as [[file1|] w1];
    [|repeat constructor].
  destruct (ioctl_sync_file_info fd _ w1) as [[file2|] w2]; repeat constructor.
Qed.

Lemma reap_loop_quiet (fuel : nat) :
  ∀ (i : nat) (v : main_vars) (w : W) (out0 : list action) v' w' out,
  reap_loop fuel i v w out0 = Some (v', w', out) →
  ∃ acts, out = out0 ++ acts ∧ Forall (λ a, from_reap a = true) acts ∧
    wl v' = wl v ∧ frame_num v' = frame_num v ∧ cap v' = cap v.
Proof.
  induction fuel as [|fuel IH]; intros i v w out0 v' w' out Hrun; [discriminate|].
  cbn [reap_loop] in Hrun. case_decide.
  - destruct (Z.land _ POLLIN =? 0).
    + apply IH in Hrun. exact Hrun.
    + pose proof (fence_timestamp_log
                    (fd (default uninit_pollfd (fds v !! i))) w) as Hlog.
      destruct (fence_timestamp _ w) as [[end_ns log] w1]. cbn [fst snd] in Hlog.
      apply IH in Hrun as (acts & -> & Hall & Hwl & Hnum & Hcap).
      destruct (remove_slot_fields i v) as (_ & _ & Hwl' & _ & Hcap' & Hnum').
      eexists. split; [rewrite <- !app_assoc; reflexivity|].
      split; [|split; [|split]]; try congruence.
      apply Forall_app. split; [exact Hlog|]. repeat constructor. exact Hall.
  - injection Hrun as <- <- <-. exists []. rewrite app_nil_r. auto.
Qed.

Lemma reap_loop_total (fuel : nat) :
  ∀ (i : nat) (v : main_vars) (w : W) (out0 : list action),
  (len v - i < fuel)%nat → is_Some (reap_loop fuel i v w out0).
Proof.
  induction fuel as [|fuel IH]; intros i v w out0 Hfuel; [lia|].
  cbn [reap_loop]. case_decide; [|eexists; reflexivity].
  destruct (Z.land _ POLLIN =? 0).
  - apply IH. lia.
  - destruct (fence_timestamp _ w) as [[end_ns log] w1].
    apply IH. destruct (remove_slot_fields i v) as (_ & _ & _ & -> & _). lia.
Qed.

Lemma read_and_reap_total (v : main_vars) (w : W) : is_Some (read_and_reap v w).
Proof.
  unfold read_and_reap, reap.
  destruct (wl_display_dispatch_pending w) as [es w1].
  destruct (dispatch_all es (wl v)) as [s acts].
  destruct (reap_loop_total (S (len (set_wl s v))) 1 (set_wl s v) w1 [])
    as [[[v' w'] out] ->]; [lia|]. eexists. reflexivity.
Qed.

Lemma read_and_reap_spec (v : main_vars) (w : W) v' w' out :
  read_and_reap v w = Some (v', w', out) →
  Forall (λ a, from_read a || from_listener a || from_reap a = true) out ∧
  callback_run (frame (wl v)) out = Some (frame (wl v')) ∧
  (frame (wl v) = false → frame (wl v') = false) ∧
  frame_num v' = frame_num v ∧ cap v' = cap v ∧
  ((∀ x, xdg_toplevel_close ∉ (wl_display_dispatch_pending x).1) →
   close (wl v') = close (wl v)).
Proof.
  unfold read_and_reap, reap. intros Hrun.
  destruct (wl_display_dispatch_pending w) as [es w1] eqn:Hes.
  pose proof (dispatch_all_spec es (wl v)) as (Ha & Hb & Hc & Hd).
  destruct (dispatch_all es (wl v)) as [s acts]. cbn [fst snd] in *.
  destruct (reap_loop _ 1 (set_wl s v) w1 []) as [[[v1 w2] out1]|] eqn:Hreap;
    [|discriminate].
  injection Hrun as <- <- <-.
  apply reap_loop_quiet in Hreap as (acts1 & -> & Hall & Hwl & Hnum & Hcap).
  cbn [app wl set_wl frame_num cap] in *. rewrite Hwl.
  split; [|split; [|split; [|split; [|split]]]]; auto.
  - repeat constructor. apply Forall_app. split.
    + eapply Forall_impl; [exact Ha|]. cbn. intros a ->.
      rewrite orb_true_r. reflexivity.
    + eapply Forall_impl; [exact Hall|]. cbn. intros a ->.
      rewrite orb_true_r. reflexivity.
  - cbn [callback_run]. rewrite callback_run_app, Hb.
    apply callback_run_quiet. eapply Forall_impl; [exact Hall|].
    cbn. intros [] Ha'; try discriminate; split; congruence.
  - intros Hno. apply Hd. specialize (Hno w). rewrite Hes in Hno. exact Hno.
Qed.

Lemma track_fields (start : Z) (v : main_vars) (w : W) b v' w' :
  track start v w = (b, v', w') →
  wl v' = wl v ∧ frame_num v' = frame_num v.
Proof.
  unfold track, grow. case_decide.
  - destruct (realloc _ w) as [g1 w1]. destruct (realloc _ w1) as [g2 w2].
    destruct (g1 && g2).
    + destruct (egl_dup_fence w2) as [fence_fd w3]. intros [= <- <- <-]. auto.
    + intros [= <- <- <-]. auto.
  - destruct (egl_dup_fence w) as [fence_fd w3]. intros [= <- <- <-]. auto.
Qed.

Lemma draw_actions (c : config) (v : main_vars) (w : W) :
  Forall (λ a, from_draw a = true) (draw c v w).2 ∧
  drawn (draw c v w).2 = [frame_num v] ∧
  (unsynchronized c = true →
   Forall (λ a, a ≠ WlSurfaceFrame ∧ a ≠ WlCallbackDestroy) (draw c v w).2) ∧
  (unsynchronized c = false →
   callback_run false (draw c v w).2 = Some true).
Proof.
  destruct (draw_spec c v w) as (s & start & w1 & -> & _). cbn [snd].
  assert (Hres : Forall (λ a, from_draw a = true ∧ a ≠ WlSurfaceFrame ∧
                              a ≠ WlCallbackDestroy ∧
                              ∀ f x y, a ≠ GlDrawArrays f x y)
                   (resize_window c (wl v)).2).
  { destruct (Z.eq_dec (serial (wl v)) 0) as [Hz|Hz].
    - rewrite resize_window_idle by exact Hz. constructor.
    - rewrite resize_window_pending by exact Hz.
      repeat constructor; congruence. }
  split; [|split; [|split]].
  - apply Forall_app. split; [destruct (unsynchronized c); repeat constructor|].
    apply Forall_app. split; [|repeat constructor].
    eapply Forall_impl; [exact Hres|]. cbn. tauto.
  - rewrite !drawn_app, (drawn_quiet (resize_window c (wl v)).2).
    + destruct (unsynchronized c); reflexivity.
    + eapply Forall_impl; [exact Hres|]. cbn. tauto.
  - intros ->. cbn [app]. apply Forall_app. split.
    + eapply Forall_impl; [exact Hres|]. cbn. tauto.
    + repeat constructor; congruence.
  - intros ->. cbn [app callback_run]. rewrite callback_run_app.
    rewrite callback_run_quiet; [reflexivity|].
    eapply Forall_impl; [exact Hres|]. cbn. tauto.
Qed.

Lemma render_spec (c : config) (v : main_vars) (w : W) o v' w' out :
  render c v w = (o, v', w', out) →
  let gate := unsynchronized c || negb (frame (wl v)) in
  Forall (λ a, from_draw a = true) out ∧
  callback_run (frame (wl v)) out = Some (frame (wl v')) ∧
  drawn out = (if gate then [frame_num v] else []) ∧
  (unsynchronized c = true →
   Forall (λ a, a ≠ WlSurfaceFrame) out ∧ frame (wl v') = frame (wl v)) ∧
  (o = Continue ∧ frame_num v' = frame_num v + (if gate then 1 else 0) ∨
   o = Return 1 ∧ gate = true ∧ egl_has_fences c = true) ∧
  close (wl v') = close (wl v).
Proof.
  intros Hrun gate. unfold render in Hrun. fold gate in Hrun.
  destruct gate eqn:Hgate.
  2: { injection Hrun as <- <- <- <-.
       destruct (unsynchronized c); [discriminate|].
       repeat split; auto; try discriminate. left. split; [reflexivity|lia]. }
  unfold submit in Hrun.
  destruct (draw_actions c v w) as (Hall & Hdrawn & Hun & Hsync).
  destruct (draw_spec c v w) as (s & start & w1 & Hdraw & Hclose & _ & Hframe & _).
  rewrite Hdraw in Hrun, Hall, Hdrawn, Hun, Hsync. cbn [snd] in *.
  set (acts := (if unsynchronized c then [] else [WlSurfaceFrame]) ++ _) in *.
  assert (Hcb : callback_run (frame (wl v)) acts = Some (frame s)).
  { rewrite Hframe. destruct (unsynchronized c) eqn:Hu.
    - apply callback_run_quiet. apply Hun. reflexivity.
    - cbn in Hgate. destruct (frame (wl v)); [discriminate|].
      apply Hsync. reflexivity. }
  assert (Hno : unsynchronized c = true →
                Forall (λ a, a ≠ WlSurfaceFrame) acts ∧ frame s = frame (wl v)).
  { intros Hu. split; [|rewrite Hframe, Hu; reflexivity].
    eapply Forall_impl; [exact (Hun Hu)|]. cbn. tauto. }
  destruct (egl_has_fences c).
  - destruct (track start (set_wl s v) w1) as [[[] v2] w2] eqn:Htrack;
      apply track_fields in Htrack as [Hwl Hnum]; cbn in Hwl, Hnum;
      injection Hrun as <- <- <- <-; cbn; rewrite ?Hwl, ?Hnum;
      repeat split; auto; try apply Hno; auto.
  - injection Hrun as <- <- <- <-. cbn.
    repeat split; auto; try apply Hno; auto.
Qed.

(** One turn of the loop, whatever its outcome. *)
Lemma iteration_spec (inner : nat) (c : config) (v : main_vars) (w : W)
    o v' w' out :
  iteration inner c v w = Some (o, v', w', out) →
  let gate := unsynchronized c || negb (frame (wl v)) in
  callback_run (frame (wl v)) out = Some (frame (wl v')) ∧
  drawn out = (if gate then [frame_num v] else []) ∧
  (unsynchronized c = true →
   Forall (λ a, a ≠ WlSurfaceFrame) out ∧
   (frame (wl v) = false → frame (wl v') = false)) ∧
  ((o = Continue ∨ o = Break) ∧
   frame_num v' = frame_num v + (if gate then 1 else 0) ∨
   o = Return 1 ∧ gate = true ∧ egl_has_fences c = true) ∧
  ((∀ x, xdg_toplevel_close ∉ (wl_display_dispatch_pending x).1) →
   close (wl v') = close (wl v)).
Proof.
  intros Hrun gate. unfold iteration in Hrun.
  destruct (render c v w) as [[[o1 v1] w1] out1] eqn:Hrender.
  apply render_spec in Hrender as (Hd1 & Hcb1 & Hdr1 & Hun1 & Ho1 & Hcl1).
  fold gate in Hdr1, Ho1.
  destruct Ho1 as [[-> Hnum1]|(-> & Hg & Hf)].
  2: { injection Hrun as <- <- <- <-. repeat split; auto.
       - apply Hun1. assumption.
       - intros Hfr. destruct (Hun1 ltac:(assumption)) as [_ ->]. exact Hfr. }
  destruct (prepare_read_loop inner (wl v1) w1 []) as [[[s2 w2] out2]|] eqn:Hprep;
    [|discriminate].
  apply prepare_read_loop_spec in Hprep as (? & -> & Ht2 & Hcb2 & Hfr2 & Hcl2).
  cbn [app] in *.
  destruct (flush_loop inner w2 []) as [[[[ret errno] w3] out3]|] eqn:Hflush;
    [|discriminate].
  apply flush_loop_spec in Hflush as (_ & ? & -> & Ht3). cbn [app] in *.
  assert (Hq2 : Forall (λ a, a ≠ WlSurfaceFrame ∧
                             ∀ f x y, a ≠ GlDrawArrays f x y) x) by quiet Ht2.
  assert (Hq3 : Forall (λ a, a ≠ WlSurfaceFrame ∧ a ≠ WlCallbackDestroy ∧
                             ∀ f x y, a ≠ GlDrawArrays f x y) x0) by quiet Ht3.
  assert (Hcb3 : callback_run (frame (wl v)) (out1 ++ x ++ x0) = Some (frame s2)).
  { eapply callback_run_seq; [exact Hcb1|].
    eapply callback_run_seq; [exact Hcb2|]. apply callback_run_quiet.
    eapply Forall_impl; [exact Hq3|]. cbn. tauto. }
  assert (Hdr3 : drawn (out1 ++ x ++ x0) = if gate then [frame_num v] else []).
  { rewrite !drawn_app, Hdr1, (drawn_quiet x), (drawn_quiet x0), !app_nil_r;
      [reflexivity| |]; (eapply Forall_impl; [eassumption|]; cbn; tauto). }
  assert (Hno3 : unsynchronized c = true →
                 Forall (λ a, a ≠ WlSurfaceFrame) (out1 ++ x ++ x0)).
  { intros Hu. rewrite !Forall_app. split; [apply Hun1; exact Hu|]. split.
    - eapply Forall_impl; [exact Hq2|]. cbn. tauto.
    - eapply Forall_impl; [exact Hq3|]. cbn. tauto. }
  assert (Hfr3 : unsynchronized c = true → frame (wl v) = false → frame s2 = false).
  { intros Hu Hfr. apply Hfr2. destruct (Hun1 Hu) as [_ ->]. exact Hfr. }
  destruct (after_flush ret errno (fds (set_wl s2 v1))) as [l|].
  2: { injection Hrun as <- <- <- <-. cbn [wl set_wl frame_num].
       split; [|split; [|split; [|split]]].
       - eapply callback_run_seq; [exact Hcb3|]. reflexivity.
       - rewrite drawn_app, Hdr3, app_nil_r. reflexivity.
       - intros Hu. split; [|auto]. apply Forall_app. split; [auto|].
         repeat constructor. discriminate.
       - left. auto.
       - intros Hno. rewrite Hcl2, Hcl1; auto. }
  destruct (wait c (set_fds l (set_wl s2 v1)) w3) as [[[o4 v4] w4] out4] eqn:Hwait.
  apply wait_spec in Hwait as (Ht4 & Hwl4 & _ & _ & _ & Hnum4 & _ & Ho4).
  cbn [wl set_wl set_fds frame_num] in Hwl4, Hnum4.
  assert (Hq4 : Forall (λ a, a ≠ WlSurfaceFrame ∧ a ≠ WlCallbackDestroy ∧
                             ∀ f x y, a ≠ GlDrawArrays f x y) out4) by quiet Ht4.
  assert (Hcb4 : callback_run (frame s2) out4 = Some (frame s2)).
  { apply callback_run_quiet. eapply Forall_impl; [exact Hq4|]. cbn. tauto. }
  assert (Hdr4 : drawn out4 = []).
  { apply drawn_quiet. eapply Forall_impl; [exact Hq4|]. cbn. tauto. }
  assert (Hno4 : Forall (λ a, a ≠ WlSurfaceFrame) out4).
  { eapply Forall_impl; [exact Hq4|]. cbn. tauto. }
  unfold after_wait in Hrun. destruct Ho4 as [-> | ->].
  - destruct (read_and_reap v4 w4) as [[[v5 w5] out5]|] eqn:Hreap; [|discriminate].
    apply read_and_reap_spec in Hreap as (Ht5 & Hcb5 & Hfr5 & Hnum5 & _ & Hcl5).
    injection Hrun as <- <- <- <-.
    assert (Hq5 : Forall (λ a, a ≠ WlSurfaceFrame ∧
                               ∀ f x y, a ≠ GlDrawArrays f x y) out5)
      by quiet Ht5.
    rewrite Hwl4 in Hcb5, Hfr5, Hcl5.
    split; [|split; [|split; [|split]]].
    + eapply callback_run_seq; [exact Hcb3|].
      eapply callback_run_seq; [exact Hcb4|]. exact Hcb5.
    + rewrite drawn_app, Hdr3, drawn_app, Hdr4, (drawn_quiet out5), !app_nil_r;
        [reflexivity|]. eapply Forall_impl; [exact Hq5|]. cbn. tauto.
    + intros Hu. split; [|auto]. apply Forall_app. split; [auto|].
      apply Forall_app.
      split; [exact Hno4|]. eapply Forall_impl; [exact Hq5|]. cbn. tauto.
    + left. split; [auto|]. lia.
    + intros Hno. rewrite Hcl5, Hcl2, Hcl1; auto.
  - injection Hrun as <- <- <- <-. rewrite Hwl4.
    split; [|split; [|split; [|split]]].
    + eapply callback_run_seq; [exact Hcb3|]. exact Hcb4.
    + rewrite drawn_app, Hdr3, Hdr4, app_nil_r. reflexivity.
    + intros Hu. split; [|auto]. apply Forall_app. auto.
    + left. split; [auto|]. lia.
    + intros Hno. rewrite Hcl2, Hcl1; auto.
Qed.

End Blocks.

(** ** The two retries inside a turn *)

Section Retries.
Context {W : Type} `{Platform W}.

Lemma calls_listener (a : action) (l : list action) :
  from_listener a = false →
  Forall (λ x, from_listener x = true) l → calls a l = 0%nat.
Proof.
  intros Ha Hl. apply calls_quiet. eapply Forall_impl; [exact Hl|].
  cbn. intros x Hx ->. congruence.
Qed.



End Retries.

(** ** Frame numbers in the tracker and in the report *)

Section Frames.
Context {W : Type} `{Platform W}.

Lemma tracked_entries (v : main_vars) :
  tracker_ok v →
  tracked v = map (λ e, Fence.frame_num e.2) (drop 1 (entries v)).
Proof.
  intros (Hp & Hf & Hone & Hle). unfold tracked, entries.
  rewrite <- (snd_zip (live_fds v) (live_fences v)) at 1.
  - change (map Fence.frame_num (drop 1 (map snd (zip (live_fds v) (live_fences v))))
            = map (λ e, Fence.frame_num e.2) (drop 1 (zip (live_fds v) (live_fences v)))).
    rewrite <- (fmap_drop snd). symmetry. apply (list_fmap_compose snd Fence.frame_num).
  - unfold live_fds, live_fences. rewrite !length_take. lia.
Qed.








(** An invariant of the turns holds wherever the loop gets. *)
Lemma loop_steps_invariant (c : config) (I : main_vars → list action → Prop) :
  (∀ inner v w out v1 w1 acts,
     I v out → close (wl v) = false → frame_num v < max_frames c →
     iteration inner c v w = Some (Continue, v1, w1, acts) →
     I v1 (out ++ acts)) →
  ∀ v w out v' w' out',
    I v out → loop_steps c (v, w, out) (v', w', out') → I v' out'.
Proof.
  intros Hstep v w out v' w' out' Hinit Hsteps.
  remember (v, w, out) as x eqn:Hx. remember (v', w', out') as y eqn:Hy.
  revert v w out Hx Hinit. induction Hsteps as [x|inner v0 w0 out0 v1 w1 acts x Hc Hn Hit Hsteps IH];
    intros v w out Hx Hinit.
  - subst x. injection Hx as <- <- <-. exact Hinit.
  - injection Hx as <- <- <-. eapply IH; [exact Hy|reflexivity|].
    eapply Hstep; eassumption.
Qed.



(** The frame counter stays between 0 and the frame limit, so that
    [++frame_num] never leaves the range of [int]. *)
Lemma frame_num_in_range (c : config) (display_fd : Z) (s : wl_state) (w : W)
    (v' : main_vars) (w' : W) (out' : list action) :
  max_frames c ≤ INT_MAX →
  loop_steps c (init_vars display_fd s, w, []) (v', w', out') →
  0 ≤ frame_num v' ≤ Z.max 0 (max_frames c) ∧ frame_num v' ≤ INT_MAX.
Proof.
  intros Hmax Hsteps.
  assert (Hinv : 0 ≤ frame_num v' ≤ Z.max 0 (max_frames c)).
  { apply (loop_steps_invariant c
             (λ v _, 0 ≤ frame_num v ≤ Z.max 0 (max_frames c)))
      with (v := init_vars display_fd s) (w := w) (out := []) (w' := w')
           (out' := out'); [|cbn; lia|exact Hsteps].
    intros inner v0 w0 out0 v1 w1 acts Hinv _ Hlt Hrun.
    apply iteration_spec in Hrun as (_ & _ & _ & Hnum & _).
    destruct Hnum as [[_ ->]|[[=] _]].
    destruct (unsynchronized c || negb (frame (wl v0))); lia. }
  unfold INT_MAX in *. lia.
Qed.

End Frames.

(** ** Frame callbacks *)

Section Callbacks.
Context {W : Type} `{Platform W}.

Lemma loop_steps_callbacks (c : config) (v : main_vars) (w : W)
    (out : list action) v' w' out' :
  callback_run false out = Some (frame (wl v)) →
  loop_steps c (v, w, out) (v', w', out') →
  callback_run false out' = Some (frame (wl v')).
Proof.
  apply (loop_steps_invariant c
           (λ v out, callback_run false out = Some (frame (wl v)))).
  intros inner v0 w0 out0 v1 w1 acts Hinv _ _ Hrun.
  apply iteration_spec in Hrun as (Hcb & _).
  eapply callback_run_seq; eassumption.
Qed.

(** C5.  In synchronized mode: with a callback outstanding the render
    block does nothing; without one it submits, requesting exactly one
    callback and filling the slot; a listener clears the slot exactly
    when the event is the callback's [done]; and from a start with no
    callback, after every prefix of the trace of the loop, through any
    further turn, the callbacks requested and not yet destroyed number 0
    or 1, and 1 exactly when the slot is filled. *)
Theorem at_most_one_frame_callback (c : config) (v : main_vars) (w : W)
    (v' : main_vars) (w' : W) (out' : list action) :
  unsynchronized c = false →
  (frame (wl v) = true → render c v w = (Continue, v, w, [])) ∧
  (frame (wl v) = false →
   render c v w = submit c v w ∧
   calls WlSurfaceFrame (draw c v w).2 = 1%nat ∧
   frame (wl (draw c v w).1.1.1) = true) ∧
  (∀ e s, frame (dispatch e s).1 = false ↔
          frame s = false ∨ ∃ time, e = wl_callback_done time) ∧
  (frame (wl v) = false →
   loop_steps c (v, w, []) (v', w', out') →
   outstanding out' = (if frame (wl v') then 1 else 0) ∧
   (∀ pre post, out' = pre ++ post → 0 ≤ outstanding pre ≤ 1) ∧
   ∀ inner o v'' w'' acts,
     iteration inner c v' w' = Some (o, v'', w'', acts) →
     outstanding (out' ++ acts) = (if frame (wl v'') then 1 else 0) ∧
     ∀ pre post, out' ++ acts = pre ++ post → 0 ≤ outstanding pre ≤ 1).
Proof.
  intros Hsync. split; [|split; [|split]].
  - intros Hf. unfold render. rewrite Hsync, Hf. reflexivity.
  - intros Hf. split; [unfold render; rewrite Hsync, Hf; reflexivity|].
    destruct (draw_spec c v w) as (s & start & w1 & -> & _ & _ & Hframe & _).
    rewrite Hsync in *. cbn [fst snd wl set_wl]. split; [|exact Hframe].
    rewrite !calls_app, (calls_quiet _ (resize_window c (wl v)).2).
    + reflexivity.
    + destruct (Z.eq_dec (serial (wl v)) 0) as [Hz|Hz].
      * rewrite resize_window_idle by exact Hz. constructor.
      * rewrite resize_window_pending by exact Hz. repeat constructor; discriminate.
  - intros e s. apply dispatch_spec.
  - intros Hf Hsteps.
    assert (Hrun : callback_run false out' = Some (frame (wl v'))).
    { eapply loop_steps_callbacks; [|exact Hsteps]. cbn. rewrite Hf. reflexivity. }
    split; [|split].
    + destruct (callback_run_outstanding _ _ out' out' [] Hrun) as [Hc _];
        [rewrite app_nil_r; reflexivity|]. lia.
    + intros pre post Hsplit.
      destruct (callback_run_outstanding _ _ out' pre post Hrun Hsplit) as [_ Hp].
      lia.
    + intros inner o v'' w'' acts Hit.
      apply iteration_spec in Hit as (Hcb & _).
      pose proof (callback_run_seq _ _ _ _ _ Hrun Hcb) as Hrun'.
      split.
      * destruct (callback_run_outstanding _ _ (out' ++ acts) (out' ++ acts) []
                    Hrun') as [Hc _]; [rewrite app_nil_r; reflexivity|]. lia.
      * intros pre post Hsplit.
        destruct (callback_run_outstanding _ _ _ pre post Hrun' Hsplit) as [_ Hp].
        lia.
Qed.


End Callbacks.

(** ** How a turn can end *)

Section Termination.
Context {W : Type} `{Platform W}.



Lemma drawn_teardown (v : main_vars) : drawn (teardown v) = [].
Proof.
  unfold teardown. rewrite !drawn_app.
  replace (drawn (if frame (wl v) then [WlCallbackDestroy] else [])) with (@nil Z)
    by (destruct (frame (wl v)); reflexivity).
  rewrite (drawn_quiet (map _ _)); [reflexivity|].
  apply Forall_forall. intros a Ha f x y ->.
  apply list_elem_of_In, in_map_iff in Ha as (p & [=] & _).
Qed.

End Termination.

(** ** Looking up an extension name *)

Lemma strchr_spec (c : ascii) (s : list ascii) :
  match strchr s c with
  | Some k => ∃ t post, s = t ++ c :: post ∧ (c ∉ t) ∧ length t = k
  | None => c ∉ s
  end.
Proof.
  induction s as [|x s IH]; cbn [strchr]; [apply not_elem_of_nil|].
  case_decide as Hx.
  - subst x. exists [], s. split; [reflexivity|]. split; [apply not_elem_of_nil|reflexivity].
  - destruct (strchr s c) as [k|]; cbn.
    + destruct IH as (t & post & -> & Hc & <-). exists (x :: t), post.
      split; [reflexivity|]. split; [|reflexivity].
      rewrite not_elem_of_cons. auto.
    + rewrite not_elem_of_cons. auto.
Qed.

Lemma nat_of_ascii_zero (x : ascii) : nat_of_ascii x = 0%nat → x = NUL.
Proof.
  intros Hx. rewrite <- (ascii_nat_embedding x), Hx. reflexivity.
Qed.

(** Against a piece free of NUL, [strncmp] over the length of the piece
    is the test for an initial part. *)
Lemma strncmp_prefix (t rest ext : list ascii) :
  NUL ∉ t → strncmp (t ++ rest) ext (length t) = 0 ↔ t `prefix_of` ext.
Proof.
  revert ext. induction t as [|x t IH]; intros ext Hnul.
  - cbn [app length strncmp]. split; [intros _; apply prefix_nil|reflexivity].
  - apply not_elem_of_cons in Hnul as [Hx Ht]. cbn [app length strncmp].
    destruct ext as [|y ext].
    + split.
      * intros H0. exfalso. apply Hx. symmetry. apply nat_of_ascii_zero. lia.
      * intros Hp. apply prefix_nil_inv in Hp. discriminate.
    + case_decide as Hxy.
      * subst y. rewrite IH by exact Ht. split.
        -- apply prefix_cons.
        -- apply prefix_cons_inv_2.
      * split.
        -- intros H0. exfalso. apply Hxy.
           rewrite <- (ascii_nat_embedding x), <- (ascii_nat_embedding y).
           f_equal. lia.
        -- intros Hp. apply prefix_cons_inv_1 in Hp. contradiction.
Qed.

(** Where a string is cut at the first occurrence of a character. *)
Lemma first_cut (c : ascii) (t0 rest a b : list ascii) :
  c ∉ t0 → a ++ c :: b = t0 ++ c :: rest →
  a = t0 ∧ b = rest ∨ ∃ a', a = t0 ++ c :: a' ∧ rest = a' ++ c :: b.
Proof.
  revert a. induction t0 as [|x t0 IH]; intros a Hc Heq.
  - destruct a as [|y a]; cbn in Heq.
    + injection Heq as <-. left. auto.
    + injection Heq as -> <-. right. exists a. auto.
  - apply not_elem_of_cons in Hc as [Hx Hc].
    destruct a as [|y a]; cbn in Heq.
    + injection Heq as -> _. contradiction.
    + injection Heq as -> Heq. destruct (IH a Hc Heq) as [[-> ->]|(a' & -> & ->)].
      * left. auto.
      * right. exists a'. auto.
Qed.

Lemma last_snoc_space (l : list ascii) :
  last l = Some " "%char → ∃ l', l = l' ++ [" "%char].
Proof.
  intros Hl. destruct (last_Some l " "%char) as [H1 _]. exact (H1 Hl).
Qed.

Lemma has_ext_loop_cons (fuel : nat) (x : ascii) (s ext : list ascii) :
  has_ext_loop (S fuel) (x :: s) ext
  = let exts := x :: s in
    let end_ := strchr exts " "%char in
    let len := match end_ with Some k => k | None => strlen exts end in
    if strncmp exts ext len =? 0 then Some true
    else
      let skip := match end_ with Some _ => 1%nat | None => 0%nat end in
      has_ext_loop fuel (drop (len + skip) exts) ext.
Proof. reflexivity. Qed.

(** The loop, given turns enough, returns, and it returns [true] exactly
    when some piece of the list is an initial part of the name. *)
Lemma has_ext_loop_listed (ext : list ascii) (fuel : nat) :
  ∀ exts : list ascii,
    (length exts < fuel)%nat → NUL ∉ exts →
    ∃ b, has_ext_loop fuel exts ext = Some b ∧ (b = true ↔ listed_prefix exts ext).
Proof.
  induction fuel as [|fuel IH]; intros exts Hfuel Hnul; [lia|].
  destruct exts as [|x s].
  { exists false. split; [reflexivity|]. split; [discriminate|].
    intros (pre & t & post & Heq & (_ & _ & Hpost) & _).
    symmetry in Heq. apply app_eq_nil in Heq as [_ Heq].
    apply app_eq_nil in Heq as [-> ->]. destruct Hpost as [[_ ?]|?]; [congruence|discriminate]. }
  rewrite has_ext_loop_cons. remember (x :: s) as exts eqn:Hexts. cbv zeta.
  pose proof (strchr_spec " "%char exts) as Hchr.
  destruct (strchr exts " "%char) as [k|].
  - destruct Hchr as (t0 & rest & Heq & Ht0 & Hk). subst k.
    assert (Hnul0 : NUL ∉ t0).
    { intros Hin. apply Hnul. rewrite Heq. apply elem_of_app. auto. }
    pose proof (strncmp_prefix t0 (" "%char :: rest) ext Hnul0) as Hcmp.
    rewrite <- Heq in Hcmp.
    destruct (Z.eqb_spec (strncmp exts ext (length t0)) 0) as [H0|H0].
    + exists true. split; [reflexivity|]. split; [|reflexivity]. intros _.
      exists [], t0, (" "%char :: rest). split; [exact Heq|].
      split; [|apply Hcmp, H0]. split; [auto|]. split; [exact Ht0|]. right. reflexivity.
    + assert (Hdrop : drop (length t0 + 1) exts = rest).
      { rewrite Heq. replace (length t0 + 1)%nat with (length (t0 ++ [" "%char]))
          by (rewrite length_app; reflexivity).
        rewrite (cons_middle _ t0 rest), app_assoc. apply drop_app_length. }
      rewrite Hdrop.
      destruct (IH rest) as (b & -> & Hb).
      { rewrite Heq, length_app in Hfuel. cbn in Hfuel. lia. }
      { intros Hin. apply Hnul. rewrite Heq. apply elem_of_app. right.
        apply elem_of_cons. auto. }
      exists b. split; [reflexivity|]. rewrite Hb. split.
      * intros (pre & t & post & -> & (Hpre & Ht & Hpost) & Hp).
        exists (t0 ++ " "%char :: pre), t, post.
        split; [rewrite Heq, <- app_assoc; reflexivity|].
        split; [|exact Hp]. split; [|auto]. right.
        destruct Hpre as [->|Hpre].
        -- rewrite (cons_middle _ t0 []), app_nil_r. apply last_snoc.
        -- apply last_snoc_space in Hpre as [pre' ->].
           rewrite (cons_middle _ t0), !app_assoc. apply last_snoc.
      * intros (pre & t & post & Heq' & (Hpre & Ht & Hpost) & Hp).
        rewrite Heq in Heq'. destruct Hpre as [->|Hpre].
        -- exfalso. cbn [app] in Heq'. destruct Hpost as [[-> _]|Hpost].
           ++ rewrite app_nil_r in Heq'. apply Ht. rewrite <- Heq'.
              apply elem_of_app. right. apply elem_of_cons. auto.
           ++ destruct post as [|y post']; [discriminate|]. injection Hpost as ->.
              symmetry in Heq'.
              destruct (first_cut _ _ _ _ _ Ht0 Heq') as [[-> _]|(a' & -> & _)].
              ** apply H0, Hcmp, Hp.
              ** apply Ht. apply elem_of_app. right. apply elem_of_cons. auto.
        -- apply last_snoc_space in Hpre as [pre' ->].
           rewrite <- app_assoc in Heq'. cbn [app] in Heq'. symmetry in Heq'.
           destruct (first_cut _ _ _ _ _ Ht0 Heq') as [[-> <-]|(a' & -> & ->)].
           ++ exists [], t, post. split; [reflexivity|]. split; [|exact Hp].
              split; auto.
           ++ exists (a' ++ [" "%char]), t, post.
              split; [rewrite <- app_assoc; reflexivity|]. split; [|exact Hp].
              split; [right; apply last_snoc|auto].
  - assert (Hnul0 : NUL ∉ exts) by exact Hnul.
    pose proof (strncmp_prefix exts [] ext Hnul0) as Hcmp.
    rewrite app_nil_r in Hcmp. unfold strlen.
    destruct (Z.eqb_spec (strncmp exts ext (length exts)) 0) as [H0|H0].
    + exists true. split; [reflexivity|]. split; [|reflexivity]. intros _.
      exists [], exts, []. split; [rewrite app_nil_r; reflexivity|].
      split; [|apply Hcmp, H0]. split; [auto|]. split; [exact Hchr|].
      left. split; [reflexivity|]. rewrite Hexts. discriminate.
    + rewrite Nat.add_0_r, drop_all.
      destruct fuel as [|fuel]; [rewrite Hexts in Hfuel; cbn in Hfuel; lia|].
      exists false. split; [reflexivity|]. split; [discriminate|].
      intros (pre & t & post & Heq' & (Hpre & Ht & Hpost) & Hp). exfalso.
      assert (pre = []) as ->.
      { destruct Hpre as [->|Hpre]; [reflexivity|].
        apply last_snoc_space in Hpre as [pre' ->]. exfalso. apply Hchr.
        rewrite Heq'. apply elem_of_app. left. apply elem_of_app. right.
        apply list_elem_of_here. }
      assert (post = []) as ->.
      { destruct Hpost as [[-> _]|Hpost]; [reflexivity|].
        destruct post as [|y post']; [discriminate|]. injection Hpost as ->.
        exfalso. apply Hchr. rewrite Heq'. apply elem_of_app. right.
        apply elem_of_app. right. apply list_elem_of_here. }
      cbn [app] in Heq'. rewrite app_nil_r in Heq'. subst t.
      apply H0, Hcmp, Hp.
Qed.

(** X1.  On a list string free of NUL, [has_ext] returns, and it returns
    [true] exactly when one of the pieces the spaces cut the list into
    (an empty piece at the very end aside) is an initial part of the name
    asked for: the comparison runs over the length of the piece, not of
    the name. *)
Theorem has_ext_matches_initial_parts (exts ext : list ascii) :
  NUL ∉ exts →
  ∃ b, has_ext exts ext = Some b ∧ (b = true ↔ listed_prefix exts ext).
Proof.
  intros Hnul. apply has_ext_loop_listed; [lia|exact Hnul].
Qed.

(** X2.  A name without spaces that stands in the list as a whole piece,
    at the start or after a space and up to the end or a space, is
    found. *)
Theorem has_ext_finds_listed (pre ext post : list ascii) :
  NUL ∉ pre ++ ext ++ post →
  ext ≠ [] → " "%char ∉ ext →
  pre = [] ∨ last pre = Some " "%char →
  post = [] ∨ head post = Some " "%char →
  has_ext (pre ++ ext ++ post) ext = Some true.
Proof.
  intros Hnul Hne Hsp Hpre Hpost.
  destruct (has_ext_loop_listed ext (S (length (pre ++ ext ++ post)))
              (pre ++ ext ++ post)) as (b & Hrun & Hb); [lia|exact Hnul|].
  unfold has_ext. rewrite Hrun. f_equal. apply Hb.
  exists pre, ext, post. split; [reflexivity|]. split; [|reflexivity].
  split; [exact Hpre|]. split; [exact Hsp|]. destruct Hpost; auto.
Qed.

(** X3.  A list that starts with a space, or in which two spaces follow
    each other, has an empty piece, and [has_ext] then reports every
    name as present. *)
Theorem has_ext_empty_piece_matches_all (pre post ext : list ascii) :
  NUL ∉ pre ++ " "%char :: post →
  pre = [] ∨ last pre = Some " "%char →
  has_ext (pre ++ " "%char :: post) ext = Some true.
Proof.
  intros Hnul Hpre.
  destruct (has_ext_loop_listed ext (S (length (pre ++ " "%char :: post)))
              (pre ++ " "%char :: post)) as (b & Hrun & Hb); [lia|exact Hnul|].
  unfold has_ext. rewrite Hrun. f_equal. apply Hb.
  exists pre, [], (" "%char :: post). split; [reflexivity|].
  split; [|apply prefix_nil].
  split; [exact Hpre|]. split; [apply not_elem_of_nil|]. right. reflexivity.
Qed.

(** ** The turn of the loop, block by block *)

Section Turn.
Context {W : Type} `{Platform W}.

(** The ways through one turn. *)
Lemma iteration_cases (inner : nat) (c : config) (v : main_vars) (w : W)
    o v' w' out :
  iteration inner c v w = Some (o, v', w', out) →
  ∃ o1 v1 w1 out1,
    render c v w = (o1, v1, w1, out1) ∧
    (o1 = Return 1 ∧ o = Return 1 ∧ v' = v1 ∧ w' = w1 ∧ out = out1 ∨
     o1 = Continue ∧
     ∃ s2 w2 out2 ret errno w3 out3,
       prepare_read_loop inner (wl v1) w1 [] = Some (s2, w2, out2) ∧
       flush_loop inner w2 [] = Some (ret, errno, w3, out3) ∧
       (after_flush ret errno (fds v1) = None ∧ o = Break ∧
        v' = set_wl s2 v1 ∧ w' = w3 ∧
        out = (out1 ++ out2 ++ out3) ++ [WlDisplayCancelRead] ∨
        ∃ l o4 v4 w4 out4,
          after_flush ret errno (fds v1) = Some l ∧
          wait c (set_fds l (set_wl s2 v1)) w3 = (o4, v4, w4, out4) ∧
          (o4 = Break ∧ o = Break ∧ v' = v4 ∧ w' = w4 ∧
           out = (out1 ++ out2 ++ out3) ++ out4 ∨
           o4 = Continue ∧ o = Continue ∧
           ∃ out5, read_and_reap v4 w4 = Some (v', w', out5) ∧
                   out = (out1 ++ out2 ++ out3) ++ out4 ++ out5))).
Proof.
  intros Hrun. unfold iteration in Hrun.
  destruct (render c v w) as [[[o1 v1] w1] out1] eqn:Hrender.
  exists o1, v1, w1, out1. split; [reflexivity|].
  pose proof (render_spec _ _ _ _ _ _ _ Hrender) as (_ & _ & _ & _ & Ho1 & _).
  destruct Ho1 as [[-> _]|(-> & _)].
  2: { injection Hrun as <- <- <- <-. left. auto. }
  right. split; [reflexivity|].
  destruct (prepare_read_loop inner (wl v1) w1 []) as [[[s2 w2] out2]|] eqn:Hprep;
    [|discriminate].
  destruct (flush_loop inner w2 []) as [[[[ret errno] w3] out3]|] eqn:Hflush;
    [|discriminate].
  exists s2, w2, out2, ret, errno, w3, out3. split; [reflexivity|].
  split; [exact Hflush|]. cbn [fds set_wl] in Hrun.
  destruct (after_flush ret errno (fds v1)) as [l|] eqn:Hafter.
  2: { injection Hrun as <- <- <- <-. left. auto. }
  right.
  destruct (wait c (set_fds l (set_wl s2 v1)) w3) as [[[o4 v4] w4] out4] eqn:Hwait.
  exists l, o4, v4, w4, out4. split; [reflexivity|]. split; [exact Hwait|].
  pose proof (wait_spec _ _ _ _ _ _ _ Hwait) as (_ & _ & _ & _ & _ & _ & _ & Ho4).
  unfold after_wait in Hrun. destruct Ho4 as [-> | ->].
  - right. destruct (read_and_reap v4 w4) as [[[v5 w5] out5]|] eqn:Hreap;
      [|discriminate].
    injection Hrun as <- <- <- <-. split; [reflexivity|]. split; [reflexivity|].
    exists out5. split; reflexivity.
  - left. injection Hrun as <- <- <- <-. auto.
Qed.

Lemma closed_app (l k : list action) : closed (l ++ k) = closed l ++ closed k.
Proof.
  induction l as [|a l IH]; [reflexivity|].
  destruct a; cbn; rewrite IH; reflexivity.
Qed.

Lemma closed_quiet (l : list action) :
  Forall (λ a, ∀ d, a ≠ Close d) l → closed l = [].
Proof.
  induction 1 as [|a l Ha _ IH]; [reflexivity|].
  destruct a; cbn; auto. exfalso. eapply Ha. reflexivity.
Qed.

Lemma tracked_fds_entries (v : main_vars) :
  tracker_ok v → tracked_fds v = map (λ e, fd e.1) (drop 1 (entries v)).
Proof.
  intros (Hp & Hf & Hone & Hle). unfold tracked_fds, entries.
  rewrite <- (fst_zip (live_fds v) (live_fences v)) at 1.
  - change (map fd (drop 1 (map fst (zip (live_fds v) (live_fences v))))
            = map (λ e, fd e.1) (drop 1 (zip (live_fds v) (live_fences v)))).
    rewrite <- (fmap_drop fst). symmetry. apply (list_fmap_compose fst fd).
  - unfold live_fds, live_fences. rewrite !length_take. lia.
Qed.

Lemma split_ready_perm {A} (g : pollfd * Fence.t → A) (l : list (pollfd * Fence.t)) :
  map g (List.filter is_ready l) ++ map g (List.filter waiting l) ≡ₚ map g l.
Proof.
  induction l as [|e l IH]; [reflexivity|]. cbn [map List.filter].
  unfold is_ready at 1. destruct (waiting e); cbn [negb map app].
  - rewrite <- Permutation_middle. constructor. exact IH.
  - constructor. exact IH.
Qed.

Lemma closed_fence_timestamp (fd : Z) (w : W) :
  closed (fence_timestamp fd w).1.2 = [].
Proof.
  unfold fence_timestamp.
  destruct (ioctl_sync_file_info fd _ w) as [[file1|] w1]; [|reflexivity].
  destruct (ioctl_sync_file_info fd _ w1) as [[file2|] w2]; reflexivity.
Qed.

Lemma closed_reap_report (es : list (pollfd * Fence.t)) (w : W) :
  closed (reap_report es w).2 = map (λ e, fd e.1) (List.filter is_ready es).
Proof.
  revert w. induction es as [|e es IH]; intros w; [reflexivity|].
  cbn [reap_report List.filter]. destruct (is_ready e); [|apply IH].
  pose proof (closed_fence_timestamp (fd e.1) w) as Hlog.
  destruct (fence_timestamp (fd e.1) w) as [[end_ns log] w1].
  specialize (IH w1). destruct (reap_report es w1) as [w2 out].
  cbn [fst snd] in Hlog, IH |- *. rewrite closed_app, Hlog.
  cbn. rewrite IH. reflexivity.
Qed.

(** One call of [track], entry by entry. *)
Lemma track_entries (start : Z) (v : main_vars) (w : W) v' w' :
  tracker_ok v → track start v w = (true, v', w') →
  tracker_ok v' ∧
  (∃ p, fd p = (egl_dup_fence (grow v w).2).1 ∧
        duplicated (fd p) ∧ events p = POLLIN ∧
        entries v' = entries v
                     ++ [(p, {| Fence.frame_num := frame_num v;
                                Fence.start_ns := start |})]) ∧
  cap v' = (if decide (len v = cap v) then cap v * 2 else cap v)%nat ∧
  len v' = S (len v).
Proof.
  intros Hok Hrun. pose proof Hok as (Hp & Hf & Hone & Hle).
  pose proof (track_spec start v w Hok) as Hspec. rewrite Hrun in Hspec.
  destruct Hspec as (Hok' & Hlen' & Hcap' & _ & Hfences & _).
  split; [exact Hok'|]. split; [|auto].
  unfold track in Hrun.
  pose proof (grow_spec v w Hp Hf Hle) as Hg.
  destruct (grow v w) as [[[] v1] w1]; [|discriminate].
  destruct Hg as (Hp1 & Hf1 & Hcap & Hlen & Hlp & Hlf & Hwl & Hnum).
  destruct (egl_dup_fence w1) as [fence_fd w2] eqn:Hdup.
  injection Hrun as <- <-.
  assert (len v1 < cap v1)%nat as Hlt.
  { rewrite Hcap, Hlen. case_decide; lia. }
  destruct (store_fence_spec fence_fd start v1)
    as ((p & Hfd & Hev & Hfds) & _); try lia.
  exists p. cbn [snd]. rewrite Hdup. cbn [fst].
  split; [exact Hfd|].
  split; [exists w1; rewrite Hdup; exact Hfd|]. split; [exact Hev|].
  apply entries_snoc; try lia; [rewrite Hfds, Hlp; reflexivity|exact Hfences].
Qed.

(** The render block, entry by entry. *)
Lemma render_entries (c : config) (v : main_vars) (w : W) o1 v1 w1 out1 :
  tracker_ok v → render c v w = (o1, v1, w1, out1) →
  let gate := unsynchronized c || negb (frame (wl v)) in
  closed out1 = [] ∧ printed out1 = [] ∧
  (o1 = Continue →
   tracker_ok v1 ∧
   ∃ news,
     entries v1 = entries v ++ news ∧
     Forall (λ e, duplicated (fd e.1) ∧ events e.1 = POLLIN ∧
                  Fence.frame_num e.2 = frame_num v) news ∧
     length news = (if gate && egl_has_fences c then 1 else 0)%nat ∧
     len v1 = (len v + length news)%nat ∧
     (cap v1 = cap v ∨ cap v1 = (cap v * 2)%nat ∧ len v = cap v) ∧
     map (λ e, fd e.1) news = duplicated_by c v w) ∧
  (o1 = Return 1 →
   egl_has_fences c = true ∧ len v = cap v ∧
   len v1 = len v ∧ cap v1 = (cap v * 2)%nat ∧
   (fds v1 = [] ∨ fences v1 = []) ∧
   (fds v1 = [] ∨ fds v1 = resize (cap v * 2) uninit_pollfd (fds v)) ∧
   (fences v1 = [] ∨ fences v1 = resize (cap v * 2) uninit_fence (fences v)) ∧
   duplicated_by c v w = [] ∧
   ∃ n x, (realloc n x).1 = false).
Proof.
  intros Hok Hrun gate.
  pose proof (render_spec _ _ _ _ _ _ _ Hrun) as (Hd1 & _).
  split; [apply closed_quiet; quiet Hd1|].
  split; [apply printed_quiet; quiet Hd1|].
  unfold duplicated_by. unfold render in Hrun. fold gate in Hrun |- *.
  destruct gate.
  2: { injection Hrun as <- <- <- <-. split; [|discriminate]. intros _.
       split; [exact Hok|]. exists []. rewrite app_nil_r. cbn.
       repeat split; auto. }
  unfold submit in Hrun.
  destruct (draw_spec c v w) as (s & start & w2 & Hdraw & _).
  rewrite Hdraw in Hrun |- *. cbn [andb]. destruct (egl_has_fences c).
  2: { injection Hrun as <- <- <- <-. split; [|discriminate]. intros _.
       split; [exact Hok|]. exists []. rewrite app_nil_r. cbn.
       repeat split; auto. }
  assert (Hok' : tracker_ok (set_wl s v)) by exact Hok.
  destruct (track start (set_wl s v) w2) as [[[] v2] w3] eqn:Htrack.
  - injection Hrun as <- <- <- <-. split; [|discriminate]. intros _.
    pose proof Htrack as Hgrow. unfold track in Hgrow.
    apply track_entries in Htrack
      as (Hok2 & (p & Hfd & Hdup & Hev & Hes) & Hcap & Hlen);
      [|exact Hok'].
    split; [exact Hok2|].
    exists [(p, {| Fence.frame_num := frame_num v; Fence.start_ns := start |})].
    split; [exact Hes|]. split; [repeat constructor; auto|].
    split; [reflexivity|]. cbn [length len set_frame_num set_wl cap] in *.
    split; [lia|]. split; [case_decide; auto|].
    destruct (grow (set_wl s v) w2) as [[[] vg] wg]; [|discriminate].
    cbn [map fst snd] in *. rewrite Hfd. reflexivity.
  - injection Hrun as <- <- <- <-. split; [discriminate|]. intros _.
    pose proof Hok as (Hp & Hf & Hone & Hle).
    pose proof (track_spec start (set_wl s v) w2 Hok') as Hspec.
    rewrite Htrack in Hspec.
    destruct Hspec as (Hfull & Hr & Hcap & Hlen & _).
    cbn [len cap set_wl] in Hfull, Hcap, Hlen, Hr.
    destruct (track_refused start (set_wl s v) w2 Hfull)
      as (v2' & Htrack' & _ & _ & Hfds & Hfences & _).
    { cbn [cap set_wl]. destruct Hr as [-> | ->]; [reflexivity|].
      apply andb_false_r. }
    rewrite Htrack in Htrack'. injection Htrack' as <- _.
    cbn [cap set_wl fds fences] in Hfds, Hfences.
    split; [reflexivity|]. split; [exact Hfull|]. split; [exact Hlen|].
    split; [exact Hcap|]. rewrite Hfds, Hfences.
    split; [destruct Hr as [-> | ->]; auto|].
    split; [destruct (realloc _ w2).1; auto|].
    split; [destruct (realloc _ (realloc _ w2).2).1; auto|].
    split; [|destruct Hr as [Hr|Hr]; eauto].
    unfold track in Htrack.
    destruct (grow (set_wl s v) w2) as [[[] vg] wg]; [|reflexivity].
    destruct (egl_dup_fence wg). discriminate.
Qed.

(** The block after the flush loop touches the events of slot 0 only. *)
Lemma after_flush_entries (ret errno : Z) (v : main_vars) (l : list pollfd)
    (s : wl_state) :
  tracker_ok v → after_flush ret errno (fds v) = Some l →
  tracker_ok (set_fds l (set_wl s v)) ∧
  ∃ p0 f0 rest,
    entries v = (p0, f0) :: rest ∧
    entries (set_fds l (set_wl s v))
    = (set_events (if ret =? -1 then Z.lor (events p0) POLLOUT
                   else Z.land (events p0) (Z.lnot POLLOUT)) p0, f0) :: rest.
Proof.
  intros (Hp & Hf & Hone & Hle) Hafter.
  pose proof (length_after_flush _ _ _ _ Hafter) as Hl.
  split; [unfold tracker_ok; cbn; rewrite Hl; auto|].
  unfold entries, live_fds, live_fences. cbn [fds fences len set_fds set_wl].
  destruct (fds v) as [|p0 tl]; [cbn in Hp; lia|].
  destruct (fences v) as [|f0 tf]; [cbn in Hf; lia|].
  destruct (len v) as [|n]; [lia|].
  exists p0, f0, (zip (take n tl) (take n tf)). split; [reflexivity|].
  unfold after_flush, arm_pollout, disarm_pollout in Hafter.
  cbn [lookup list_lookup] in Hafter.
  destruct (ret =? -1); [destruct (errno =? EAGAIN); [|discriminate]|];
    injection Hafter as <-; reflexivity.
Qed.

Lemma store_revents_key (revs : list Z) (l : list pollfd) (m : list Fence.t)
    (n : nat) :
  map key (zip (take n (store_revents revs l)) m) = map key (zip (take n l) m).
Proof.
  revert l m n. induction revs as [|r revs IH]; intros [|p l] [|f m] [|n];
    cbn; try reflexivity.
  f_equal. apply IH.
Qed.

(** [poll] and the tests on its result: only [revents] change. *)
Lemma wait_entries (c : config) (v : main_vars) (w : W) o v' w' out :
  tracker_ok v → wait c v w = (o, v', w', out) →
  tracker_ok v' ∧ map key (entries v') = map key (entries v) ∧
  closed out = [] ∧ printed out = [] ∧
  ∃ rest,
    out = Poll (len v) (events (default uninit_pollfd (fds v !! 0%nat)))
               (if unsynchronized c then 0 else -1) :: rest ∧
    Forall (λ a, a = Perror "poll" ∨ a = WlDisplayCancelRead) rest.
Proof.
  intros (Hp & Hf & Hone & Hle) Hrun.
  pose proof (wait_spec _ _ _ _ _ _ _ Hrun)
    as (_ & _ & Hf' & Hlen' & Hcap' & _ & Hp' & _).
  split; [unfold tracker_ok; rewrite Hp', Hf', Hlen', Hcap'; auto|].
  unfold wait in Hrun. destruct (poll _ _ w) as [[[ret errno] revs] w1].
  assert (Hkey : ∀ u, fds u = store_revents (take (len v) revs) (fds v) →
                      fences u = fences v → len u = len v →
                      map key (entries u) = map key (entries v)).
  { intros u Hu1 Hu2 Hu3. unfold entries, live_fds, live_fences.
    rewrite Hu1, Hu2, Hu3. apply store_revents_key. }
  repeat match type of Hrun with
         | context [if ?b then _ else _] => destruct b
         end;
    injection Hrun as <- <- <- <-;
    (split; [apply Hkey; reflexivity|]);
    (split; [reflexivity|]); (split; [reflexivity|]);
    eexists; (split; [reflexivity|]);
    repeat first [apply Forall_nil_2
                 |apply Forall_cons_2;
                  [first [left; reflexivity|right; reflexivity]|]].
Qed.

(** Reading the events and reaping, entry by entry. *)
Lemma read_and_reap_entries (v : main_vars) (w : W) v' w' out :
  tracker_ok v → read_and_reap v w = Some (v', w', out) →
  tracker_ok v' ∧ cap v' = cap v ∧
  entries v' = take 1 (entries v) ++ List.filter waiting (drop 1 (entries v)) ∧
  closed out = map (λ e, fd e.1) (List.filter is_ready (drop 1 (entries v))) ∧
  printed out
  = map (λ e, Fence.frame_num e.2) (List.filter is_ready (drop 1 (entries v))).
Proof.
  intros Hok Hrun. unfold read_and_reap, reap in Hrun.
  destruct (wl_display_dispatch_pending w) as [es w1].
  destruct (dispatch_all_spec es (wl v)) as (Hacts & _).
  destruct (dispatch_all es (wl v)) as [s acts]. cbn [fst snd] in *.
  destruct Hok as (Hp & Hf & Hone & Hle).
  assert (Hn : length (entries v) = len v) by (apply length_entries; lia).
  destruct (entries v) as [|e0 rest] eqn:Hes; [cbn in Hn; lia|].
  pose proof (reap_loop_spec (S (len v)) 1 (set_wl s v) w1 [] [e0] rest
                Hes eq_refl ltac:(cbn; lia) ltac:(cbn; lia)
                ltac:(cbn in Hn; lia))
    as (u' & Hreap & Hes' & _ & Hcap & _ & Hlp & Hlf & Hlen').
  cbn [len fds fences cap set_wl] in Hreap, Hcap, Hlp, Hlf, Hlen', Hrun.
  rewrite Hreap in Hrun. injection Hrun as <- <- <-.
  assert (Hok' : tracker_ok u').
  { unfold tracker_ok. rewrite Hlp, Hlf, Hcap. repeat split; auto; try lia.
    assert (length (entries u') = len u') as <- by (apply length_entries; lia).
    rewrite Hes'. cbn. lia. }
  split; [exact Hok'|]. split; [exact Hcap|]. cbn [take drop].
  split; [exact Hes'|]. cbn [app closed printed].
  rewrite closed_app, printed_app, closed_reap_report, printed_reap_report.
  rewrite (printed_quiet acts), (closed_quiet acts); [auto|quiet Hacts|quiet Hacts].
Qed.

Lemma middle_quiet (inner : nat) (s : wl_state) (w1 w2 : W) s2 out2 w2' ret errno
    w3 out3 :
  prepare_read_loop inner s w1 [] = Some (s2, w2', out2) →
  flush_loop inner w2 [] = Some (ret, errno, w3, out3) →
  closed (out2 ++ out3) = [] ∧ printed (out2 ++ out3) = [] ∧
  drawn (out2 ++ out3) = [] ∧
  Forall (λ a, from_draw a = false ∧ a ≠ Teardown ∧
               ∀ n e t, a ≠ Poll n e t) (out2 ++ out3).
Proof.
  intros Hprep Hflush.
  apply prepare_read_loop_spec in Hprep as (? & -> & Ht2 & _).
  apply flush_loop_spec in Hflush as (_ & ? & -> & Ht3). cbn [app].
  rewrite closed_app, printed_app, drawn_app.
  rewrite (closed_quiet x), (closed_quiet x0), (printed_quiet x),
    (printed_quiet x0), (drawn_quiet x), (drawn_quiet x0);
    [|quiet Ht3|quiet Ht2|quiet Ht3|quiet Ht2|quiet Ht3|quiet Ht2].
  repeat split; auto. apply Forall_app. split; [quiet Ht2|quiet Ht3].
Qed.

(** A complete turn, entry by entry: slot 0 keeps its descriptor, the
    render block appends at most one entry, [poll] marks the entries,
    and the reap loop closes and reports the ready ones and keeps the
    others in order. *)
Lemma iteration_continue (inner : nat) (c : config) (v : main_vars) (w : W)
    v' w' out :
  tracker_ok v → iteration inner c v w = Some (Continue, v', w', out) →
  let gate := unsynchronized c || negb (frame (wl v)) in
  tracker_ok v' ∧
  ∃ p0 f0 p0' old news polled,
    entries v = (p0, f0) :: old ∧
    map key polled = map key (old ++ news) ∧
    entries v' = (p0', f0) :: List.filter waiting polled ∧
    fd p0' = fd p0 ∧
    (events p0' = Z.lor (events p0) POLLOUT ∨
     events p0' = Z.land (events p0) (Z.lnot POLLOUT)) ∧
    Forall (λ e, duplicated (fd e.1) ∧ events e.1 = POLLIN ∧
                 Fence.frame_num e.2 = frame_num v) news ∧
    length news = (if gate && egl_has_fences c then 1 else 0)%nat ∧
    (cap v' = cap v ∨ cap v' = (cap v * 2)%nat ∧ len v = cap v) ∧
    closed out = map (λ e, fd e.1) (List.filter is_ready polled) ∧
    printed out = map (λ e, Fence.frame_num e.2) (List.filter is_ready polled) ∧
    map (λ e, fd e.1) news = duplicated_by c v w.
Proof.
  intros Hok Hrun gate.
  apply iteration_cases in Hrun as (o1 & v1 & w1 & out1 & Hrender & Hcase).
  destruct Hcase as [(_ & [=] & _)|(-> & Hcase)].
  destruct Hcase as (s2 & w2 & out2 & ret & errno & w3 & out3 & Hprep & Hflush & Hcase).
  destruct Hcase as [(_ & [=] & _)|Hcase].
  destruct Hcase as (l & o4 & v4 & w4 & out4 & Hafter & Hwait & Hcase).
  destruct Hcase as [(_ & [=] & _)|(-> & _ & out5 & Hreap & ->)].
  destruct (render_entries _ _ _ _ _ _ _ Hok Hrender) as (Hc1 & Hp1 & Hcont & _).
  destruct (Hcont eq_refl) as (Hok1 & news & Hes1 & Hnews & Hlen & _ & Hcap & Hdups).
  fold gate in Hlen.
  destruct (after_flush_entries ret errno v1 l s2 Hok1 Hafter)
    as (Hok2 & p0 & f0 & rest1 & Hes1' & Hes2).
  destruct (wait_entries _ _ _ _ _ _ _ Hok2 Hwait)
    as (Hok4 & Hkey4 & Hc4 & Hp4 & _).
  destruct (read_and_reap_entries _ _ _ _ _ Hok4 Hreap)
    as (Hok5 & Hcap5 & Hes5 & Hc5 & Hp5).
  destruct (middle_quiet _ _ _ _ _ _ _ _ _ _ _ Hprep Hflush) as (Hc23 & Hp23 & _).
  pose proof (wait_spec _ _ _ _ _ _ _ Hwait) as (_ & _ & _ & _ & Hcap4 & _).
  cbn [cap set_fds set_wl] in Hcap4.
  split; [exact Hok5|].
  destruct (entries v) as [|e0 old] eqn:Hes.
  { destruct Hok as (Hp & Hf & Hone & Hle).
    pose proof (length_entries v ltac:(lia) ltac:(lia)) as Hn.
    rewrite Hes in Hn. cbn in Hn. lia. }
  rewrite Hes1' in Hes1. cbn [app] in Hes1. injection Hes1 as <- ->.
  rewrite Hes2 in Hkey4.
  destruct (entries v4) as [|[p0' f0'] polled] eqn:Hes4; [discriminate|].
  cbn [map] in Hkey4. injection Hkey4 as Hfd Hev -> Hkey.
  cbn [fst snd fd events set_events] in Hfd, Hev.
  exists p0, f0, p0', old, news, polled.
  split; [reflexivity|]. split; [exact Hkey|]. split; [exact Hes5|].
  split; [exact Hfd|]. split.
  { rewrite Hev. destruct (ret =? -1); auto. }
  split; [exact Hnews|]. split; [exact Hlen|].
  split; [rewrite Hcap5, Hcap4; exact Hcap|].
  cbn [drop] in Hc5, Hp5.
  rewrite <- !app_assoc, !closed_app, !printed_app.
  rewrite closed_app in Hc23. rewrite printed_app in Hp23.
  apply app_eq_nil in Hc23 as [-> ->]. apply app_eq_nil in Hp23 as [-> ->].
  rewrite Hc1, Hp1, Hc4, Hp4, Hc5, Hp5. auto.
Qed.

(** A turn that breaks out of the loop closes and reports nothing. *)
Lemma iteration_break (inner : nat) (c : config) (v : main_vars) (w : W)
    v' w' out :
  tracker_ok v → iteration inner c v w = Some (Break, v', w', out) →
  let gate := unsynchronized c || negb (frame (wl v)) in
  tracker_ok v' ∧ closed out = [] ∧ printed out = [] ∧
  ∃ news,
    map key (drop 1 (entries v')) = map key (drop 1 (entries v) ++ news) ∧
    Forall (λ e, duplicated (fd e.1) ∧ events e.1 = POLLIN ∧
                 Fence.frame_num e.2 = frame_num v) news ∧
    length news = (if gate && egl_has_fences c then 1 else 0)%nat ∧
    map (λ e, fd e.1) news = duplicated_by c v w.
Proof.
  intros Hok Hrun gate.
  apply iteration_cases in Hrun as (o1 & v1 & w1 & out1 & Hrender & Hcase).
  destruct Hcase as [(_ & [=] & _)|(-> & Hcase)].
  destruct Hcase as (s2 & w2 & out2 & ret & errno & w3 & out3 & Hprep & Hflush & Hcase).
  destruct (render_entries _ _ _ _ _ _ _ Hok Hrender) as (Hc1 & Hp1 & Hcont & _).
  destruct (Hcont eq_refl) as (Hok1 & news & Hes1 & Hnews & Hlen & _ & _ & Hdups).
  fold gate in Hlen.
  destruct (middle_quiet _ _ _ _ _ _ _ _ _ _ _ Hprep Hflush) as (Hc23 & Hp23 & _).
  rewrite closed_app in Hc23. rewrite printed_app in Hp23.
  apply app_eq_nil in Hc23 as [Hc2 Hc3]. apply app_eq_nil in Hp23 as [Hp2 Hp3].
  assert (Hdrop : drop 1 (entries v1) = drop 1 (entries v) ++ news).
  { rewrite Hes1. destruct (entries v) as [|e0 old] eqn:Hes; [|reflexivity].
    destruct Hok as (Hp & Hf & Hone & Hle).
    pose proof (length_entries v ltac:(lia) ltac:(lia)) as Hn.
    rewrite Hes in Hn. cbn in Hn. lia. }
  destruct Hcase as [(_ & _ & -> & -> & ->)|Hcase].
  { split; [exact Hok1|].
    rewrite <- !app_assoc, !closed_app, !printed_app, Hc1, Hc2, Hc3, Hp1, Hp2, Hp3.
    split; [reflexivity|]. split; [reflexivity|]. exists news.
    change (entries (set_wl s2 v1)) with (entries v1). rewrite Hdrop. auto. }
  destruct Hcase as (l & o4 & v4 & w4 & out4 & Hafter & Hwait & Hcase).
  destruct Hcase as [(-> & _ & -> & -> & ->)|(_ & [=] & _)].
  destruct (after_flush_entries ret errno v1 l s2 Hok1 Hafter)
    as (Hok2 & p0 & f0 & rest1 & Hes1' & Hes2).
  destruct (wait_entries _ _ _ _ _ _ _ Hok2 Hwait)
    as (Hok4 & Hkey4 & Hc4 & Hp4 & _).
  split; [exact Hok4|].
  rewrite <- !app_assoc, !closed_app, !printed_app, Hc1, Hc2, Hc3, Hp1, Hp2, Hp3,
    Hc4, Hp4.
  split; [reflexivity|]. split; [reflexivity|]. exists news.
  split; [|auto]. rewrite <- Hdrop, Hes1'. cbn [drop]. rewrite drop_0.
  pose proof (f_equal (drop 1) Hkey4) as Hd. rewrite Hes2 in Hd.
  cbn [map drop] in Hd. rewrite drop_0 in Hd. rewrite <- Hd.
  apply (fmap_drop key).
Qed.

(** A turn that makes [main] return does so from the render block, on a
    full tracker that could not grow: the capacity is doubled, a pointer
    that was refused is [NULL], and no descriptor was duplicated. *)
Lemma iteration_return (inner : nat) (c : config) (v : main_vars) (w : W)
    code v' w' out :
  tracker_ok v → iteration inner c v w = Some (Return code, v', w', out) →
  code = 1 ∧ egl_has_fences c = true ∧ len v = cap v ∧
  len v' = len v ∧ cap v' = (cap v * 2)%nat ∧
  (fds v' = [] ∨ fences v' = []) ∧
  (fds v' = [] ∨ fds v' = resize (cap v * 2) uninit_pollfd (fds v)) ∧
  (fences v' = [] ∨ fences v' = resize (cap v * 2) uninit_fence (fences v)) ∧
  duplicated_by c v w = [] ∧
  closed out = [] ∧ printed out = [] ∧
  Forall (λ a, from_draw a = true) out ∧
  ∃ n x, (realloc n x).1 = false.
Proof.
  intros Hok Hrun.
  apply iteration_cases in Hrun as (o1 & v1 & w1 & out1 & Hrender & Hcase).
  destruct Hcase as [(-> & [= ->] & -> & -> & ->)|(-> & Hcase)].
  - destruct (render_entries _ _ _ _ _ _ _ Hok Hrender) as (Hc1 & Hp1 & _ & Hret).
    destruct (Hret eq_refl) as (Hf & Hfull & Hlen & Hcap & Hnull & Hfds & Hfences
                                & Hdup & Hr).
    pose proof (render_spec _ _ _ _ _ _ _ Hrender) as (Hd1 & _).
    repeat split; auto.
  - destruct Hcase as (? & ? & ? & ? & ? & ? & ? & _ & _ & Hcase).
    destruct Hcase as [(_ & [=] & _)|(? & ? & ? & ? & ? & _ & _ & Hcase)].
    destruct Hcase as [(_ & [=] & _)|(_ & [=] & _)].
Qed.

End Turn.

(** ** Descriptors from duplication to [close] *)

Section Descriptors.
Context {W : Type} `{Platform W}.

Lemma key_fd (l k : list (pollfd * Fence.t)) :
  map key l = map key k → map (λ e, fd e.1) l = map (λ e, fd e.1) k.
Proof.
  intros Hkey. apply (f_equal (map (λ x : Z * Z * Fence.t, x.1.1))) in Hkey.
  rewrite !map_map in Hkey. exact Hkey.
Qed.

Lemma key_frame (l k : list (pollfd * Fence.t)) :
  map key l = map key k →
  map (λ e, Fence.frame_num e.2) l = map (λ e, Fence.frame_num e.2) k.
Proof.
  intros Hkey.
  apply (f_equal (map (λ x : Z * Z * Fence.t, Fence.frame_num x.2))) in Hkey.
  rewrite !map_map in Hkey. exact Hkey.
Qed.

Lemma closed_teardown (v : main_vars) : closed (teardown v) = tracked_fds v.
Proof.
  unfold teardown, tracked_fds, live_fds. rewrite !closed_app.
  replace (closed (if frame (wl v) then [WlCallbackDestroy] else [])) with (@nil Z)
    by (destruct (frame (wl v)); reflexivity).
  cbn [app closed]. rewrite app_nil_r.
  induction (drop 1 (take (len v) (fds v))) as [|p l IH]; [reflexivity|].
  cbn. rewrite IH. reflexivity.
Qed.

Lemma news_drawn (c : config) (v : main_vars) (news : list (pollfd * Fence.t))
    (acts : list action) :
  let gate := unsynchronized c || negb (frame (wl v)) in
  length news = (if gate && egl_has_fences c then 1 else 0)%nat →
  drawn acts = (if gate then [frame_num v] else []) →
  length news = if egl_has_fences c then length (drawn acts) else 0%nat.
Proof.
  intros gate Hlen Hdrawn. rewrite Hlen, Hdrawn.
  destruct gate, (egl_has_fences c); reflexivity.
Qed.

Lemma tracked_fds_resize (v v' : main_vars) (n : nat) :
  tracker_ok v → len v' = len v → (cap v ≤ n)%nat →
  fds v' = resize n uninit_pollfd (fds v) →
  tracked_fds v' = tracked_fds v.
Proof.
  intros (Hp & _ & _ & Hle) Hlen Hn Hfds. unfold tracked_fds, live_fds.
  rewrite Hfds, Hlen, take_resize_le, resize_le by lia. reflexivity.
Qed.

(** The descriptors of a run of [main]: those the tracker held at the
    start and those duplicated since are, each as often as obtained, the
    ones closed and the ones still held when [main] returns; none is
    held when it returns 0. *)
Lemma main_loop_descriptors (inner : nat) (c : config) (fuel : nat) :
  ∀ (v : main_vars) (w : W) (out0 : list action) code v' w' out,
    tracker_ok v →
    main_loop fuel inner c v w out0 = Some (code, v', w', out) →
    ∃ acts held,
      out = out0 ++ acts ∧
      closed acts ++ held ≡ₚ tracked_fds v ++ duplicated_in fuel inner c v w ∧
      (code = 0 →
       held = [] ∧
       length (duplicated_in fuel inner c v w)
       = if egl_has_fences c then length (drawn acts) else 0%nat) ∧
      (code ≠ 0 →
       length held = (len v' - 1)%nat ∧
       (fds v' = [] ∨ held = tracked_fds v')).
Proof.
  induction fuel as [|fuel IH]; intros v w out0 code v' w' out Hok Hrun;
    [discriminate|].
  cbn [main_loop duplicated_in] in Hrun |- *.
  destruct (negb (close (wl v)) && (frame_num v <? max_frames c)).
  2: { injection Hrun as <- <- <- <-. exists (teardown v), [].
       rewrite closed_teardown, drawn_teardown, !app_nil_r.
       repeat split; auto; try contradiction.
       destruct (egl_has_fences c); reflexivity. }
  destruct (iteration inner c v w) as [[[[o v1] w1] acts1]|] eqn:Hit; [|discriminate].
  pose proof (iteration_spec _ _ _ _ _ _ _ _ Hit) as (_ & Hdrawn & _).
  destruct o as [| |code1].
  - destruct (iteration_continue _ _ _ _ _ _ _ Hok Hit)
      as (Hok1 & p0 & f0 & p0' & old & news & polled & Hes & Hkey & Hes1 & _ & _
          & Hnews & Hlen & _ & Hclosed & _ & Hdups).
    destruct (IH _ _ _ _ _ _ _ Hok1 Hrun)
      as (acts & held & -> & Hperm & Hzero & Hfail).
    exists (acts1 ++ acts), held.
    split; [rewrite app_assoc; reflexivity|].
    rewrite (tracked_fds_entries v1 Hok1), Hes1 in Hperm. cbn [drop] in Hperm.
    rewrite drop_0 in Hperm.
    rewrite (tracked_fds_entries v Hok), Hes. cbn [drop]. rewrite drop_0.
    split; [|split].
    + rewrite closed_app, Hclosed, <- Hdups, <- !app_assoc, Hperm, !app_assoc.
      apply Permutation_app_tail.
      rewrite (split_ready_perm (λ e, fd e.1) polled), (key_fd _ _ Hkey), map_app.
      reflexivity.
    + intros Hcode. destruct (Hzero Hcode) as [-> Hn]. split; [reflexivity|].
      rewrite length_app, <- Hdups, length_map, drawn_app, length_app, Hn.
      rewrite (news_drawn c v news acts1 Hlen Hdrawn).
      destruct (egl_has_fences c); reflexivity.
    + exact Hfail.
  - injection Hrun as <- <- <- <-.
    destruct (iteration_break _ _ _ _ _ _ _ Hok Hit)
      as (Hok1 & Hclosed & _ & news & Hkey & Hnews & Hlen & Hdups).
    exists (acts1 ++ teardown v1), [].
    split; [reflexivity|]. rewrite !app_nil_r. split; [|split].
    + rewrite closed_app, Hclosed, closed_teardown.
      rewrite (tracked_fds_entries v1 Hok1), (tracked_fds_entries v Hok).
      rewrite (key_fd _ _ Hkey), map_app, Hdups. reflexivity.
    + intros _. split; [reflexivity|].
      rewrite <- Hdups, length_map, drawn_app, drawn_teardown, app_nil_r.
      exact (news_drawn c v news acts1 Hlen Hdrawn).
    + contradiction.
  - injection Hrun as <- <- <- <-.
    destruct (iteration_return _ _ _ _ _ _ _ _ Hok Hit)
      as (-> & _ & Hfull & Hlen & Hcap & _ & Hfds & _ & Hdup & Hclosed & _).
    exists acts1, (tracked_fds v). split; [reflexivity|].
    rewrite Hclosed, Hdup. cbn [app]. rewrite app_nil_r.
    split; [reflexivity|]. split; [discriminate|]. intros _.
    pose proof Hok as (Hp & _ & Hone & Hle).
    split.
    + unfold tracked_fds, live_fds.
      rewrite length_map, length_drop, length_take. lia.
    + destruct Hfds as [Hnull|Hfds]; [left; exact Hnull|right].
      symmetry. eapply tracked_fds_resize; [exact Hok|exact Hlen| |exact Hfds].
      lia.
Qed.

(** X4.  When [main] leaves the loop and ends with status 0, the
    descriptors it has closed, in the reap loop and in the sweep after
    the loop, are those the fence tracker held at the start together
    with those [eglDupNativeFenceFDANDROID] returned during the run,
    each closed as often as it was obtained; with fences one descriptor
    was duplicated per frame drawn, and without fences none. *)
Theorem fences_closed_as_often_as_duplicated (fuel inner : nat) (c : config)
    (v : main_vars) (w : W) (v' : main_vars) (w' : W) (out : list action) :
  tracker_ok v →
  main_loop fuel inner c v w [] = Some (0, v', w', out) →
  closed out ≡ₚ tracked_fds v ++ duplicated_in fuel inner c v w ∧
  length (duplicated_in fuel inner c v w)
  = if egl_has_fences c then length (drawn out) else 0%nat.
Proof.
  intros Hok Hrun.
  destruct (main_loop_descriptors inner c fuel _ _ _ _ _ _ _ Hok Hrun)
    as (acts & held & -> & Hperm & Hzero & _).
  destruct (Hzero eq_refl) as [-> Hn]. rewrite app_nil_r in Hperm. auto.
Qed.

End Descriptors.

(** ** How [main] ends *)

Section Exit.
Context {W : Type} `{Platform W}.

(** Where the actions of a turn come from: the render block first, and
    after it nothing the render block does, and never the final run of
    destructions. *)
Lemma iteration_origin (inner : nat) (c : config) (v : main_vars) (w : W)
    o v' w' out :
  iteration inner c v w = Some (o, v', w', out) →
  ∃ rest,
    out = (render c v w).2 ++ rest ∧
    Forall (λ a, from_draw a = true) (render c v w).2 ∧
    Forall (λ a, from_draw a = false ∧ a ≠ Teardown) rest.
Proof.
  intros Hrun.
  apply iteration_cases in Hrun as (o1 & v1 & w1 & out1 & Hrender & Hcase).
  pose proof (render_spec _ _ _ _ _ _ _ Hrender) as (Hd1 & _).
  rewrite Hrender. cbn [snd].
  destruct Hcase as [(_ & _ & _ & _ & ->)|(-> & Hcase)].
  { exists []. rewrite app_nil_r. auto using Forall_nil_2. }
  destruct Hcase as (s2 & w2 & out2 & ret & errno & w3 & out3 & Hprep & Hflush & Hcase).
  destruct (middle_quiet _ _ _ _ _ _ _ _ _ _ _ Hprep Hflush) as (_ & _ & _ & Hq23).
  assert (Hq : Forall (λ a, from_draw a = false ∧ a ≠ Teardown) (out2 ++ out3)).
  { eapply Forall_impl; [exact Hq23|]. cbn. tauto. }
  destruct Hcase as [(_ & _ & _ & _ & ->)|Hcase].
  { exists ((out2 ++ out3) ++ [WlDisplayCancelRead]).
    split; [rewrite <- !app_assoc; reflexivity|]. split; [exact Hd1|].
    apply Forall_app. split; [exact Hq|]. repeat constructor. discriminate. }
  destruct Hcase as (l & o4 & v4 & w4 & out4 & _ & Hwait & Hcase).
  apply wait_spec in Hwait as (Ht4 & _).
  assert (Hq4 : Forall (λ a, from_draw a = false ∧ a ≠ Teardown) out4) by quiet Ht4.
  destruct Hcase as [(_ & _ & _ & _ & ->)|(_ & _ & out5 & Hreap & ->)].
  { exists ((out2 ++ out3) ++ out4).
    split; [rewrite <- !app_assoc; reflexivity|]. split; [exact Hd1|].
    apply Forall_app. auto. }
  apply read_and_reap_spec in Hreap as (Ht5 & _).
  exists ((out2 ++ out3) ++ out4 ++ out5).
  split; [rewrite <- !app_assoc; reflexivity|]. split; [exact Hd1|].
  apply Forall_app. split; [exact Hq|]. apply Forall_app. split; [exact Hq4|].
  quiet Ht5.
Qed.

Lemma iteration_no_teardown (inner : nat) (c : config) (v : main_vars) (w : W)
    o v' w' out :
  iteration inner c v w = Some (o, v', w', out) → calls Teardown out = 0%nat.
Proof.
  intros Hrun. apply iteration_origin in Hrun as (rest & -> & Hd & Hrest).
  rewrite calls_app, !calls_quiet; [reflexivity| |].
  - eapply Forall_impl; [exact Hrest|]. cbn. tauto.
  - quiet Hd.
Qed.

Lemma teardown_shape (v : main_vars) :
  ∃ sweep,
    teardown v = sweep ++ [Teardown] ∧ calls Teardown sweep = 0%nat ∧
    callback_run (frame (wl v)) (teardown v) = Some false.
Proof.
  unfold teardown.
  exists ((if frame (wl v) then [WlCallbackDestroy] else [])
          ++ map (λ p, Close (fd p)) (drop 1 (take (len v) (fds v)))).
  split; [rewrite <- app_assoc; reflexivity|].
  assert (Hq : Forall (λ a, a ≠ WlSurfaceFrame ∧ a ≠ WlCallbackDestroy ∧
                            a ≠ Teardown)
                 (map (λ p, Close (fd p)) (drop 1 (take (len v) (fds v))))).
  { apply Forall_fmap. apply Forall_forall. intros p _. cbn.
    repeat split; discriminate. }
  split.
  - rewrite calls_app, (calls_quiet _ (map _ _)).
    + destruct (frame (wl v)); reflexivity.
    + eapply Forall_impl; [exact Hq|]. cbn. tauto.
  - destruct (frame (wl v)); cbn [app callback_run];
      (rewrite callback_run_app, callback_run_quiet; [reflexivity|]);
      (eapply Forall_impl; [exact Hq|]; cbn; tauto).
Qed.

(** A run that ends with status 0 ends with the destructions, run once,
    and with no frame callback left. *)
Lemma main_loop_exit (inner : nat) (c : config) (fuel : nat) :
  ∀ (v : main_vars) (w : W) (out0 : list action) v' w' out,
    callback_run false out0 = Some (frame (wl v)) →
    main_loop fuel inner c v w out0 = Some (0, v', w', out) →
    callback_run false out = Some false ∧
    ∃ acts, out = out0 ++ acts ++ [Teardown] ∧ calls Teardown acts = 0%nat.
Proof.
  induction fuel as [|fuel IH]; intros v w out0 v' w' out Hcb Hrun; [discriminate|].
  cbn [main_loop] in Hrun.
  destruct (negb (close (wl v)) && (frame_num v <? max_frames c)).
  2: { injection Hrun as <- <- <-.
       destruct (teardown_shape v) as (sweep & Hshape & Hnone & Hrun).
       split; [eapply callback_run_seq; eassumption|].
       exists sweep. rewrite Hshape. auto. }
  destruct (iteration inner c v w) as [[[[o v1] w1] acts1]|] eqn:Hit; [|discriminate].
  pose proof (iteration_spec _ _ _ _ _ _ _ _ Hit) as (Hcb1 & _).
  pose proof (iteration_no_teardown _ _ _ _ _ _ _ _ Hit) as Hnone1.
  pose proof (callback_run_seq _ _ _ _ _ Hcb Hcb1) as Hcb'.
  destruct o as [| |code].
  - destruct (IH _ _ _ _ _ _ Hcb' Hrun) as (Hend & acts & -> & Hnone).
    split; [exact Hend|]. exists (acts1 ++ acts).
    split; [rewrite <- !app_assoc; reflexivity|].
    rewrite calls_app, Hnone1, Hnone. reflexivity.
  - injection Hrun as <- <- <-.
    destruct (teardown_shape v1) as (sweep & Hshape & Hnone & Hrun).
    split; [rewrite app_assoc; eapply callback_run_seq; eassumption|].
    exists (acts1 ++ sweep). rewrite Hshape.
    split; [rewrite <- !app_assoc; reflexivity|].
    rewrite calls_app, Hnone1, Hnone. reflexivity.
  - pose proof (iteration_spec _ _ _ _ _ _ _ _ Hit) as (_ & _ & _ & Ho & _).
    destruct Ho as [[[[=]|[=]] _]|([= ->] & _)]. discriminate.
Qed.

(** X5.  A run of [main] that starts with no frame callback and ends
    with status 0 has destroyed every frame callback it requested, and
    its trace ends with the run of destructions, performed once. *)
Theorem exit_leaves_no_frame_callback (fuel inner : nat) (c : config)
    (v : main_vars) (w : W) (v' : main_vars) (w' : W) (out : list action) :
  frame (wl v) = false →
  main_loop fuel inner c v w [] = Some (0, v', w', out) →
  outstanding out = 0 ∧ last out = Some Teardown ∧ calls Teardown out = 1%nat.
Proof.
  intros Hframe Hrun.
  destruct (main_loop_exit inner c fuel v w [] v' w' out) as (Hcb & acts & -> & Hnone);
    [cbn; rewrite Hframe; reflexivity|exact Hrun|].
  cbn [app] in *. split; [|split].
  - destruct (callback_run_outstanding _ _ _ (acts ++ [Teardown]) [] Hcb)
      as [Hcount _]; [rewrite app_nil_r; reflexivity|]. lia.
  - apply last_snoc.
  - rewrite calls_app, Hnone. reflexivity.
Qed.

(** The render block ends with the presentation of the frame. *)
Lemma render_last (c : config) (v : main_vars) (w : W) code v1 w1 out1 :
  render c v w = (Return code, v1, w1, out1) → last out1 = Some EglSwapBuffers.
Proof.
  unfold render. destruct (unsynchronized c || negb (frame (wl v))); [|discriminate].
  unfold submit. destruct (draw_spec c v w) as (s & start & w2 & -> & _).
  destruct (egl_has_fences c); [|discriminate].
  destruct (track start (set_wl s v) w2) as [[[] v2] w3]; [discriminate|].
  intros [= <- <- <- <-].
  rewrite !last_app. reflexivity.
Qed.

(** A run that ends with another status than 0 ends in the render block
    of a turn that found the tracker full and could not grow it. *)
Lemma main_loop_failure (inner : nat) (c : config) (fuel : nat) :
  ∀ (v : main_vars) (w : W) (out0 : list action) code v' w' out,
    tracker_ok v →
    main_loop fuel inner c v w out0 = Some (code, v', w', out) → code ≠ 0 →
    code = 1 ∧ egl_has_fences c = true ∧ cap v' = (2 * len v')%nat ∧
    (fds v' = [] ∨ fences v' = []) ∧
    (fds v' = [] ∨ length (fds v') = cap v') ∧
    (fences v' = [] ∨ length (fences v') = cap v') ∧
    (∃ n x, (realloc n x).1 = false) ∧
    ∃ acts, out = out0 ++ acts ∧ calls Teardown acts = 0%nat ∧
            last acts = Some EglSwapBuffers.
Proof.
  induction fuel as [|fuel IH]; intros v w out0 code v' w' out Hok Hrun Hcode;
    [discriminate|].
  cbn [main_loop] in Hrun.
  destruct (negb (close (wl v)) && (frame_num v <? max_frames c)).
  2: { injection Hrun as <- <- <-. contradiction. }
  destruct (iteration inner c v w) as [[[[o v1] w1] acts1]|] eqn:Hit; [|discriminate].
  pose proof (iteration_no_teardown _ _ _ _ _ _ _ _ Hit) as Hnone1.
  destruct o as [| |code1].
  - destruct (iteration_continue _ _ _ _ _ _ _ Hok Hit) as (Hok1 & _).
    destruct (IH _ _ _ _ _ _ _ Hok1 Hrun Hcode)
      as (-> & Hf & Hcap & Hnull & Hfds & Hfences & Hr & acts & -> & Hnone & Hlast).
    repeat split; auto. exists (acts1 ++ acts).
    split; [rewrite app_assoc; reflexivity|].
    split; [rewrite calls_app, Hnone1, Hnone; reflexivity|].
    destruct acts as [|a acts]; [discriminate|]. rewrite last_app, Hlast. reflexivity.
  - injection Hrun as <- <- <-. contradiction.
  - injection Hrun as <- <- <- <-.
    pose proof (iteration_cases _ _ _ _ _ _ _ _ Hit)
      as (o1 & v2 & w2 & out1 & Hrender & Hcase).
    destruct (iteration_return _ _ _ _ _ _ _ _ Hok Hit)
      as (-> & Hf & Hfull & Hlen & Hcap & Hnull & Hfds & Hfences & _ & _ & _ & _
          & Hr).
    split; [reflexivity|]. split; [exact Hf|]. split; [lia|].
    split; [exact Hnull|].
    split; [destruct Hfds as [Hn| ->]; [auto|right; rewrite length_resize; lia]|].
    split; [destruct Hfences as [Hn| ->]; [auto|right; rewrite length_resize; lia]|].
    split; [exact Hr|]. exists acts1.
    split; [reflexivity|]. split; [exact Hnone1|].
    destruct Hcase as [(-> & _ & _ & _ & ->)|(_ & ? & ? & ? & ? & ? & ? & ? & _ & _ & Hcase)].
    + eapply render_last. exact Hrender.
    + destruct Hcase as [(_ & [=] & _)|(? & ? & ? & ? & ? & _ & _ & Hcase)].
      destruct Hcase as [(_ & [=] & _)|(_ & [=] & _)].
Qed.

(** X6.  [main] ends with status 0 or 1 once the loop is entered.  It
    ends with 1 only with fences in use, from the render block of a turn
    that found the tracker full and was refused a larger array: by then
    the capacity is doubled, twice the number of slots in use, and a
    pointer that was refused is [NULL]; the frame of that turn has been
    presented, and [main] returns at once, without the run of
    destructions.  The descriptors the tracker holds at that moment, one
    per slot in use after slot 0, are left open: together with the ones
    closed before they are those held at the start and those duplicated
    during the run. *)
Theorem allocation_failure_returns_at_once (fuel inner : nat) (c : config)
    (v : main_vars) (w : W) (code : Z) (v' : main_vars) (w' : W)
    (out : list action) :
  tracker_ok v →
  main_loop fuel inner c v w [] = Some (code, v', w', out) →
  code = 0 ∨
  code = 1 ∧ egl_has_fences c = true ∧ cap v' = (2 * len v')%nat ∧
  (fds v' = [] ∨ fences v' = []) ∧
  (fds v' = [] ∨ length (fds v') = cap v') ∧
  (fences v' = [] ∨ length (fences v') = cap v') ∧
  (∃ n x, (realloc n x).1 = false) ∧
  calls Teardown out = 0%nat ∧ last out = Some EglSwapBuffers ∧
  ∃ held,
    length held = (len v' - 1)%nat ∧
    (fds v' = [] ∨ held = tracked_fds v') ∧
    closed out ++ held ≡ₚ tracked_fds v ++ duplicated_in fuel inner c v w.
Proof.
  intros Hok Hrun. destruct (Z.eq_dec code 0) as [Hcode|Hcode]; [auto|]. right.
  destruct (main_loop_failure inner c fuel _ _ _ _ _ _ _ Hok Hrun Hcode)
    as (-> & Hf & Hcap & Hnull & Hfds & Hfences & Hr & acts & -> & Hnone & Hlast).
  destruct (main_loop_descriptors inner c fuel _ _ _ _ _ _ _ Hok Hrun)
    as (acts' & held & Hacts & Hperm & _ & Hheld).
  cbn [app] in Hacts |- *. subst acts'. destruct (Hheld Hcode) as [Hn Hh].
  repeat split; auto. exists held. auto.
Qed.

End Exit.

(** ** The slots of the tracker and the calls of [poll] *)

Section Slots.
Context {W : Type} `{Platform W}.

Lemma live_fds_entries (v : main_vars) :
  tracker_ok v → live_fds v = map fst (entries v).
Proof.
  intros (Hp & Hf & Hone & Hle). unfold entries. symmetry. apply fst_zip.
  unfold live_fds, live_fences. rewrite !length_take. lia.
Qed.

Lemma Forall_key (Q : Z * Z * Fence.t → Prop) (l k : list (pollfd * Fence.t)) :
  map key l = map key k → Forall (λ e, Q (key e)) k → Forall (λ e, Q (key e)) l.
Proof.
  intros Hkey Hk.
  assert (Hk' : Forall Q (map key k)) by (apply (Forall_fmap key Q); exact Hk).
  rewrite <- Hkey in Hk'. apply (Forall_fmap key Q) in Hk'. exact Hk'.
Qed.

Lemma Forall_filter_waiting (P : pollfd * Fence.t → Prop)
    (l : list (pollfd * Fence.t)) :
  Forall P l → Forall P (List.filter waiting l).
Proof.
  intros Hl. apply Forall_forall. intros e He.
  apply list_elem_of_In, filter_In in He as [He _].
  rewrite Forall_forall in Hl. apply Hl. apply list_elem_of_In. exact He.
Qed.

Lemma slot_events (e : Z) :
  e = POLLIN ∨ e = Z.lor POLLIN POLLOUT →
  Z.lor e POLLOUT = Z.lor POLLIN POLLOUT ∧ Z.land e (Z.lnot POLLOUT) = POLLIN.
Proof. intros [-> | ->]; split; reflexivity. Qed.

Lemma slots_step (inner : nat) (c : config) (display_fd : Z) (v : main_vars)
    (w : W) v' w' out :
  tracker_ok v → slots_ok display_fd v →
  iteration inner c v w = Some (Continue, v', w', out) →
  tracker_ok v' ∧ slots_ok display_fd v'.
Proof.
  intros Hok (q0 & g0 & rest & Hes & Hfd & Hev & Hrest) Hrun.
  destruct (iteration_continue _ _ _ _ _ _ _ Hok Hrun)
    as (Hok' & p0 & f0 & p0' & old & news & polled & Hes0 & Hkey & Hes' & Hfd'
        & Hev' & Hnews & _).
  split; [exact Hok'|]. rewrite Hes in Hes0. injection Hes0 as -> -> ->.
  exists p0', f0, (List.filter waiting polled).
  split; [exact Hes'|]. split; [congruence|].
  destruct (slot_events _ Hev) as [Hor Hand]. split.
  { destruct Hev' as [-> | ->]; auto. }
  apply Forall_filter_waiting.
  apply (Forall_key (λ k, duplicated k.1.1 ∧ k.1.2 = POLLIN) _ _ Hkey).
  apply Forall_app. split; [exact Hrest|].
  eapply Forall_impl; [exact Hnews|]. cbn. tauto.
Qed.

Lemma loop_steps_slots (c : config) (display_fd : Z) (s : wl_state) (w : W)
    v' w' out' :
  loop_steps c (init_vars display_fd s, w, []) (v', w', out') →
  tracker_ok v' ∧ slots_ok display_fd v'.
Proof.
  apply (loop_steps_invariant c (λ v _, tracker_ok v ∧ slots_ok display_fd v)).
  - intros inner v0 w0 out0 v1 w1 acts [Hok Hslots] _ _ Hrun.
    eapply slots_step; eassumption.
  - split; [unfold tracker_ok; cbn; lia|].
    eexists _, _, []. split; [reflexivity|]. cbn. auto.
Qed.

(** X7.  Wherever the loop gets, slot 0 of the poll set holds the
    display socket, polled for input or for input and output, and each
    further slot in use holds a descriptor obtained by duplicating a
    fence, polled for input; the slots in use fit the allocation. *)
Theorem slot_zero_is_the_display_socket (c : config) (display_fd : Z)
    (s : wl_state) (w : W) (v' : main_vars) (w' : W) (out' : list action) :
  loop_steps c (init_vars display_fd s, w, []) (v', w', out') →
  (∃ p0, fds v' !! 0%nat = Some p0 ∧ fd p0 = display_fd ∧
         (events p0 = POLLIN ∨ events p0 = Z.lor POLLIN POLLOUT)) ∧
  Forall (λ p, duplicated (fd p) ∧ events p = POLLIN) (drop 1 (live_fds v')) ∧
  (1 ≤ len v' ≤ length (fds v'))%nat.
Proof.
  intros Hsteps.
  destruct (loop_steps_slots _ _ _ _ _ _ _ Hsteps)
    as (Hok & p0 & f0 & rest & Hes & Hfd & Hev & Hrest).
  split; [|split].
  - exists p0. split; [|auto].
    assert (He : entries v' !! 0%nat = Some (p0, f0)) by (rewrite Hes; reflexivity).
    apply lookup_entries in He as (_ & He & _). exact He.
  - rewrite (live_fds_entries v' Hok), Hes. cbn [map drop]. rewrite drop_0.
    apply Forall_fmap. exact Hrest.
  - destruct Hok as (Hp & _ & Hone & Hle). lia.
Qed.

Lemma polls_app (l k : list action) : polls (l ++ k) = polls l ++ polls k.
Proof.
  induction l as [|a l IH]; [reflexivity|].
  destruct a; cbn; rewrite IH; reflexivity.
Qed.

Lemma polls_quiet (l : list action) :
  Forall (λ a, ∀ n e t, a ≠ Poll n e t) l → polls l = [].
Proof.
  induction 1 as [|a l Ha _ IH]; [reflexivity|].
  destruct a; cbn; auto. exfalso. eapply Ha. reflexivity.
Qed.

(** The one call of [poll] in a turn, from what the flush loop
    returned. *)
Lemma iteration_polls (inner : nat) (c : config) (display_fd : Z)
    (v : main_vars) (w : W) v1 w1 out1 s2 w2 out2 ret errno w3 out3 :
  tracker_ok v → slots_ok display_fd v →
  render c v w = (Continue, v1, w1, out1) →
  prepare_read_loop inner (wl v1) w1 [] = Some (s2, w2, out2) →
  flush_loop inner w2 [] = Some (ret, errno, w3, out3) →
  let timeout := if unsynchronized c then 0 else -1 in
  (len v ≤ len v1 ≤ S (len v))%nat ∧
  ∃ o v' w' out,
    iteration inner c v w = Some (o, v', w', out) ∧
    (length (polls out) ≤ 1)%nat ∧
    (ret = -1 → errno ≠ EAGAIN → polls out = []) ∧
    (ret = -1 → errno = EAGAIN →
     polls out = [(len v1, Z.lor POLLIN POLLOUT, timeout)]) ∧
    (ret ≠ -1 → polls out = [(len v1, POLLIN, timeout)]).
Proof.
  intros Hok (q0 & g0 & rest & Hes & Hfd & Hev & Hrest) Hrender Hprep Hflush timeout.
  pose proof (render_spec _ _ _ _ _ _ _ Hrender) as (Hd1 & _).
  assert (Hq1 : polls out1 = []) by (apply polls_quiet; quiet Hd1).
  destruct (middle_quiet _ _ _ _ _ _ _ _ _ _ _ Hprep Hflush) as (_ & _ & _ & Hq23).
  assert (Hq : polls (out2 ++ out3) = []).
  { apply polls_quiet. eapply Forall_impl; [exact Hq23|]. cbn. tauto. }
  destruct (render_entries _ _ _ _ _ _ _ Hok Hrender) as (_ & _ & Hcont & _).
  destruct (Hcont eq_refl) as (Hok1 & news & Hes1 & _ & Hlen & Hlen1 & _).
  split; [destruct (_ && _) in Hlen; lia|].
  unfold iteration. rewrite Hrender, Hprep, Hflush. cbn [fds set_wl].
  destruct (after_flush ret errno (fds v1)) as [l|] eqn:Hafter.
  2: { eexists _, _, _, _. split; [reflexivity|].
       rewrite !polls_app, Hq1. rewrite polls_app in Hq.
       apply app_eq_nil in Hq as [-> ->]. cbn.
       unfold after_flush in Hafter.
       destruct (Z.eqb_spec ret (-1)) as [Hret|Hret]; [|discriminate].
       destruct (Z.eqb_spec errno EAGAIN) as [Herr|Herr]; [discriminate|].
       repeat split; auto; intros; try contradiction; lia. }
  destruct (after_flush_entries ret errno v1 l s2 Hok1 Hafter)
    as (Hok2 & p0 & f0 & rest1 & Hes1' & Hes2).
  assert (Hp0 : p0 = q0).
  { rewrite Hes1', Hes in Hes1. cbn [app] in Hes1. congruence. }
  subst p0.
  destruct (wait c (set_fds l (set_wl s2 v1)) w3) as [[[o4 v4] w4] out4] eqn:Hwait.
  destruct (wait_entries _ _ _ _ _ _ _ Hok2 Hwait)
    as (_ & _ & _ & _ & tl & Hout4 & Htl).
  pose proof (wait_spec _ _ _ _ _ _ _ Hwait) as (_ & _ & _ & _ & _ & _ & _ & Ho4).
  assert (He : entries (set_fds l (set_wl s2 v1)) !! 0%nat
               = Some (set_events (if ret =? -1 then Z.lor (events q0) POLLOUT
                                   else Z.land (events q0) (Z.lnot POLLOUT)) q0, f0))
    by (rewrite Hes2; reflexivity).
  apply lookup_entries in He as (_ & He & _). rewrite He in Hout4.
  cbn [default from_option id fst events set_events len set_fds set_wl] in Hout4.
  destruct (slot_events _ Hev) as [Hor Hand]. rewrite Hor, Hand in Hout4.
  fold timeout in Hout4.
  assert (Hq4 : polls out4 = [(len v1, if ret =? -1 then Z.lor POLLIN POLLOUT
                                       else POLLIN, timeout)]).
  { rewrite Hout4. cbn [polls]. rewrite polls_quiet; [reflexivity|].
    eapply Forall_impl; [exact Htl|]. cbn. intros a [-> | ->]; discriminate. }
  assert (Hcases : ∀ out5, polls out5 = [] →
            let out := (out1 ++ out2 ++ out3) ++ out4 ++ out5 in
            (length (polls out) ≤ 1)%nat ∧
            (ret = -1 → errno ≠ EAGAIN → polls out = []) ∧
            (ret = -1 → errno = EAGAIN →
             polls out = [(len v1, Z.lor POLLIN POLLOUT, timeout)]) ∧
            (ret ≠ -1 → polls out = [(len v1, POLLIN, timeout)])).
  { intros out5 Hq5 out. subst out. rewrite !polls_app, Hq1, Hq4, Hq5.
    rewrite polls_app in Hq. apply app_eq_nil in Hq as [-> ->]. cbn [app length].
    split; [lia|]. unfold after_flush in Hafter.
    destruct (Z.eqb_spec ret (-1)) as [Hret|Hret].
    - destruct (Z.eqb_spec errno EAGAIN) as [Herr|Herr]; [|discriminate].
      repeat split; auto; intros; contradiction.
    - repeat split; auto; intros; contradiction. }
  unfold after_wait. destruct Ho4 as [-> | ->].
  - destruct (read_and_reap_total v4 w4) as [[[v5 w5] out5] Hreap]. rewrite Hreap.
    eexists _, _, _, _. split; [reflexivity|]. apply Hcases.
    apply read_and_reap_spec in Hreap as (Ht5 & _). apply polls_quiet. quiet Ht5.
  - eexists _, _, _, _. split; [reflexivity|].
    specialize (Hcases [] eq_refl). rewrite !app_nil_r in Hcases. exact Hcases.
Qed.

(** X8.  In a turn that gets past the render block, once the two loops
    that follow have returned, the turn completes; [poll] is called at
    most once in it, on the slots in use after the render block, without
    timeout in synchronized mode and without waiting in unsynchronized
    mode; it asks the display socket for input alone when the last flush
    did not return [-1], for input and output when it returned [-1] with
    [EAGAIN]; and it is not called when the flush failed otherwise. *)
Theorem poll_asks_for_output_after_eagain (c : config) (display_fd : Z)
    (s : wl_state) (w : W) (v' : main_vars) (w' : W) (out' : list action)
    (inner : nat) (v1 : main_vars) (w1 w2 w3 : W) (s2 : wl_state)
    (out1 out2 out3 : list action) (ret errno : Z) :
  loop_steps c (init_vars display_fd s, w, []) (v', w', out') →
  render c v' w' = (Continue, v1, w1, out1) →
  prepare_read_loop inner (wl v1) w1 [] = Some (s2, w2, out2) →
  flush_loop inner w2 [] = Some (ret, errno, w3, out3) →
  let timeout := if unsynchronized c then 0 else -1 in
  (len v' ≤ len v1 ≤ S (len v'))%nat ∧
  ∃ o v'' w'' acts,
    iteration inner c v' w' = Some (o, v'', w'', acts) ∧
    (length (polls acts) ≤ 1)%nat ∧
    (ret = -1 → errno ≠ EAGAIN → polls acts = []) ∧
    (ret = -1 → errno = EAGAIN →
     polls acts = [(len v1, Z.lor POLLIN POLLOUT, timeout)]) ∧
    (ret ≠ -1 → polls acts = [(len v1, POLLIN, timeout)]).
Proof.
  intros Hsteps Hrender Hprep Hflush.
  destruct (loop_steps_slots _ _ _ _ _ _ _ Hsteps) as (Hok & Hslots).
  eapply iteration_polls; eassumption.
Qed.

End Slots.

(** ** Frames drawn, tracked and reported *)

Section Accounting.
Context {W : Type} `{Platform W}.

Lemma entries_nonempty (v : main_vars) :
  tracker_ok v → length (entries v) = len v.
Proof. intros (Hp & Hf & Hone & Hle). apply length_entries; lia. Qed.

(** The frames drawn between two tests of the loop condition are those
    the frame counter has counted. *)
Lemma loop_steps_drawn (c : config) (v : main_vars) (w : W) v' w' out' :
  loop_steps c (v, w, []) (v', w', out') →
  frame_num v ≤ frame_num v' ∧
  drawn out' = seqZ (frame_num v) (frame_num v' - frame_num v).
Proof.
  apply (loop_steps_invariant c
           (λ v1 out, frame_num v ≤ frame_num v1 ∧
                      drawn out = seqZ (frame_num v) (frame_num v1 - frame_num v))).
  - intros inner v0 w0 out0 v1 w1 acts [Hpos Hdrawn] _ _ Hrun.
    apply iteration_spec in Hrun as (_ & Hd & _ & Hnum & _).
    destruct Hnum as [[_ Hnum]|[[=] _]]. rewrite drawn_app, Hd, Hdrawn, Hnum.
    destruct (unsynchronized c || negb (frame (wl v0))).
    + split; [lia|].
      replace (frame_num v0 + 1 - frame_num v)
        with ((frame_num v0 - frame_num v) + 1) by lia.
      rewrite (seqZ_app (frame_num v) (frame_num v0 - frame_num v) 1) by lia.
      f_equal. rewrite seqZ_cons by lia. cbn. f_equal. lia.
    + rewrite app_nil_r, Z.add_0_r. auto.
  - rewrite Z.sub_diag. split; [lia|reflexivity].
Qed.

(** X9.  Wherever the loop gets, in either mode, the frames drawn so
    far are the frames [0] to [frame_num - 1], in this order, each drawn
    once. *)
Theorem frames_drawn_are_counted (c : config) (display_fd : Z) (s : wl_state)
    (w : W) (v' : main_vars) (w' : W) (out' : list action) :
  loop_steps c (init_vars display_fd s, w, []) (v', w', out') →
  0 ≤ frame_num v' ∧ drawn out' = seqZ 0 (frame_num v').
Proof.
  intros Hsteps. apply loop_steps_drawn in Hsteps as [Hpos Hdrawn].
  cbn [frame_num init_vars] in *. rewrite Z.sub_0_r in Hdrawn. auto.
Qed.

(** X10.  Without the fence extension nothing is ever tracked: wherever
    the loop gets, slot 0 is the only slot in use, the arrays keep their
    ten slots, and no descriptor has been closed and no latency line
    printed. *)
Theorem without_fences_nothing_is_tracked (c : config) (display_fd : Z)
    (s : wl_state) (w : W) (v' : main_vars) (w' : W) (out' : list action) :
  egl_has_fences c = false →
  loop_steps c (init_vars display_fd s, w, []) (v', w', out') →
  len v' = 1%nat ∧ cap v' = 10%nat ∧ closed out' = [] ∧ printed out' = [].
Proof.
  intros Hf Hsteps.
  enough (Hinv : tracker_ok v' ∧ len v' = 1%nat ∧ cap v' = 10%nat ∧
                 closed out' = [] ∧ printed out' = []) by tauto.
  revert Hsteps.
  apply (loop_steps_invariant c
           (λ v out, tracker_ok v ∧ len v = 1%nat ∧ cap v = 10%nat ∧
                     closed out = [] ∧ printed out = [])).
  - intros inner v0 w0 out0 v1 w1 acts (Hok & Hlen & Hcap & Hc & Hp) _ _ Hrun.
    destruct (iteration_continue _ _ _ _ _ _ _ Hok Hrun)
      as (Hok1 & p0 & f0 & p0' & old & news & polled & Hes & Hkey & Hes1 & _ & _
          & _ & Hnews & Hcap1 & Hclosed & Hprinted & _).
    rewrite Hf, andb_false_r in Hnews. destruct news; [|discriminate].
    pose proof (entries_nonempty v0 Hok) as Hn. rewrite Hes, Hlen in Hn.
    destruct old; [|discriminate]. destruct polled; [|discriminate].
    pose proof (entries_nonempty v1 Hok1) as Hn1. rewrite Hes1 in Hn1.
    cbn in Hn1, Hclosed, Hprinted.
    rewrite closed_app, printed_app, Hc, Hp, Hclosed, Hprinted.
    repeat split; auto; try apply Hok1. destruct Hcap1 as [->|[_ Hfull]]; lia.
  - unfold tracker_ok. cbn. repeat split; lia.
Qed.

Lemma news_frames (c : config) (v : main_vars) (news : list (pollfd * Fence.t)) :
  let gate := unsynchronized c || negb (frame (wl v)) in
  Forall (λ e, duplicated (fd e.1) ∧ events e.1 = POLLIN ∧
               Fence.frame_num e.2 = frame_num v) news →
  length news = (if gate && egl_has_fences c then 1 else 0)%nat →
  map (λ e, Fence.frame_num e.2) news
  = if gate && egl_has_fences c then [frame_num v] else [].
Proof.
  intros gate Hnews Hlen. destruct (gate && egl_has_fences c).
  - destruct news as [|e [|e' news]]; try discriminate.
    apply Forall_cons in Hnews as [(_ & _ & He) _]. cbn. rewrite He. reflexivity.
  - destruct news; [reflexivity|discriminate].
Qed.

(** X11.  With the fence extension, wherever the loop gets, every frame
    drawn so far is either still in the tracker or has been reported by
    one latency line, and nothing else is tracked or reported; the slots
    in use are slot 0 and one per frame drawn and not yet reported. *)
Theorem every_frame_is_tracked_or_reported (c : config) (display_fd : Z)
    (s : wl_state) (w : W) (v' : main_vars) (w' : W) (out' : list action) :
  egl_has_fences c = true →
  loop_steps c (init_vars display_fd s, w, []) (v', w', out') →
  printed out' ++ tracked v' ≡ₚ drawn out' ∧
  (len v' + length (printed out') = 1 + length (drawn out'))%nat.
Proof.
  intros Hf Hsteps.
  assert (Hinv : tracker_ok v' ∧ printed out' ++ tracked v' ≡ₚ drawn out').
  { revert Hsteps.
    apply (loop_steps_invariant c
             (λ v out, tracker_ok v ∧ printed out ++ tracked v ≡ₚ drawn out)).
    - intros inner v0 w0 out0 v1 w1 acts (Hok & Hperm) _ _ Hrun.
      pose proof (iteration_spec _ _ _ _ _ _ _ _ Hrun) as (_ & Hd & _).
      destruct (iteration_continue _ _ _ _ _ _ _ Hok Hrun)
        as (Hok1 & p0 & f0 & p0' & old & news & polled & Hes & Hkey & Hes1 & _ & _
            & Hnews & Hlen & _ & _ & Hprinted & _).
      split; [exact Hok1|].
      pose proof (news_frames c v0 news Hnews Hlen) as Hnf.
      rewrite Hf, andb_true_r in Hnf.
      rewrite (tracked_entries v1 Hok1), Hes1. cbn [drop]. rewrite drop_0.
      rewrite (tracked_entries v0 Hok), Hes in Hperm. cbn [drop] in Hperm.
      rewrite drop_0 in Hperm.
      rewrite printed_app, drawn_app, Hprinted, <- app_assoc.
      rewrite (split_ready_perm (λ e, Fence.frame_num e.2) polled).
      rewrite (key_frame _ _ Hkey), map_app, Hnf, app_assoc, Hperm, Hd.
      reflexivity.
    - split; [unfold tracker_ok; cbn; lia|reflexivity]. }
  destruct Hinv as [Hok Hperm]. split; [exact Hperm|].
  apply Permutation_length in Hperm. rewrite length_app in Hperm.
  destruct Hok as (_ & Hfl & Hone & Hle). unfold tracked, live_fences in Hperm.
  rewrite length_map, length_drop, length_take in Hperm. lia.
Qed.

(** X12.  Wherever the loop gets, both arrays have exactly [cap] slots,
    the slots in use fit them, and [cap] is ten times a power of two:
    the arrays are only ever doubled, never shrunk. *)
Theorem capacity_only_doubles (c : config) (display_fd : Z) (s : wl_state)
    (w : W) (v' : main_vars) (w' : W) (out' : list action) :
  loop_steps c (init_vars display_fd s, w, []) (v', w', out') →
  length (fds v') = cap v' ∧ length (fences v') = cap v' ∧
  (1 ≤ len v' ≤ cap v')%nat ∧ ∃ k : nat, cap v' = (10 * 2 ^ k)%nat.
Proof.
  intros Hsteps.
  enough (Hinv : tracker_ok v' ∧ ∃ k : nat, cap v' = (10 * 2 ^ k)%nat).
  { destruct Hinv as [(Hp & Hfl & Hlen) Hcap]. auto. }
  revert Hsteps.
  apply (loop_steps_invariant c
           (λ v _, tracker_ok v ∧ ∃ k : nat, cap v = (10 * 2 ^ k)%nat)).
  - intros inner v0 w0 out0 v1 w1 acts (Hok & k & Hcap) _ _ Hrun.
    destruct (iteration_continue _ _ _ _ _ _ _ Hok Hrun)
      as (Hok1 & p0 & f0 & p0' & old & news & polled & _ & _ & _ & _ & _
          & _ & _ & Hcap1 & _).
    split; [exact Hok1|]. destruct Hcap1 as [->|[-> _]].
    + exists k. exact Hcap.
    + exists (S k). rewrite Hcap, Nat.pow_succ_r'. lia.
  - split; [unfold tracker_ok; cbn; lia|]. exists 0%nat. reflexivity.
Qed.

End Accounting.

(** ** Pacing by frame callbacks *)

Section Pacing.
Context {W : Type} `{Platform W}.

Lemma calls_single_eq (a : action) : calls a [a] = 1%nat.
Proof. unfold calls. rewrite count_occ_cons_eq by reflexivity. reflexivity. Qed.

Lemma outstanding_calls (out : list action) :
  outstanding out
  = Z.of_nat (calls WlSurfaceFrame out) - Z.of_nat (calls WlCallbackDestroy out).
Proof.
  induction out as [|a out IH]; [reflexivity|].
  change (a :: out) with ([a] ++ out). rewrite outstanding_app, !calls_app, IH.
  destruct a; cbn [outstanding];
    rewrite ?calls_single_eq, ?calls_single_ne by discriminate; lia.
Qed.

Lemma draw_frame_calls (c : config) (v : main_vars) (w : W) :
  calls WlSurfaceFrame (draw c v w).2
  = if unsynchronized c then 0%nat else 1%nat.
Proof.
  destruct (draw_spec c v w) as (s & start & w1 & -> & _). cbn [snd].
  rewrite !calls_app, (calls_quiet _ (resize_window c (wl v)).2).
  - destruct (unsynchronized c); reflexivity.
  - destruct (Z.eq_dec (serial (wl v)) 0) as [Hz|Hz].
    + rewrite resize_window_idle by exact Hz. constructor.
    + rewrite resize_window_pending by exact Hz. repeat constructor; discriminate.
Qed.

Lemma render_frame_calls (c : config) (v : main_vars) (w : W) :
  unsynchronized c = false →
  calls WlSurfaceFrame (render c v w).2 = length (drawn (render c v w).2).
Proof.
  intros Hsync. unfold render.
  destruct (unsynchronized c || negb (frame (wl v))); [|reflexivity].
  unfold submit.
  pose proof (draw_frame_calls c v w) as Hcalls.
  destruct (draw_actions c v w) as (_ & Hdrawn & _).
  destruct (draw c v w) as [[[v1 start] w1] out1]. cbn [snd] in *.
  rewrite Hsync in Hcalls.
  destruct (egl_has_fences c);
    [destruct (track start v1 w1) as [[[] v2] w2]|]; cbn [snd];
    rewrite Hcalls, Hdrawn; reflexivity.
Qed.

Lemma iteration_frame_calls (inner : nat) (c : config) (v : main_vars) (w : W)
    o v' w' out :
  unsynchronized c = false →
  iteration inner c v w = Some (o, v', w', out) →
  calls WlSurfaceFrame out = length (drawn out).
Proof.
  intros Hsync Hrun. apply iteration_origin in Hrun as (rest & -> & _ & Hrest).
  rewrite calls_app, drawn_app, length_app, (render_frame_calls c v w Hsync).
  rewrite (calls_quiet _ rest), (drawn_quiet rest); [reflexivity| |].
  - eapply Forall_impl; [exact Hrest|]. cbn. intros a [Ha _] f x y ->. discriminate.
  - eapply Forall_impl; [exact Hrest|]. cbn. intros a [Ha _] ->. discriminate.
Qed.

Lemma dispatch_all_no_done (es : list event) (s : wl_state) :
  (∀ time, wl_callback_done time ∉ es) →
  calls WlCallbackDestroy (dispatch_all es s).2 = 0%nat.
Proof.
  revert s. induction es as [|e es IH]; intros s Hes; [reflexivity|].
  cbn [dispatch_all].
  assert (He : calls WlCallbackDestroy (dispatch e s).2 = 0%nat).
  { destruct e; try reflexivity. exfalso. eapply Hes. apply list_elem_of_here. }
  destruct (dispatch e s) as [s1 out1]. cbn [snd] in He.
  specialize (IH s1 ltac:(intros t Ht; apply (Hes t), list_elem_of_further, Ht)).
  destruct (dispatch_all es s1) as [s2 out2]. cbn [snd] in *.
  rewrite calls_app, He, IH. reflexivity.
Qed.

Lemma prepare_read_loop_no_done (fuel : nat) :
  no_done →
  ∀ (s : wl_state) (w : W) (out0 : list action) s' w' out,
    prepare_read_loop fuel s w out0 = Some (s', w', out) →
    calls WlCallbackDestroy out = calls WlCallbackDestroy out0.
Proof.
  intros Hno.
  induction fuel as [|fuel IH]; intros s w out0 s' w' out Hrun; [discriminate|].
  cbn [prepare_read_loop] in Hrun.
  destruct (wl_display_prepare_read w) as [[ret errno] w1].
  destruct (negb (ret =? 0) && (errno =? EAGAIN)).
  - pose proof (Hno w1) as Hes.
    destruct (wl_display_dispatch_pending w1) as [es w2]. cbn [fst] in Hes.
    pose proof (dispatch_all_no_done es s Hes) as Hd.
    destruct (dispatch_all es s) as [s1 acts1]. cbn [snd] in Hd.
    apply IH in Hrun. rewrite Hrun.
    change (WlDisplayDispatchPending :: acts1)
      with ([WlDisplayDispatchPending] ++ acts1).
    rewrite !calls_app, Hd, !calls_single_ne by discriminate. lia.
  - injection Hrun as <- <- <-. rewrite calls_app, calls_single_ne by discriminate.
    lia.
Qed.

Lemma read_and_reap_no_done (v : main_vars) (w : W) v' w' out :
  no_done → read_and_reap v w = Some (v', w', out) →
  calls WlCallbackDestroy out = 0%nat.
Proof.
  intros Hno Hrun. unfold read_and_reap, reap in Hrun.
  pose proof (Hno w) as Hes.
  destruct (wl_display_dispatch_pending w) as [es w1]. cbn [fst] in Hes.
  pose proof (dispatch_all_no_done es (wl v) Hes) as Hd.
  destruct (dispatch_all es (wl v)) as [s acts]. cbn [snd] in Hd.
  destruct (reap_loop _ 1 (set_wl s v) w1 []) as [[[v1 w2] out1]|] eqn:Hreap;
    [|discriminate].
  injection Hrun as <- <- <-.
  apply reap_loop_quiet in Hreap as (acts1 & -> & Hall & _). cbn [app].
  change (WlDisplayReadEvents :: WlDisplayDispatchPending :: acts ++ acts1)
    with ([WlDisplayReadEvents; WlDisplayDispatchPending] ++ acts ++ acts1).
  rewrite !calls_app, Hd, (calls_quiet _ acts1); [reflexivity|quiet Hall].
Qed.

Lemma iteration_no_done (inner : nat) (c : config) (v : main_vars) (w : W)
    o v' w' out :
  no_done → iteration inner c v w = Some (o, v', w', out) →
  calls WlCallbackDestroy out = 0%nat.
Proof.
  intros Hno Hrun.
  apply iteration_cases in Hrun as (o1 & v1 & w1 & out1 & Hrender & Hcase).
  pose proof (render_spec _ _ _ _ _ _ _ Hrender) as (Hd1 & _).
  assert (Hq1 : calls WlCallbackDestroy out1 = 0%nat)
    by (apply calls_quiet; quiet Hd1).
  destruct Hcase as [(_ & _ & _ & _ & ->)|(-> & Hcase)]; [exact Hq1|].
  destruct Hcase as (s2 & w2 & out2 & ret & errno & w3 & out3 & Hprep & Hflush & Hcase).
  apply (prepare_read_loop_no_done _ Hno) in Hprep. cbn in Hprep.
  apply flush_loop_spec in Hflush as (_ & ? & -> & Ht3). cbn [app] in *.
  assert (Hq3 : calls WlCallbackDestroy x = 0%nat)
    by (apply calls_quiet; quiet Ht3).
  destruct Hcase as [(_ & _ & _ & _ & ->)|Hcase].
  { rewrite !calls_app, Hq1, Hprep, Hq3. reflexivity. }
  destruct Hcase as (l & o4 & v4 & w4 & out4 & _ & Hwait & Hcase).
  apply wait_spec in Hwait as (Ht4 & _).
  assert (Hq4 : calls WlCallbackDestroy out4 = 0%nat)
    by (apply calls_quiet; quiet Ht4).
  destruct Hcase as [(_ & _ & _ & _ & ->)|(_ & _ & out5 & Hreap & ->)].
  - rewrite !calls_app, Hq1, Hprep, Hq3, Hq4. reflexivity.
  - apply (read_and_reap_no_done _ _ _ _ _ Hno) in Hreap.
    rewrite !calls_app, Hq1, Hprep, Hq3, Hq4, Hreap. reflexivity.
Qed.

(** In synchronized mode every frame drawn comes with the request of a
    frame callback, and at most one request is not yet answered. *)
Lemma loop_steps_pacing (c : config) (v : main_vars) (w : W) v' w' out' :
  unsynchronized c = false → frame (wl v) = false →
  loop_steps c (v, w, []) (v', w', out') →
  length (drawn out') = calls WlSurfaceFrame out' ∧
  (calls WlSurfaceFrame out'
   = calls WlCallbackDestroy out' + (if frame (wl v') then 1 else 0))%nat.
Proof.
  intros Hsync Hframe Hsteps.
  assert (Hcb : callback_run false out' = Some (frame (wl v'))).
  { eapply loop_steps_callbacks; [|exact Hsteps]. cbn. rewrite Hframe. reflexivity. }
  destruct (callback_run_outstanding _ _ out' out' [] Hcb) as [Hcount _];
    [rewrite app_nil_r; reflexivity|].
  rewrite outstanding_calls in Hcount.
  split; [|destruct (frame (wl v')); lia].
  revert Hsteps.
  apply (loop_steps_invariant c
           (λ _ out, length (drawn out) = calls WlSurfaceFrame out));
    [|reflexivity].
  intros inner v0 w0 out0 v1 w1 acts Hinv _ _ Hrun.
  rewrite drawn_app, length_app, calls_app, Hinv.
  rewrite (iteration_frame_calls _ _ _ _ _ _ _ _ Hsync Hrun). reflexivity.
Qed.

(** X13.  In synchronized mode, from a start with no frame callback,
    wherever the loop gets, it has drawn as many frames as it has
    requested frame callbacks, and that is the number of callbacks the
    server has completed, plus one while a callback is outstanding: the
    client never runs more than one frame ahead of the server. *)
Theorem synchronized_frames_follow_callbacks (c : config) (v : main_vars)
    (w : W) (v' : main_vars) (w' : W) (out' : list action) :
  unsynchronized c = false → frame (wl v) = false →
  loop_steps c (v, w, []) (v', w', out') →
  length (drawn out') = calls WlSurfaceFrame out' ∧
  (calls WlSurfaceFrame out'
   = calls WlCallbackDestroy out' + (if frame (wl v') then 1 else 0))%nat ∧
  (length (drawn out') ≤ calls WlCallbackDestroy out' + 1)%nat.
Proof.
  intros Hsync Hframe Hsteps.
  destruct (loop_steps_pacing _ _ _ _ _ _ Hsync Hframe Hsteps) as [Hd Hc].
  split; [exact Hd|]. split; [exact Hc|]. destruct (frame (wl v')); lia.
Qed.

(** X14.  In synchronized mode, when the server never completes a frame
    callback, the loop draws its first frame and no other, however many
    turns it takes: once a frame is drawn the callback stays
    outstanding. *)
Theorem silent_server_gets_one_frame (c : config) (v : main_vars) (w : W)
    (v' : main_vars) (w' : W) (out' : list action) :
  unsynchronized c = false → frame (wl v) = false → no_done →
  loop_steps c (v, w, []) (v', w', out') →
  calls WlCallbackDestroy out' = 0%nat ∧
  drawn out' = (if frame (wl v') then [frame_num v] else []) ∧
  frame_num v' = frame_num v + (if frame (wl v') then 1 else 0).
Proof.
  intros Hsync Hframe Hno Hsteps.
  destruct (loop_steps_pacing _ _ _ _ _ _ Hsync Hframe Hsteps) as [Hd Hc].
  assert (Hnone : calls WlCallbackDestroy out' = 0%nat).
  { revert Hsteps.
    apply (loop_steps_invariant c (λ _ out, calls WlCallbackDestroy out = 0%nat));
      [|reflexivity].
    intros inner v0 w0 out0 v1 w1 acts Hinv _ _ Hrun.
    rewrite calls_app, Hinv, (iteration_no_done _ _ _ _ _ _ _ _ Hno Hrun).
    reflexivity. }
  split; [exact Hnone|]. rewrite Hnone in Hc. rewrite Hc in Hd.
  apply loop_steps_drawn in Hsteps as [Hpos Hdrawn].
  rewrite Hdrawn, length_seqZ in Hd. rewrite Hdrawn.
  destruct (frame (wl v')); cbn in Hd.
  - replace (frame_num v' - frame_num v) with 1 by lia. split; [reflexivity|lia].
  - replace (frame_num v' - frame_num v) with 0 by lia. split; [reflexivity|lia].
Qed.

End Pacing.

(** ** What a turn draws *)

Section Drawing.
Context {W : Type} `{Platform W}.

Lemma applied_nonzero (fixed : bool) (fixed_dim negotiated : Z) :
  applied fixed fixed_dim negotiated ≠ 0.
Proof.
  unfold applied. destruct fixed.
  - destruct (Z.eqb_spec fixed_dim 0); [discriminate|assumption].
  - destruct (Z.eqb_spec negotiated 0); [discriminate|assumption].
Qed.

Lemma render_drawing (c : config) (v : main_vars) (w : W) :
  Forall resize_ok (render c v w).2 ∧
  (length (acks (render c v w).2) ≤ 1)%nat ∧
  (calls EglSwapBuffers (render c v w).2 ≤ 1)%nat.
Proof.
  unfold render.
  destruct (unsynchronized c || negb (frame (wl v)));
    [|cbn; repeat split; [constructor|lia|lia]].
  unfold submit. destruct (draw_spec c v w) as (s & start & w1 & -> & _).
  set (out := _ ++ _ ++ _).
  assert (Hout : Forall resize_ok out ∧ (length (acks out) ≤ 1)%nat ∧
                 (calls EglSwapBuffers out ≤ 1)%nat).
  { subst out. rewrite !acks_app, !calls_app, !length_app.
    destruct (Z.eq_dec (serial (wl v)) 0) as [Hz|Hz].
    - rewrite resize_window_idle by exact Hz.
      destruct (unsynchronized c); cbn; repeat split; try lia;
        repeat constructor.
    - rewrite resize_window_pending by exact Hz.
      destruct (unsynchronized c); cbn; repeat split; try lia;
        repeat constructor; apply applied_nonzero. }
  destruct (egl_has_fences c);
    [destruct (track start (set_wl s v) w1) as [[[] v2] w2]|]; exact Hout.
Qed.

(** X15.  Whatever its outcome, a turn of the loop presents at most one
    frame and acknowledges at most one configure serial, and when it
    resizes the drawable it gives it no dimension of 0. *)
Theorem a_turn_never_resizes_to_zero (inner : nat) (c : config)
    (v : main_vars) (w : W) (o : outcome) (v' : main_vars) (w' : W)
    (out : list action) :
  iteration inner c v w = Some (o, v', w', out) →
  Forall resize_ok out ∧
  (length (acks out) ≤ 1)%nat ∧
  (calls EglSwapBuffers out ≤ 1)%nat.
Proof.
  intros Hrun. apply iteration_origin in Hrun as (rest & -> & _ & Hrest).
  destruct (render_drawing c v w) as (Hres & Hack & Hswap).
  assert (Hq : Forall (λ a, resize_ok a ∧ a ≠ EglSwapBuffers ∧
                            ∀ x, a ≠ XdgSurfaceAckConfigure x) rest).
  { eapply Forall_impl; [exact Hrest|]. cbn. intros a [Ha _].
    destruct a; cbn in Ha |- *; try discriminate; repeat split; congruence. }
  assert (Hacks : acks rest = []).
  { clear -Hq. induction Hq as [|a l (_ & _ & Ha) _ IH]; [reflexivity|].
    destruct a; cbn; auto. exfalso. eapply Ha. reflexivity. }
  rewrite acks_app, calls_app, Hacks, app_nil_r, (calls_quiet _ rest).
  - split; [|split; [exact Hack|lia]]. apply Forall_app. split; [exact Hres|].
    eapply Forall_impl; [exact Hq|]. cbn. tauto.
  - eapply Forall_impl; [exact Hq|]. cbn. tauto.
Qed.

End Drawing.

(** ** The listeners *)

Section Listeners.

Lemma pongs_app (l k : list action) : pongs (l ++ k) = pongs l ++ pongs k.
Proof.
  induction l as [|a l IH]; [reflexivity|].
  destruct a; cbn; rewrite IH; reflexivity.
Qed.

(** X20.  Dispatching a batch of events answers each ping with one pong
    of the same serial, in the order of arrival; it leaves in the state
    the last serial and the last size the batch configures, the earlier
    ones being overwritten unseen; it sets the close flag when the batch
    holds a close request and never clears it; and it destroys the frame
    callback, once, exactly when one is outstanding and the batch holds
    a [done]. *)
Theorem listeners_keep_the_last_configure (es : list event) (s : wl_state) :
  pongs (dispatch_all es s).2 = pings es ∧
  serial (dispatch_all es s).1 = last_serial es (serial s) ∧
  (width (dispatch_all es s).1, height (dispatch_all es s).1)
  = last_size es (width s, height s) ∧
  close (dispatch_all es s).1 = close s || existsb is_close es ∧
  frame (dispatch_all es s).1 = frame s && negb (existsb is_done es) ∧
  calls WlCallbackDestroy (dispatch_all es s).2
  = (if frame s && existsb is_done es then 1 else 0)%nat.
Proof.
  revert s. induction es as [|e es IH]; intros s.
  { cbn. rewrite orb_false_r, !andb_true_r, andb_false_r. auto 7. }
  cbn [dispatch_all]. unfold last_serial, last_size in *. cbn [foldl existsb].
  assert (He : pongs (dispatch e s).2 = pings [e] ∧
               serial (dispatch e s).1
               = match e with xdg_surface_configure x => x | _ => serial s end ∧
               (width (dispatch e s).1, height (dispatch e s).1)
               = match e with
                 | xdg_toplevel_configure w h => (w, h)
                 | _ => (width s, height s)
                 end ∧
               close (dispatch e s).1 = close s || is_close e ∧
               frame (dispatch e s).1 = frame s && negb (is_done e) ∧
               calls WlCallbackDestroy (dispatch e s).2
               = (if frame s && is_done e then 1 else 0)%nat).
  { destruct e; cbn; rewrite ?orb_false_r, ?orb_true_r, ?andb_true_r, ?andb_false_r;
      try (repeat split; reflexivity).
    destruct (frame s) eqn:Hfr; cbn; rewrite ?Hfr; repeat split; reflexivity. }
  destruct He as (Hp & Hs & Hwh & Hc & Hf & Hd).
  destruct (dispatch e s) as [s1 out1]. cbn [fst snd] in *.
  destruct (IH s1) as (Hp' & Hs' & Hwh' & Hc' & Hf' & Hd').
  destruct (dispatch_all es s1) as [s2 out2]. cbn [fst snd] in *.
  rewrite pongs_app, calls_app, Hp, Hp', Hs', Hwh', Hc', Hf', Hd, Hd', Hs, Hwh, Hc, Hf.
  split; [destruct e; reflexivity|]. split; [reflexivity|]. split; [reflexivity|].
  split; [rewrite orb_assoc; reflexivity|].
  split; [rewrite negb_orb, andb_assoc; reflexivity|].
  destruct (frame s), (is_done e), (existsb is_done es); reflexivity.
Qed.

End Listeners.

(** ** The unsynchronized loop runs to the frame limit *)

Section FrameLimit.
Context {W : Type} `{Platform W}.










End FrameLimit.

(** ** Fatal transport errors *)

Section Fatal.
Context {W : Type} `{Platform W}.

Lemma after_flush_slot (ret errno : Z) (l : list pollfd) (p0 : pollfd) :
  l !! 0%nat = Some p0 →
  after_flush ret errno l
  = if (ret =? -1) && negb (errno =? EAGAIN) then None
    else Some (<[0%nat := set_events
                            (if ret =? -1 then Z.lor (events p0) POLLOUT
                             else Z.land (events p0) (Z.lnot POLLOUT)) p0]> l).
Proof.
  intros Hp. unfold after_flush, arm_pollout, disarm_pollout. rewrite Hp.
  destruct (ret =? -1), (errno =? EAGAIN); reflexivity.
Qed.

Lemma cancel_free (inner : nat) (c : config) (v : main_vars) (w : W)
    o1 v1 w1 out1 s2 w2 out2 ret errno w3 out3 :
  render c v w = (o1, v1, w1, out1) →
  prepare_read_loop inner (wl v1) w1 [] = Some (s2, w2, out2) →
  flush_loop inner w2 [] = Some (ret, errno, w3, out3) →
  calls WlDisplayCancelRead (out1 ++ out2 ++ out3) = 0%nat.
Proof.
  intros Hrender Hprep Hflush.
  pose proof (render_spec _ _ _ _ _ _ _ Hrender) as (Hd1 & _).
  apply prepare_read_loop_spec in Hprep as (? & -> & Ht2 & _).
  apply flush_loop_spec in Hflush as (_ & ? & -> & Ht3). cbn [app].
  rewrite !calls_app, !calls_quiet; [reflexivity|quiet Ht3|quiet Ht2|quiet Hd1].
Qed.

Lemma main_loop_break (fuel inner : nat) (c : config) (v : main_vars) (w : W)
    (out0 : list action) v' w' acts :
  close (wl v) = false → frame_num v < max_frames c →
  iteration inner c v w = Some (Break, v', w', acts) →
  main_loop (S fuel) inner c v w out0
  = Some (0, v', w', out0 ++ acts ++ teardown v').
Proof.
  intros Hclose Hnum Hiter. cbn [main_loop]. rewrite Hclose, Hiter.
  cbn [negb andb].
  destruct (Z.ltb_spec (frame_num v) (max_frames c)); [reflexivity|lia].
Qed.

(** C9.  A turn of the loop whose render block is done and whose two
    inner loops have returned, the flush loop with [ret] and [errno].
    When [ret] is [-1] and [errno] is not [EAGAIN], the turn calls
    [wl_display_cancel_read] and breaks without calling [poll].
    Otherwise [poll] is called, with [POLLOUT] set in the events of the
    display socket after [EAGAIN] and cleared after a flush that did not
    fail; when [poll] returns [-1] with an [errno] other than [EINTR]
    the turn reports it with [perror], calls [wl_display_cancel_read]
    and breaks; when [poll] leaves [POLLERR] or [POLLHUP] in the
    [revents] of the display socket the turn calls
    [wl_display_cancel_read] and breaks; in any other case the turn
    completes and the loop goes on, without a call of
    [wl_display_cancel_read].  After each of the three breaks [main]
    runs the code after the loop, once: it destroys the frame callback
    if one is left, closes the descriptors still tracked, performs the
    final run of destructions and returns 0, as it does when the loop
    condition fails. *)
Theorem fatal_errors_cancel_and_break (fuel inner : nat) (c : config)
    (v v1 : main_vars) (w w1 w2 w3 : W) (s2 : wl_state)
    (out0 out1 out2 out3 : list action) (ret errno : Z) :
  tracker_ok v → close (wl v) = false → frame_num v < max_frames c →
  render c v w = (Continue, v1, w1, out1) →
  prepare_read_loop inner (wl v1) w1 [] = Some (s2, w2, out2) →
  flush_loop inner w2 [] = Some (ret, errno, w3, out3) →
  let v2 := set_wl s2 v1 in
  let out := out1 ++ out2 ++ out3 in
  let timeout := if unsynchronized c then 0 else -1 in
  let p0 := default uninit_pollfd (fds v1 !! 0%nat) in
  let ev := if ret =? -1 then Z.lor (events p0) POLLOUT
            else Z.land (events p0) (Z.lnot POLLOUT) in
  let l := <[0%nat := set_events ev p0]> (fds v1) in
  let after_loop (u : main_vars) :=
    (if frame (wl u) then [WlCallbackDestroy] else [])
    ++ map (λ p, Close (fd p)) (drop 1 (take (len u) (fds u)))
    ++ [Teardown] in
  calls WlDisplayCancelRead out = 0%nat ∧
  (ret = -1 → errno ≠ EAGAIN →
   iteration inner c v w = Some (Break, v2, w3, out ++ [WlDisplayCancelRead]) ∧
   main_loop (S fuel) inner c v w out0
   = Some (0, v2, w3, out0 ++ out ++ [WlDisplayCancelRead] ++ after_loop v2)) ∧
  (ret = -1 → errno = EAGAIN → Z.land ev POLLOUT = POLLOUT) ∧
  ((ret = -1 → errno = EAGAIN) →
   ∀ (r e : Z) (revs : list Z) (x' : W),
     poll (take (len v1) l) timeout w3 = ((r, e, revs), x') →
     let v3 := set_fds (store_revents (take (len v1) revs) l) v2 in
     let polled := Poll (len v1) ev timeout in
     let display := default uninit_pollfd (fds v3 !! 0%nat) in
     (r = -1 → e ≠ EINTR →
      iteration inner c v w
      = Some (Break, v3, x',
              out ++ [polled; Perror "poll"; WlDisplayCancelRead]) ∧
      main_loop (S fuel) inner c v w out0
      = Some (0, v3, x',
              out0 ++ out ++ [polled; Perror "poll"; WlDisplayCancelRead]
              ++ after_loop v3)) ∧
     (¬ (r = -1 ∧ e ≠ EINTR) →
      Z.land (revents display) (Z.lor POLLERR POLLHUP) ≠ 0 →
      iteration inner c v w
      = Some (Break, v3, x', out ++ [polled; WlDisplayCancelRead]) ∧
      main_loop (S fuel) inner c v w out0
      = Some (0, v3, x',
              out0 ++ out ++ [polled; WlDisplayCancelRead] ++ after_loop v3)) ∧
     (¬ (r = -1 ∧ e ≠ EINTR) →
      Z.land (revents display) (Z.lor POLLERR POLLHUP) = 0 →
      ∃ v' w' out5,
        iteration inner c v w = Some (Continue, v', w', out ++ polled :: out5) ∧
        calls WlDisplayCancelRead (out ++ polled :: out5) = 0%nat)) ∧
  (∀ (u : main_vars) (x : W),
     negb (close (wl u)) && (frame_num u <? max_frames c) = false →
     main_loop (S fuel) inner c u x out0 = Some (0, u, x, out0 ++ after_loop u)).
Proof.
  intros Hok Hclose Hnum Hrender Hprepare Hflush v2 out timeout p0 ev l after_loop.
  pose proof (cancel_free _ _ _ _ _ _ _ _ _ _ _ _ _ _ _ Hrender Hprepare Hflush)
    as Hfree. fold out in Hfree.
  destruct (render_entries _ _ _ _ _ _ _ Hok Hrender) as (_ & _ & Hcont & _).
  destruct (Hcont eq_refl) as (Hok1 & _).
  assert (Hp0 : fds v1 !! 0%nat = Some p0).
  { subst p0. destruct Hok1 as (Hp & _ & Hone & Hle).
    destruct (fds v1) as [|q k]; [cbn in Hp; lia|]. reflexivity. }
  pose proof (after_flush_slot ret errno (fds v1) p0 Hp0) as Hafter.
  fold ev l in Hafter.
  assert (Hiter : iteration inner c v w
                  = match after_flush ret errno (fds v1) with
                    | None => Some (Break, v2, w3, out ++ [WlDisplayCancelRead])
                    | Some l => after_wait out (wait c (set_fds l v2) w3)
                    end).
  { unfold iteration. rewrite Hrender, Hprepare, Hflush. reflexivity. }
  rewrite Hafter in Hiter.
  split; [exact Hfree|]. split; [|split; [|split]].
  - intros -> Herr. cbn [Z.eqb Pos.eqb andb] in Hiter.
    destruct (Z.eqb_spec errno EAGAIN) as [|_]; [contradiction|].
    cbn [negb] in Hiter. split; [exact Hiter|].
    rewrite (main_loop_break fuel _ _ _ _ out0 _ _ _ Hclose Hnum Hiter).
    rewrite <- !app_assoc. reflexivity.
  - intros -> _. subst ev. cbn [Z.eqb Pos.eqb]. apply land_lor_same.
  - intros Htransient r e revs x' Hpoll v3 polled display.
    assert (Hgo : (ret =? -1) && negb (errno =? EAGAIN) = false).
    { destruct (Z.eqb_spec ret (-1)) as [Hret|_]; [|reflexivity].
      rewrite (Htransient Hret). reflexivity. }
    rewrite Hgo in Hiter.
    assert (Hev : events (default uninit_pollfd (l !! 0%nat)) = ev).
    { subst l. rewrite list_lookup_insert_eq; [reflexivity|].
      eapply lookup_lt_Some. exact Hp0. }
    assert (Hwait : wait c (set_fds l v2) w3
                    = if (r =? -1) && negb (e =? EINTR)
                      then (Break, v3, x',
                            [polled; Perror "poll"; WlDisplayCancelRead])
                      else if negb (Z.land (revents display)
                                      (Z.lor POLLERR POLLHUP) =? 0)
                      then (Break, v3, x', [polled; WlDisplayCancelRead])
                      else (Continue, v3, x', [polled])).
    { unfold wait. cbn [fds len set_fds set_wl]. fold timeout.
      change (len v2) with (len v1). rewrite Hpoll, Hev. reflexivity. }
    rewrite Hwait in Hiter. split; [|split].
    + intros -> He. destruct (Z.eqb_spec e EINTR) as [|_]; [contradiction|].
      cbn [Z.eqb Pos.eqb andb negb after_wait] in Hiter.
      split; [exact Hiter|].
      rewrite (main_loop_break fuel _ _ _ _ out0 _ _ _ Hclose Hnum Hiter).
      rewrite <- !app_assoc. reflexivity.
    + intros Hbenign Hbits.
      assert (Hno : (r =? -1) && negb (e =? EINTR) = false).
      { destruct (Z.eqb_spec r (-1)) as [Hr|_]; [|reflexivity].
        destruct (Z.eqb_spec e EINTR) as [|He]; [reflexivity|].
        exfalso. apply Hbenign. auto. }
      rewrite Hno in Hiter.
      destruct (Z.eqb_spec (Z.land (revents display) (Z.lor POLLERR POLLHUP)) 0)
        as [|_]; [contradiction|].
      cbn [negb after_wait] in Hiter. split; [exact Hiter|].
      rewrite (main_loop_break fuel _ _ _ _ out0 _ _ _ Hclose Hnum Hiter).
      rewrite <- !app_assoc. reflexivity.
    + intros Hbenign Hbits.
      assert (Hno : (r =? -1) && negb (e =? EINTR) = false).
      { destruct (Z.eqb_spec r (-1)) as [Hr|_]; [|reflexivity].
        destruct (Z.eqb_spec e EINTR) as [|He]; [reflexivity|].
        exfalso. apply Hbenign. auto. }
      rewrite Hno, Hbits in Hiter. cbn [Z.eqb negb after_wait] in Hiter.
      destruct (read_and_reap_total v3 x') as [[[v5 w5] out5] Hreap].
      rewrite Hreap in Hiter. exists v5, w5, out5. split; [exact Hiter|].
      apply read_and_reap_spec in Hreap as (Ht5 & _).
      change (polled :: out5) with ([polled] ++ out5).
      rewrite !calls_app, Hfree.
      rewrite (calls_quiet _ out5); [|quiet Ht5].
      unfold polled. rewrite calls_single_ne by discriminate. reflexivity.
  - intros u x Hguard. cbn [main_loop]. rewrite Hguard. reflexivity.
Qed.

End Fatal.

(** ** The two retries and the answers of the library *)

Section Retrying.
Context {W : Type} `{Platform W}.

(** The read-intent loop follows the library: it ends at the first
    answer that does not ask again, and not before. *)
Lemma prepare_read_loop_asked (fuel : nat) :
  ∀ (s : wl_state) (w : W) (out0 : list action),
  let k := asked read_again read_next fuel w in
  ((k < fuel)%nat →
   ∃ s' out,
     prepare_read_loop fuel s w out0
     = Some (s', (wl_display_prepare_read (rounds read_next k w)).2, out0 ++ out) ∧
     calls WlDisplayPrepareRead out = S k ∧
     calls WlDisplayDispatchPending out = k ∧
     calls WlDisplayFlush out = 0%nat ∧
     read_again (rounds read_next k w) = false) ∧
  (k = fuel → prepare_read_loop fuel s w out0 = None).
Proof.
  induction fuel as [|fuel IH]; intros s w out0 k.
  { split; [lia|reflexivity]. }
  subst k. cbn [asked prepare_read_loop].
  destruct (wl_display_prepare_read w) as [[ret errno] w1] eqn:Hprep.
  assert (Ha : read_again w = negb (ret =? 0) && (errno =? EAGAIN)).
  { unfold read_again. rewrite Hprep. reflexivity. }
  rewrite Ha. destruct (negb (ret =? 0) && (errno =? EAGAIN)) eqn:Hagain.
  - destruct (wl_display_dispatch_pending w1) as [es w2] eqn:Hdisp.
    assert (Hnext : read_next w = w2).
    { unfold read_next. rewrite Hprep. cbn [snd]. rewrite Hdisp. reflexivity. }
    rewrite Hnext.
    destruct (dispatch_all_spec es s) as (Hacts & _).
    destruct (dispatch_all es s) as [s1 acts]. cbn [fst snd] in Hacts.
    destruct (IH s1 w2 ((out0 ++ [WlDisplayPrepareRead])
                        ++ WlDisplayDispatchPending :: acts)) as [Hend Hnone].
    split.
    + intros Hk. destruct Hend as (s' & out & Hrun & Hp & Hd & Hf & Hlast); [lia|].
      exists s', ([WlDisplayPrepareRead] ++ [WlDisplayDispatchPending] ++ acts ++ out).
      cbn [rounds]. rewrite Hnext, Hrun.
      split; [rewrite <- !app_assoc; reflexivity|].
      rewrite !calls_app, Hp, Hd, Hf,
        !(calls_listener _ acts) by (reflexivity || exact Hacts).
      unfold calls. cbn. repeat split; try lia. exact Hlast.
    + intros Hk. apply Hnone. lia.
  - split; [|discriminate]. intros _.
    exists s, [WlDisplayPrepareRead]. cbn [rounds]. rewrite Hprep. cbn [snd].
    split; [reflexivity|]. unfold calls. cbn.
    repeat split. exact Ha.
Qed.

(** So does the flush loop. *)
Lemma flush_loop_asked (fuel : nat) :
  ∀ (w : W) (out0 : list action),
  let k := asked flush_again flush_next fuel w in
  let last_call := wl_display_flush (rounds flush_next k w) in
  ((k < fuel)%nat →
   ∃ out,
     flush_loop fuel w out0
     = Some (last_call.1.1, last_call.1.2, last_call.2, out0 ++ out) ∧
     out = replicate (S k) WlDisplayFlush ∧
     last_call.1.1 ≤ 0) ∧
  (k = fuel → flush_loop fuel w out0 = None).
Proof.
  induction fuel as [|fuel IH]; intros w out0 k last_call.
  { split; [lia|reflexivity]. }
  subst k last_call. cbn [asked flush_loop].
  destruct (wl_display_flush w) as [[ret errno] w1] eqn:Hflush.
  assert (Ha : flush_again w = (0 <? ret)).
  { unfold flush_again. rewrite Hflush. reflexivity. }
  assert (Hnext : flush_next w = w1).
  { unfold flush_next. rewrite Hflush. reflexivity. }
  rewrite Ha. destruct (Z.ltb_spec 0 ret) as [Hret|Hret].
  - rewrite Hnext.
    destruct (IH w1 (out0 ++ [WlDisplayFlush])) as [Hend Hnone].
    split.
    + intros Hk. destruct Hend as (out & Hrun & Hout & Hle); [lia|].
      exists (WlDisplayFlush :: out). cbn [rounds]. rewrite Hnext.
      rewrite Hrun, <- app_assoc.
      split; [reflexivity|]. split; [rewrite Hout; reflexivity|exact Hle].
    + intros Hk. apply Hnone. lia.
  - split; [|discriminate]. intros _.
    exists [WlDisplayFlush]. cbn [rounds]. rewrite Hflush. cbn [fst snd].
    auto.
Qed.

(** Over a library that keeps its contract neither loop is asked to
    repeat twice in a row. *)
Lemma asked_read_contract (n : nat) (w : W) :
  read_intent_contract → (asked read_again read_next n w ≤ 1)%nat.
Proof.
  intros Hcontract. destruct n as [|[|n]]; cbn [asked]; [lia| |].
  { destruct (read_again w); lia. }
  destruct (read_again w) eqn:Ha; [|lia].
  enough (read_again (read_next w) = false) as -> by lia.
  unfold read_again in Ha. apply andb_true_iff in Ha as [Hret Herr].
  specialize (Hcontract w).
  destruct (Z.eqb_spec (wl_display_prepare_read w).1.1 0) as [|Hne];
    [discriminate|].
  apply Z.eqb_eq in Herr. specialize (Hcontract Hne Herr). cbn zeta in Hcontract.
  unfold read_again, read_next.
  destruct Hcontract as [-> | Hc]; [reflexivity|].
  destruct (Z.eqb_spec (wl_display_prepare_read
              (wl_display_dispatch_pending (wl_display_prepare_read w).2).2).1.2
              EAGAIN); [contradiction|]. apply andb_false_r.
Qed.

Lemma asked_flush_contract (n : nat) (w : W) :
  flush_contract → (asked flush_again flush_next n w ≤ 1)%nat.
Proof.
  intros Hcontract. destruct n as [|[|n]]; cbn [asked]; [lia| |].
  { destruct (flush_again w); lia. }
  destruct (flush_again w) eqn:Ha; [|lia].
  enough (flush_again (flush_next w) = false) as -> by lia.
  unfold flush_again in Ha |- *. unfold flush_next.
  apply Z.ltb_lt in Ha. specialize (Hcontract w Ha). apply Z.ltb_ge. exact Hcontract.
Qed.

(** C8, as the code has it.  Neither retry of a turn has a bound of its
    own; each lasts exactly as long as the display library asks for it.
    The read-intent loop calls [wl_display_prepare_read] once more than
    the library answers with a failure and [EAGAIN] in a row,
    dispatching the pending events after each such answer, and the
    flush loop calls [wl_display_flush] once more than the library
    reports bytes written in a row; while the library goes on asking,
    the loop goes on.  Over a library that keeps its contract (a
    dispatch leaves no event queued, a flush that wrote bytes leaves
    none to write) each loop is asked to repeat once at most, so each
    makes at most two calls and every turn of the main loop completes. *)
Theorem retries_last_as_long_as_asked (fuel : nat) (s : wl_state) (w : W) :
  let k := asked read_again read_next fuel w in
  let j := asked flush_again flush_next fuel w in
  let last_flush := wl_display_flush (rounds flush_next j w) in
  ((k < fuel)%nat →
   ∃ s' out,
     prepare_read_loop fuel s w []
     = Some (s', (wl_display_prepare_read (rounds read_next k w)).2, out) ∧
     calls WlDisplayPrepareRead out = S k ∧
     calls WlDisplayDispatchPending out = k ∧
     read_again (rounds read_next k w) = false) ∧
  (k = fuel → prepare_read_loop fuel s w [] = None) ∧
  ((j < fuel)%nat →
   flush_loop fuel w []
   = Some (last_flush.1.1, last_flush.1.2, last_flush.2,
           replicate (S j) WlDisplayFlush) ∧
   last_flush.1.1 ≤ 0) ∧
  (j = fuel → flush_loop fuel w [] = None) ∧
  (read_intent_contract → (k ≤ 1)%nat) ∧
  (flush_contract → (j ≤ 1)%nat) ∧
  (read_intent_contract → flush_contract → (2 ≤ fuel)%nat →
   ∀ (c : config) (v : main_vars),
     ∃ o v' w' out,
       iteration fuel c v w = Some (o, v', w', out) ∧
       (calls WlDisplayPrepareRead out ≤ 2)%nat ∧
       (calls WlDisplayFlush out ≤ 2)%nat).
Proof.
  intros k j last_flush.
  destruct (prepare_read_loop_asked fuel s w []) as [Hend Hnone].
  destruct (flush_loop_asked fuel w []) as [Hfend Hfnone].
  split; [|split; [|split; [|split; [|split; [|split]]]]].
  - intros Hk. destruct (Hend Hk) as (s' & out & Hrun & Hp & Hd & _ & Hlast).
    exists s', out. auto.
  - exact Hnone.
  - intros Hj. destruct (Hfend Hj) as (out & Hrun & -> & Hle). auto.
  - exact Hfnone.
  - apply asked_read_contract.
  - apply asked_flush_contract.
  - intros Hrc Hfc Hfuel c v.
    assert (Hp : ∀ s0 x, ∃ s' x' out,
               prepare_read_loop fuel s0 x [] = Some (s', x', out) ∧
               (calls WlDisplayPrepareRead out ≤ 2)%nat ∧
               calls WlDisplayFlush out = 0%nat).
    { intros s0 x. destruct (prepare_read_loop_asked fuel s0 x []) as [He _].
      pose proof (asked_read_contract fuel x Hrc) as Hone.
      destruct He as (s' & out & Hrun & Hcalls & _ & Hfl & _); [lia|].
      cbn [app] in Hrun.
      eexists _, _, _. split; [exact Hrun|]. split; [lia|exact Hfl]. }
    assert (Hf : ∀ x, ∃ r e x' out,
               flush_loop fuel x [] = Some (r, e, x', out) ∧
               (calls WlDisplayFlush out ≤ 2)%nat ∧
               calls WlDisplayPrepareRead out = 0%nat).
    { intros x. destruct (flush_loop_asked fuel x []) as [He _].
      pose proof (asked_flush_contract fuel x Hfc) as Hone.
      destruct He as (out & Hrun & -> & _); [lia|]. cbn [app] in Hrun.
      eexists _, _, _, _. split; [exact Hrun|].
      destruct (asked flush_again flush_next fuel x) as [|[|n]]; [| |lia];
        unfold calls; cbn; lia. }
    unfold iteration.
    destruct (render c v w) as [[[o1 v1] w1] out1] eqn:Hrender.
    pose proof (render_spec _ _ _ _ _ _ _ Hrender) as (Hd1 & _ & _ & _ & Ho1 & _).
    assert (Hc1 : calls WlDisplayPrepareRead out1 = 0%nat ∧
                  calls WlDisplayFlush out1 = 0%nat).
    { split; apply calls_quiet; quiet Hd1. }
    destruct Hc1 as [Hp1 Hf1].
    destruct Ho1 as [[-> _]|(-> & _)].
    2: { eexists _, _, _, _. split; [reflexivity|]. lia. }
    destruct (Hp (wl v1) w1) as (s2 & w2 & out2 & -> & Hp2 & Hf2).
    destruct (Hf w2) as (ret & errno & w3 & out3 & -> & Hf3 & Hp3).
    destruct (after_flush ret errno (fds (set_wl s2 v1))) as [l|].
    2: { eexists _, _, _, _. split; [reflexivity|].
         rewrite !calls_app, Hp1, Hf1, Hf2, Hp3, !calls_single_ne by discriminate.
         lia. }
    destruct (wait c (set_fds l (set_wl s2 v1)) w3) as [[[o4 v4] w4] out4] eqn:Hwait.
    apply wait_spec in Hwait as (Ht4 & _ & _ & _ & _ & _ & _ & Ho4).
    assert (Hc4 : calls WlDisplayPrepareRead out4 = 0%nat ∧
                  calls WlDisplayFlush out4 = 0%nat).
    { split; apply calls_quiet; quiet Ht4. }
    destruct Hc4 as [Hp4 Hf4].
    unfold after_wait. destruct Ho4 as [-> | ->].
    + destruct (read_and_reap_total v4 w4) as [[[v5 w5] out5] Hreap].
      rewrite Hreap. apply read_and_reap_spec in Hreap as (Ht5 & _).
      assert (Hc5 : calls WlDisplayPrepareRead out5 = 0%nat ∧
                    calls WlDisplayFlush out5 = 0%nat).
      { split; apply calls_quiet; quiet Ht5. }
      destruct Hc5 as [Hp5 Hf5].
      eexists _, _, _, _. split; [reflexivity|].
      rewrite !calls_app, Hp1, Hf1, Hf2, Hp3, Hp4, Hf4, Hp5, Hf5. lia.
    + eexists _, _, _, _. split; [reflexivity|].
      rewrite !calls_app, Hp1, Hf1, Hf2, Hp3, Hp4, Hf4. lia.
Qed.

End Retrying.

(** ** The first program *)

Section First.
Context {W : Type} `{Platform W} `{Dispatch W}.

Lemma shared_app (l k : list MainC.call) :
  MainC.shared (l ++ k) = MainC.shared l ++ MainC.shared k.
Proof.
  induction l as [|a l IH]; [reflexivity|].
  destruct a; cbn; rewrite IH; reflexivity.
Qed.

(** Everything [draw] does. *)
Lemma mainc_draw_spec (s : MainC.state) (w : W) :
  let wd := applied false 0 (MainC.conf_width s) in
  let ht := applied false 0 (MainC.conf_height s) in
  let pending := negb (MainC.conf_serial s =? 0) in
  ∃ start fence_fd w',
    duplicated fence_fd ∧
    MainC.draw s w
    = ({| MainC.frame := true; MainC.running := MainC.running s;
          MainC.conf_serial := 0;
          MainC.conf_width := if pending then wd else MainC.conf_width s;
          MainC.conf_height := if pending then ht else MainC.conf_height s;
          MainC.submit_time_ns := start; MainC.fence := fence_fd |}, w',
       MainC.Shared WlSurfaceFrame
       :: (if pending
           then [MainC.Shared (WlEglWindowResize wd ht);
                 MainC.Shared (XdgSurfaceAckConfigure (MainC.conf_serial s))]
           else [])
       ++ [MainC.GlViewport (if pending then wd else MainC.conf_width s)
                            (if pending then ht else MainC.conf_height s);
           MainC.GlClear; MainC.Shared EglSwapBuffers]).
Proof.
  intros wd ht pending. subst wd ht pending. unfold MainC.draw, applied.
  destruct s as [fr run sr cw ch sub fe]. cbn -[wrap64 Z.mul Z.add].
  destruct (Z.eqb_spec sr 0) as [->|?]; cbn -[wrap64 Z.mul Z.add];
    [|destruct (cw =? 0); cbn -[wrap64 Z.mul Z.add];
      destruct (ch =? 0); cbn -[wrap64 Z.mul Z.add]];
    destruct (clock_gettime w) as [[tv_sec tv_nsec] w1];
    destruct (egl_dup_fence w1) as [fence_fd w2] eqn:Hdup;
    (eexists _, fence_fd, w2; split; [exists w1; rewrite Hdup; reflexivity|]);
    reflexivity.
Qed.

Lemma shared_log (log : list action) : MainC.shared (map MainC.Shared log) = log.
Proof. induction log as [|a log IH]; [reflexivity|]. cbn. rewrite IH. reflexivity. Qed.

Lemma mainc_draw_summary (s : MainC.state) (w : W) :
  ∃ s' w' out,
    MainC.draw s w = (s', w', out) ∧
    MainC.frame s' = true ∧ MainC.running s' = MainC.running s ∧
    MainC.conf_serial s' = 0 ∧ duplicated (MainC.fence s') ∧
    callback_run false (MainC.shared out) = Some true ∧
    calls WlSurfaceFrame (MainC.shared out) = 1%nat ∧
    calls WlCallbackDestroy (MainC.shared out) = 0%nat ∧
    calls EglSwapBuffers (MainC.shared out) = 1%nat ∧
    closed (MainC.shared out) = [] ∧ polls (MainC.shared out) = [].
Proof.
  destruct (mainc_draw_spec s w) as (start & fence_fd & w' & Hdup & ->).
  eexists _, _, _. split; [reflexivity|]. cbn [MainC.frame MainC.running
    MainC.conf_serial MainC.fence].
  destruct (negb (MainC.conf_serial s =? 0)); repeat split; auto.
Qed.

Lemma mainc_dispatch_summary (e : event) (s : MainC.state) (w : W) :
  MainC.frame s = true →
  ∃ s' w' out,
    MainC.dispatch e s w = (s', w', out) ∧
    MainC.frame s' = true ∧
    (e ≠ xdg_toplevel_close → MainC.running s' = MainC.running s) ∧
    (MainC.fence s' = MainC.fence s ∨ duplicated (MainC.fence s')) ∧
    (is_done e = true → duplicated (MainC.fence s')) ∧
    callback_run true (MainC.shared out) = Some true ∧
    calls WlSurfaceFrame (MainC.shared out) = (if is_done e then 1 else 0)%nat ∧
    calls WlCallbackDestroy (MainC.shared out) = (if is_done e then 1 else 0)%nat ∧
    calls EglSwapBuffers (MainC.shared out) = (if is_done e then 1 else 0)%nat ∧
    closed (MainC.shared out) = [] ∧ polls (MainC.shared out) = [].
Proof.
  intros Hframe. destruct e; cbn [MainC.dispatch is_done];
    try (eexists _, _, _; split; [reflexivity|]; repeat split; auto;
         try discriminate; try (intros []; reflexivity); fail).
  rewrite Hframe. unfold MainC.frame_done.
  destruct (mainc_draw_summary (MainC.set_frame false s) w)
    as (s' & w' & out & -> & Hf & Hr & _ & Hdup & Hcb & Hc1 & Hc2 & Hc3 & Hcl & Hpl).
  eexists _, _, _. split; [reflexivity|].
  cbn [MainC.shared callback_run closed polls].
  change (WlCallbackDestroy :: MainC.shared out)
    with ([WlCallbackDestroy] ++ MainC.shared out).
  rewrite !calls_app, Hc1, Hc2, Hc3. repeat split; auto.
Qed.

Lemma mainc_dispatch_all_summary (es : list event) :
  ∀ (s : MainC.state) (w : W),
    MainC.frame s = true →
    ∃ s' w' out,
      MainC.dispatch_all es s w = (s', w', out) ∧
      MainC.frame s' = true ∧
      (xdg_toplevel_close ∉ es → MainC.running s' = MainC.running s) ∧
      (MainC.fence s' = MainC.fence s ∨ duplicated (MainC.fence s')) ∧
      callback_run true (MainC.shared out) = Some true ∧
      calls WlSurfaceFrame (MainC.shared out) = length (List.filter is_done es) ∧
      calls WlCallbackDestroy (MainC.shared out) = length (List.filter is_done es) ∧
      calls EglSwapBuffers (MainC.shared out) = length (List.filter is_done es) ∧
      closed (MainC.shared out) = [] ∧ polls (MainC.shared out) = [].
Proof.
  induction es as [|e es IH]; intros s w Hframe.
  { eexists _, _, _. split; [reflexivity|]. repeat split; auto. }
  cbn [MainC.dispatch_all].
  destruct (mainc_dispatch_summary e s w Hframe)
    as (s1 & w1 & out1 & -> & Hf1 & Hr1 & Hfe1 & _ & Hcb1 & Ha1 & Hb1 & Hc1 & Hcl1
        & Hp1).
  destruct (IH s1 w1 Hf1)
    as (s2 & w2 & out2 & -> & Hf2 & Hr2 & Hfe2 & Hcb2 & Ha2 & Hb2 & Hc2 & Hcl2 & Hp2).
  eexists _, _, _. split; [reflexivity|].
  rewrite shared_app, !calls_app, closed_app, polls_app, Ha1, Ha2, Hb1, Hb2, Hc1,
    Hc2, Hcl1, Hcl2, Hp1, Hp2.
  cbn [List.filter]. split; [exact Hf2|]. split.
  { intros Hno. rewrite Hr2, Hr1; [reflexivity| |].
    - intros ->. apply Hno, list_elem_of_here.
    - intros Hin. apply Hno, list_elem_of_further, Hin. }
  split.
  { destruct Hfe2 as [->|?]; [exact Hfe1|auto]. }
  split; [eapply callback_run_seq; eassumption|].
  destruct (is_done e); auto.
Qed.

Lemma simple_fence_timestamp_log (fd : Z) (w : W) :
  Forall (λ a, ∃ msg, a = Perror msg) (Simple.fence_timestamp fd w).1.2.
Proof.
  unfold Simple.fence_timestamp.
  destruct (ioctl_sync_file_info fd _ w) as [[file1|] w1];
    [|repeat constructor; eauto].
  destruct (ioctl_sync_file_info fd _ w1) as [[file2|] w2]; repeat constructor; eauto.
Qed.

Lemma store_revents_pair (revs : list Z) (p0 p1 : pollfd) :
  ∃ q0 q1,
    store_revents (take 2 revs) [p0; p1] = [q0; q1] ∧
    fd q0 = fd p0 ∧ events q0 = events p0 ∧
    fd q1 = fd p1 ∧ events q1 = events p1.
Proof.
  destruct revs as [|r0 [|r1 revs]]; cbn; eexists _, _; repeat split.
Qed.

(** The block that reads out the fence in [fds[1]]. *)
Lemma mainc_reap_fence_summary (s : MainC.state) (q0 q1 : pollfd) (w : W) :
  fence_slot_ok q1 →
  ∃ s' q1' w' out,
    MainC.reap_fence s [q0; q1] w = (s', [q0; q1'], w', out) ∧
    MainC.frame s' = MainC.frame s ∧ MainC.running s' = MainC.running s ∧
    MainC.fence s' = MainC.fence s ∧ fence_slot_ok q1' ∧
    Forall (λ a, from_reap a = true) (MainC.shared out) ∧
    (closed (MainC.shared out) = [] ∧ q1' = q1 ∨
     closed (MainC.shared out) = [fd q1] ∧ fd q1' = -1 ∧
     Z.land (revents q1) POLLIN ≠ 0).
Proof.
  intros Hq1. unfold MainC.reap_fence, MainC.slot.
  cbn [lookup list_lookup default from_option id].
  destruct (negb (fd q1 =? -1) && negb (Z.land (revents q1) POLLIN =? 0)) eqn:Hgate.
  2: { eexists _, _, _, _. split; [reflexivity|]. repeat split; auto. }
  pose proof (simple_fence_timestamp_log (fd q1) w) as Hlog.
  destruct (Simple.fence_timestamp (fd q1) w) as [[time_ns log] w1].
  cbn [fst snd] in Hlog.
  eexists _, _, _, _. split; [reflexivity|].
  rewrite shared_app, shared_log. cbn [MainC.shared].
  apply andb_true_iff in Hgate as [_ Hready].
  repeat split; auto.
  - left. split; reflexivity.
  - apply Forall_app. split; [|repeat constructor].
    eapply Forall_impl; [exact Hlog|]. cbn. intros a [msg ->]. reflexivity.
  - right. rewrite closed_app, (closed_quiet log).
    + repeat split. destruct (Z.eqb_spec (Z.land (revents q1) POLLIN) 0);
        [discriminate|assumption].
    + eapply Forall_impl; [exact Hlog|]. cbn. intros a [msg ->] d. discriminate.
Qed.

(** The reaction to what [poll] reports on the display socket. *)
Lemma mainc_serve_display_summary (s : MainC.state) (l : list pollfd) (w : W)
    s' w' out :
  MainC.frame s = true →
  MainC.serve_display s l w = Some (s', w', out) →
  MainC.frame s' = true ∧
  (MainC.fence s' = MainC.fence s ∨ duplicated (MainC.fence s')) ∧
  callback_run true (MainC.shared out) = Some true ∧
  calls WlSurfaceFrame (MainC.shared out)
  = calls WlCallbackDestroy (MainC.shared out) ∧
  calls EglSwapBuffers (MainC.shared out)
  = calls WlCallbackDestroy (MainC.shared out) ∧
  closed (MainC.shared out) = [] ∧ polls (MainC.shared out) = [].
Proof.
  intros Hframe. unfold MainC.serve_display.
  destruct (negb (Z.land _ (Z.lor POLLERR POLLHUP) =? 0)); [discriminate|].
  destruct (negb (Z.land _ POLLIN =? 0)).
  - destruct (wl_display_dispatch w) as [es w1].
    destruct (mainc_dispatch_all_summary es s w1 Hframe)
      as (s2 & w2 & out2 & -> & Hf & _ & Hfe & Hcb & Ha & Hb & Hc & Hcl & Hpl).
    intros [= <- <- <-]. cbn [MainC.shared]. rewrite Ha, Hb, Hc.
    repeat split; auto.
  - destruct (negb (Z.land _ POLLOUT =? 0)).
    + destruct (wl_display_flush w) as [r w1]. intros [= <- <- <-].
      repeat split; auto.
    + intros [= <- <- <-]. repeat split; auto.
Qed.

Lemma calls_cons_ne (a b : action) (l : list action) :
  b ≠ a → calls a (b :: l) = calls a l.
Proof. intros Hne. unfold calls. apply count_occ_cons_neq. exact Hne. Qed.

Lemma mainc_install_fence_summary (s : MainC.state) (q0 q1 : pollfd) :
  fence_slot_ok q1 →
  MainC.fence s = -1 ∨ duplicated (MainC.fence s) →
  ∃ s' q1',
    MainC.install_fence s [q0; q1] = (s', [q0; q1']) ∧
    MainC.frame s' = MainC.frame s ∧ MainC.running s' = MainC.running s ∧
    MainC.fence s' = -1 ∧ fence_slot_ok q1'.
Proof.
  intros Hq1 Hfence. unfold MainC.install_fence.
  destruct (Z.eqb_spec (MainC.fence s) (-1)) as [Heq|Hne].
  - eexists _, _. split; [reflexivity|]. auto.
  - eexists _, _. split; [reflexivity|]. repeat split; auto.
    right. destruct Hfence as [?|Hdup]; [contradiction|]. split; [exact Hdup|reflexivity].
Qed.

(** One turn of the loop of the first program. *)
Lemma mainc_turn_summary (v : MainC.loop_vars) (w : W) o v' w' out
    (p0 p1 : pollfd) :
  MainC.fds v = [p0; p1] → MainC.frame (MainC.st v) = true →
  MainC.fence (MainC.st v) = -1 → fence_slot_ok p1 →
  MainC.turn v w = (o, v', w', out) →
  (o = Continue ∨ o = Break) ∧
  MainC.frame (MainC.st v') = true ∧ MainC.fence (MainC.st v') = -1 ∧
  (∃ p0' p1', MainC.fds v' = [p0'; p1'] ∧ fd p0' = fd p0 ∧
              events p0' = events p0 ∧ fence_slot_ok p1') ∧
  callback_run true (MainC.shared out) = Some true ∧
  calls WlSurfaceFrame (MainC.shared out)
  = calls WlCallbackDestroy (MainC.shared out) ∧
  calls EglSwapBuffers (MainC.shared out)
  = calls WlCallbackDestroy (MainC.shared out) ∧
  (length (closed (MainC.shared out)) ≤ 1)%nat ∧
  polls (MainC.shared out) = [(2%nat, events p0, 0)].
Proof.
  intros Hfds Hframe Hfence Hp1. unfold MainC.turn. rewrite Hfds.
  destruct (poll [p0; p1] 0 w) as [[[ret errno] revs] w1].
  destruct (store_revents_pair revs p0 p1) as (q0 & q1 & -> & Hfd0 & Hev0 & Hfd1 & Hev1).
  assert (Hq1 : fence_slot_ok q1).
  { unfold fence_slot_ok in *. rewrite Hfd1, Hev1. exact Hp1. }
  destruct (ret =? -1).
  { intros [= <- <- <- <-]. cbn [MainC.st MainC.fds MainC.slot lookup list_lookup
                                 default from_option id].
    repeat split; auto. exists q0, q1. auto. }
  destruct (mainc_reap_fence_summary (MainC.st v) q0 q1 w1 Hq1)
    as (s2 & q1' & w2 & out2 & -> & Hf2 & Hr2 & Hfe2 & Hq1' & Hall2 & Hcl2).
  assert (Hquiet2 : Forall (λ a, a ≠ WlSurfaceFrame ∧ a ≠ WlCallbackDestroy ∧
                                 a ≠ EglSwapBuffers ∧ ∀ n e t, a ≠ Poll n e t)
                      (MainC.shared out2)) by quiet Hall2.
  assert (Hcb2 : callback_run true (MainC.shared out2) = Some true).
  { apply callback_run_quiet. eapply Forall_impl; [exact Hquiet2|]. cbn. tauto. }
  assert (Hn2 : calls WlSurfaceFrame (MainC.shared out2) = 0%nat ∧
                calls WlCallbackDestroy (MainC.shared out2) = 0%nat ∧
                calls EglSwapBuffers (MainC.shared out2) = 0%nat ∧
                polls (MainC.shared out2) = []).
  { repeat split; [apply calls_quiet|apply calls_quiet|apply calls_quiet
                   |apply polls_quiet];
      (eapply Forall_impl; [exact Hquiet2|]; cbn; tauto). }
  destruct Hn2 as (Ha2 & Hb2 & Hc2 & Hpl2).
  assert (Hlen2 : (length (closed (MainC.shared out2)) ≤ 1)%nat).
  { destruct Hcl2 as [[-> _]|[-> _]]; cbn; lia. }
  destruct (MainC.serve_display s2 [q0; q1'] w2) as [[[s3 w3] out3]|] eqn:Hserve.
  2: { intros [= <- <- <- <-].
       cbn [MainC.st MainC.fds MainC.shared MainC.slot lookup list_lookup default
            from_option id polls closed callback_run].
       rewrite !calls_cons_ne by discriminate.
       rewrite Ha2, Hb2, Hc2, Hpl2, Hf2, Hfe2.
       repeat split; auto. exists q0, q1'. auto. }
  apply mainc_serve_display_summary in Hserve
    as (Hf3 & Hfe3 & Hcb3 & Ha3 & Hc3 & Hcl3 & Hpl3); [|congruence].
  destruct (mainc_install_fence_summary s3 q0 q1' Hq1')
    as (s4 & q1'' & -> & Hf4 & Hr4 & Hfe4 & Hq1'').
  { destruct Hfe3 as [->|?]; [left; congruence|auto]. }
  intros [= <- <- <- <-].
  cbn [MainC.st MainC.fds MainC.shared MainC.slot lookup list_lookup default
       from_option id polls closed callback_run].
  rewrite !calls_cons_ne by discriminate.
  rewrite !shared_app, !calls_app, !closed_app, !polls_app, Ha2, Hb2, Hc2, Hpl2,
    Ha3, Hc3, Hcl3, Hpl3, app_nil_r.
  repeat split; auto; try congruence.
  - exists q0, q1''. auto.
  - eapply callback_run_seq; eassumption.
Qed.

Lemma mainc_loop_steps_invariant (I : MainC.loop_vars → list MainC.call → Prop) :
  (∀ v w out v1 w1 acts,
     I v out → MainC.running (MainC.st v) = true →
     MainC.turn v w = (Continue, v1, w1, acts) → I v1 (out ++ acts)) →
  ∀ v w out v' w' out',
    I v out → MainC.loop_steps (v, w, out) (v', w', out') → I v' out'.
Proof.
  intros Hstep v w out v' w' out' Hinit Hsteps.
  remember (v, w, out) as x eqn:Hx. remember (v', w', out') as y eqn:Hy.
  revert v w out Hx Hinit.
  induction Hsteps as [x|v0 w0 out0 v1 w1 acts x Hrun Hturn Hsteps IH];
    intros v w out Hx Hinit.
  - subst x. injection Hx as <- <- <-. exact Hinit.
  - injection Hx as <- <- <-. eapply IH; [exact Hy|reflexivity|].
    eapply Hstep; eassumption.
Qed.

(** What holds at every test of the loop condition of the first
    program. *)
Lemma mainc_loop_steps_summary (display_fd : Z) (s : MainC.state) (w : W)
    v0 w0 out0 v' w' out' :
  MainC.start display_fd s w = (v0, w0, out0) →
  MainC.loop_steps (v0, w0, out0) (v', w', out') →
  MainC.frame (MainC.st v') = true ∧ MainC.fence (MainC.st v') = -1 ∧
  (∃ p0 p1, MainC.fds v' = [p0; p1] ∧ fd p0 = display_fd ∧
            events p0 = Z.lor POLLIN POLLOUT ∧ fence_slot_ok p1) ∧
  callback_run false (MainC.shared out') = Some true ∧
  calls WlSurfaceFrame (MainC.shared out')
  = S (calls WlCallbackDestroy (MainC.shared out')) ∧
  calls EglSwapBuffers (MainC.shared out')
  = S (calls WlCallbackDestroy (MainC.shared out')) ∧
  Forall (λ x, x = (2%nat, Z.lor POLLIN POLLOUT, 0)) (polls (MainC.shared out')).
Proof.
  intros Hstart.
  apply (mainc_loop_steps_invariant
           (λ v out,
              MainC.frame (MainC.st v) = true ∧ MainC.fence (MainC.st v) = -1 ∧
              (∃ p0 p1, MainC.fds v = [p0; p1] ∧ fd p0 = display_fd ∧
                        events p0 = Z.lor POLLIN POLLOUT ∧ fence_slot_ok p1) ∧
              callback_run false (MainC.shared out) = Some true ∧
              calls WlSurfaceFrame (MainC.shared out)
              = S (calls WlCallbackDestroy (MainC.shared out)) ∧
              calls EglSwapBuffers (MainC.shared out)
              = S (calls WlCallbackDestroy (MainC.shared out)) ∧
              Forall (λ x, x = (2%nat, Z.lor POLLIN POLLOUT, 0))
                (polls (MainC.shared out)))).
  - intros v w1 out v1 w2 acts
      (Hf & Hfe & (p0 & p1 & Hfds & Hfd & Hev & Hp1) & Hcb & Ha & Hc & Hpl) _ Hturn.
    destruct (mainc_turn_summary _ _ _ _ _ _ _ _ Hfds Hf Hfe Hp1 Hturn)
      as (_ & Hf' & Hfe' & (p0' & p1' & Hfds' & Hfd' & Hev' & Hp1') & Hcb' & Ha'
          & Hc' & _ & Hpl').
    rewrite shared_app, !calls_app, polls_app, Ha, Hc, Ha', Hc', Hpl', Hev.
    split; [exact Hf'|]. split; [exact Hfe'|]. split.
    { exists p0', p1'. repeat split; auto; congruence. }
    split; [eapply callback_run_seq; eassumption|].
    split; [lia|]. split; [lia|].
    apply Forall_app. split; [exact Hpl|]. repeat constructor.
  - unfold MainC.start in Hstart.
    destruct (mainc_draw_summary s w)
      as (s1 & w1 & out1 & Hdraw & Hf & _ & _ & Hdup & Hcb & Ha & Hb & Hc & _ & Hpl).
    rewrite Hdraw in Hstart. injection Hstart as <- <- <-.
    cbn [MainC.st MainC.fds]. rewrite Ha, Hb, Hc, Hpl.
    repeat split; auto. eexists _, _. split; [reflexivity|].
    repeat split. right. auto.
Qed.

(** X16.  In the first program the [done] listener draws the next
    frame itself: from the first [draw] on, at every test of the loop
    condition exactly one frame callback is outstanding, and the frames
    presented, like the callbacks requested, number one more than the
    callbacks the server has completed. *)
Theorem first_program_rearms_callback (display_fd : Z) (s : MainC.state)
    (w : W) (v0 : MainC.loop_vars) (w0 : W) (out0 : list MainC.call)
    (v' : MainC.loop_vars) (w' : W) (out' : list MainC.call) :
  MainC.start display_fd s w = (v0, w0, out0) →
  MainC.loop_steps (v0, w0, out0) (v', w', out') →
  MainC.frame (MainC.st v') = true ∧
  outstanding (MainC.shared out') = 1 ∧
  (∀ pre post, MainC.shared out' = pre ++ post → 0 ≤ outstanding pre ≤ 1) ∧
  calls WlSurfaceFrame (MainC.shared out')
  = S (calls WlCallbackDestroy (MainC.shared out')) ∧
  calls EglSwapBuffers (MainC.shared out')
  = S (calls WlCallbackDestroy (MainC.shared out')).
Proof.
  intros Hstart Hsteps.
  destruct (mainc_loop_steps_summary _ _ _ _ _ _ _ _ _ Hstart Hsteps)
    as (Hf & _ & _ & Hcb & Ha & Hc & _).
  split; [exact Hf|]. split; [|split; [|auto]].
  - destruct (callback_run_outstanding _ _ _ (MainC.shared out') [] Hcb)
      as [Hcount _]; [rewrite app_nil_r; reflexivity|]. lia.
  - intros pre post Hsplit.
    destruct (callback_run_outstanding _ _ _ pre post Hcb Hsplit) as [_ Hpre]. lia.
Qed.

(** X17.  At every test of the loop condition of the first program the
    poll set has its two slots, slot 0 the display socket, asked for
    input and output alike, slot 1 either empty, with descriptor [-1]
    and no events, or a duplicated fence polled for input, and no fence
    waits in the state to be installed; every [poll] so far was on both
    slots with timeout 0. *)
Theorem first_program_poll_set (display_fd : Z) (s : MainC.state) (w : W)
    (v0 : MainC.loop_vars) (w0 : W) (out0 : list MainC.call)
    (v' : MainC.loop_vars) (w' : W) (out' : list MainC.call) :
  MainC.start display_fd s w = (v0, w0, out0) →
  MainC.loop_steps (v0, w0, out0) (v', w', out') →
  (∃ p0 p1, MainC.fds v' = [p0; p1] ∧ fd p0 = display_fd ∧
            events p0 = Z.lor POLLIN POLLOUT ∧ fence_slot_ok p1) ∧
  MainC.fence (MainC.st v') = -1 ∧
  Forall (λ x, x = (2%nat, Z.lor POLLIN POLLOUT, 0)) (polls (MainC.shared out')).
Proof.
  intros Hstart Hsteps.
  destruct (mainc_loop_steps_summary _ _ _ _ _ _ _ _ _ Hstart Hsteps)
    as (_ & Hfe & Hfds & _ & _ & _ & Hpl).
  auto.
Qed.

Lemma mainc_dispatch_all_fence (es : list event) :
  ∀ (s : MainC.state) (w : W),
    MainC.frame s = true → List.filter is_done es ≠ [] →
    duplicated (MainC.fence (MainC.dispatch_all es s w).1.1).
Proof.
  induction es as [|e es IH]; intros s w Hframe Hes; [contradiction|].
  cbn [MainC.dispatch_all].
  destruct (mainc_dispatch_summary e s w Hframe)
    as (s1 & w1 & out1 & Hd & Hf1 & _ & _ & Hfe1 & _).
  rewrite Hd.
  destruct (mainc_dispatch_all_summary es s1 w1 Hf1)
    as (s2 & w2 & out2 & Hda & _ & _ & Hfe2 & _).
  destruct (List.filter is_done es) eqn:Hrest.
  - rewrite Hda. cbn [fst]. destruct Hfe2 as [->|?]; [|assumption].
    apply Hfe1. cbn [List.filter] in Hes. rewrite Hrest in Hes.
    destruct (is_done e); [reflexivity|contradiction].
  - specialize (IH s1 w1 Hf1 ltac:(discriminate)). rewrite Hda in IH |- *.
    exact IH.
Qed.

(** X18.  When the fence in [fds[1]] has not signalled and the events
    dispatched in the turn include the [done] of a frame callback, the
    turn draws one frame for each [done], closes no descriptor, and
    installs in [fds[1]] the fence duplicated for the last of these
    frames: the unsignalled fence that was there is overwritten without
    having been closed. *)
Theorem unsignalled_fence_is_overwritten (v : MainC.loop_vars) (w w1 w2 : W)
    (p0 p1 : pollfd) (ret errno r0 r1 : Z) (revs : list Z) (es : list event) :
  MainC.fds v = [p0; p1] → MainC.frame (MainC.st v) = true →
  fd p1 ≠ -1 →
  poll [p0; p1] 0 w = ((ret, errno, r0 :: r1 :: revs), w1) → ret ≠ -1 →
  Z.land r1 POLLIN = 0 →
  Z.land r0 (Z.lor POLLERR POLLHUP) = 0 → Z.land r0 POLLIN ≠ 0 →
  wl_display_dispatch w1 = (es, w2) → List.filter is_done es ≠ [] →
  let last_fence := MainC.fence (MainC.dispatch_all es (MainC.st v) w2).1.1 in
  ∃ v' w' out,
    MainC.turn v w = (Continue, v', w', out) ∧
    closed (MainC.shared out) = [] ∧
    calls EglSwapBuffers (MainC.shared out) = length (List.filter is_done es) ∧
    duplicated last_fence ∧ MainC.fence (MainC.st v') = -1 ∧
    (last_fence ≠ -1 →
     ∃ q0 q1, MainC.fds v' = [q0; q1] ∧ fd q0 = fd p0 ∧ fd q1 = last_fence ∧
              events q1 = POLLIN).
Proof.
  intros Hfds Hframe Hheld Hpoll Hret Hr1 Herr Hin Hes Hdone last_fence.
  pose proof (mainc_dispatch_all_fence es (MainC.st v) w2 Hframe Hdone) as Hdup.
  fold last_fence in Hdup.
  unfold MainC.turn. rewrite Hfds, Hpoll.
  destruct (Z.eqb_spec ret (-1)) as [|_]; [contradiction|].
  cbn [take store_revents]. unfold MainC.reap_fence, MainC.slot.
  cbn [lookup list_lookup default from_option id revents fd set_revents].
  rewrite Hr1. cbn [Z.eqb negb andb]. rewrite andb_false_r.
  unfold MainC.serve_display, MainC.slot.
  cbn [lookup list_lookup default from_option id revents fd set_revents].
  rewrite Herr. cbn [Z.eqb negb].
  destruct (Z.eqb_spec (Z.land r0 POLLIN) 0) as [|_]; [contradiction|].
  cbn [negb]. rewrite Hes.
  destruct (mainc_dispatch_all_summary es (MainC.st v) w2 Hframe)
    as (s3 & w3 & out3 & Hda & _ & _ & _ & _ & _ & _ & Hc & Hcl & _).
  subst last_fence. rewrite Hda in *. cbn [fst] in *.
  unfold MainC.install_fence, MainC.slot.
  destruct (Z.eqb_spec (MainC.fence s3) (-1)) as [Heq|Hne].
  - eexists _, _, _. split; [reflexivity|].
    cbn [MainC.st MainC.fds MainC.shared app closed].
    rewrite calls_cons_ne by discriminate. repeat split; auto. contradiction.
  - eexists _, _, _. split; [reflexivity|].
    cbn [MainC.st MainC.fds MainC.shared app closed].
    rewrite calls_cons_ne by discriminate. repeat split; auto.
    intros _. eexists _, _. split; [reflexivity|]. auto.
Qed.

(** X19.  In the first program [draw] with a serial pending resizes the
    drawable to the negotiated size, with 500 in place of a dimension
    that is 0, acknowledges that serial once and stores serial 0; with
    serial 0 stored it resizes and acknowledges nothing, so that the
    next [draw] acknowledges nothing; in both cases it requests a frame
    callback first and presents last. *)
Theorem first_program_acknowledges_once (s : MainC.state) (w : W) :
  let wd := applied false 0 (MainC.conf_width s) in
  let ht := applied false 0 (MainC.conf_height s) in
  let pending := negb (MainC.conf_serial s =? 0) in
  let s' := (MainC.draw s w).1.1 in
  let w' := (MainC.draw s w).1.2 in
  (MainC.draw s w).2
  = MainC.Shared WlSurfaceFrame
    :: (if pending
        then [MainC.Shared (WlEglWindowResize wd ht);
              MainC.Shared (XdgSurfaceAckConfigure (MainC.conf_serial s))]
        else [])
    ++ [MainC.GlViewport (MainC.conf_width s') (MainC.conf_height s');
        MainC.GlClear; MainC.Shared EglSwapBuffers] ∧
  MainC.conf_serial s' = 0 ∧
  MainC.conf_width s' = (if pending then wd else MainC.conf_width s) ∧
  MainC.conf_height s' = (if pending then ht else MainC.conf_height s) ∧
  acks (MainC.shared (MainC.draw s w).2)
  = (if pending then [MainC.conf_serial s] else []) ∧
  acks (MainC.shared (MainC.draw s' w').2) = [].
Proof.
  intros wd ht pending s' w'.
  destruct (mainc_draw_spec s w) as (start & fence_fd & w1 & _ & Hdraw).
  fold wd ht pending in Hdraw.
  assert (Hs' : s' = (MainC.draw s w).1.1) by reflexivity.
  assert (Hw' : w' = (MainC.draw s w).1.2) by reflexivity.
  rewrite Hdraw in Hs', Hw' |- *. cbn [fst snd] in Hs', Hw' |- *.
  destruct (mainc_draw_spec s' w') as (start2 & fence2 & w2 & _ & Hdraw2).
  rewrite Hdraw2. rewrite Hs'.
  cbn [MainC.conf_serial MainC.conf_width MainC.conf_height Z.eqb negb snd app
       MainC.shared acks].
  repeat split; destruct pending; reflexivity.
Qed.

Lemma mainc_draw_quiet (s : MainC.state) (w : W) :
  Forall before_finish (MainC.draw s w).2.
Proof.
  destruct (mainc_draw_spec s w) as (start & fence_fd & w' & _ & ->). cbn [snd].
  destruct (negb (MainC.conf_serial s =? 0)); repeat constructor; discriminate.
Qed.

Lemma mainc_dispatch_all_quiet (es : list event) :
  ∀ (s : MainC.state) (w : W), Forall before_finish (MainC.dispatch_all es s w).2.
Proof.
  induction es as [|e es IH]; intros s w; [constructor|].
  cbn [MainC.dispatch_all].
  assert (He : Forall before_finish (MainC.dispatch e s w).2).
  { destruct e; cbn [MainC.dispatch snd]; try (repeat constructor; discriminate).
    destruct (MainC.frame s); [|constructor]. unfold MainC.frame_done.
    pose proof (mainc_draw_quiet (MainC.set_frame false s) w) as Hd.
    destruct (MainC.draw (MainC.set_frame false s) w) as [[s1 w1] out1].
    cbn [snd] in *. constructor; [split; discriminate|exact Hd]. }
  destruct (MainC.dispatch e s w) as [[s1 w1] out1]. cbn [snd] in He.
  specialize (IH s1 w1). destruct (MainC.dispatch_all es s1 w1) as [[s2 w2] out2].
  cbn [snd] in *. apply Forall_app. auto.
Qed.

Lemma simple_fence_timestamp_message (fd : Z) (w : W) :
  Forall (λ a, a = Perror "SYNC_IOC_FILE_INFO") (Simple.fence_timestamp fd w).1.2.
Proof.
  unfold Simple.fence_timestamp.
  destruct (ioctl_sync_file_info fd _ w) as [[file1|] w1];
    [|repeat constructor].
  destruct (ioctl_sync_file_info fd _ w1) as [[file2|] w2]; repeat constructor.
Qed.

(** A turn prints neither the message of the end of [main] nor
    disconnects, keeps [running] unless a close request arrives, and
    breaks only when [poll] fails or reports an error or a hangup on the
    display socket. *)
Lemma mainc_turn_exit (v : MainC.loop_vars) (w : W) o v' w' out :
  MainC.turn v w = (o, v', w', out) →
  Forall before_finish out ∧
  (o = Continue ∨
   o = Break ∧ MainC.running (MainC.st v') = MainC.running (MainC.st v) ∧
   (MainC.Shared (Perror "poll") ∈ out ∨
    Z.land (revents (MainC.slot 0 (MainC.fds v'))) (Z.lor POLLERR POLLHUP) ≠ 0)).
Proof.
  unfold MainC.turn.
  destruct (poll (MainC.fds v) 0 w) as [[[ret errno] revs] w1].
  destruct (ret =? -1).
  { intros [= <- <- <- <-]. split; [repeat constructor; discriminate|].
    right. split; [reflexivity|]. split; [reflexivity|]. left.
    apply list_elem_of_further, list_elem_of_here. }
  set (l := store_revents (take 2 revs) (MainC.fds v)).
  assert (Hreap : Forall before_finish (MainC.reap_fence (MainC.st v) l w1).2 ∧
                  MainC.running (MainC.reap_fence (MainC.st v) l w1).1.1.1
                  = MainC.running (MainC.st v)).
  { unfold MainC.reap_fence.
    destruct (negb (fd (MainC.slot 1 l) =? -1) && _); [|split; [constructor|reflexivity]].
    pose proof (simple_fence_timestamp_message (fd (MainC.slot 1 l)) w1) as Hlog.
    destruct (Simple.fence_timestamp (fd (MainC.slot 1 l)) w1) as [[time_ns log] w2].
    cbn [fst snd] in *. split; [|reflexivity]. apply Forall_app. split.
    - apply Forall_fmap. eapply Forall_impl; [exact Hlog|]. cbn.
      intros a ->. split; discriminate.
    - repeat constructor; discriminate. }
  destruct (MainC.reap_fence (MainC.st v) l w1) as [[[s2 l2] w2] out2].
  cbn [fst snd] in Hreap. destruct Hreap as [Hq2 Hr2].
  destruct (MainC.serve_display s2 l2 w2) as [[[s3 w3] out3]|] eqn:Hserve.
  - destruct (MainC.install_fence s3 l2) as [s4 l4].
    intros [= <- <- <- <-]. split; [|left; reflexivity].
    constructor; [split; discriminate|]. apply Forall_app. split; [exact Hq2|].
    unfold MainC.serve_display in Hserve.
    destruct (negb (Z.land _ (Z.lor POLLERR POLLHUP) =? 0)); [discriminate|].
    destruct (negb (Z.land _ POLLIN =? 0)).
    + destruct (wl_display_dispatch w2) as [es w4].
      pose proof (mainc_dispatch_all_quiet es s2 w4) as Hd.
      destruct (MainC.dispatch_all es s2 w4) as [[s5 w5] out5]. cbn [snd] in Hd.
      injection Hserve as <- <- <-. constructor; [split; discriminate|exact Hd].
    + destruct (negb (Z.land _ POLLOUT =? 0)).
      * destruct (wl_display_flush w2) as [r w4]. injection Hserve as <- <- <-.
        repeat constructor; discriminate.
      * injection Hserve as <- <- <-. constructor.
  - intros [= <- <- <- <-]. split.
    + constructor; [split; discriminate|exact Hq2].
    + right. split; [reflexivity|]. split; [exact Hr2|]. right.
      cbn [MainC.fds]. unfold MainC.serve_display in Hserve.
      destruct (Z.eqb_spec (Z.land (revents (MainC.slot 0 l2))
                              (Z.lor POLLERR POLLHUP)) 0) as [|Hne];
        [|exact Hne].
      cbn [negb] in Hserve.
      destruct (negb (Z.land _ POLLIN =? 0)).
      * destruct (wl_display_dispatch w2) as [es w4].
        destruct (MainC.dispatch_all es s2 w4) as [[s5 w5] out5]. discriminate.
      * destruct (negb (Z.land _ POLLOUT =? 0)); [|discriminate].
        destruct (wl_display_flush w2) as [r w4]. discriminate.
Qed.

Lemma mainc_main_loop_exit (fuel : nat) :
  ∀ (v : MainC.loop_vars) (w : W) (out0 : list MainC.call) v' w' out,
    MainC.main_loop fuel v w out0 = Some (v', w', out) →
    ∃ acts,
      out = out0 ++ acts ++ MainC.finish v' ∧ Forall before_finish acts ∧
      (MainC.running (MainC.st v') = true →
       MainC.Shared (Perror "poll") ∈ acts ∨
       Z.land (revents (MainC.slot 0 (MainC.fds v'))) (Z.lor POLLERR POLLHUP) ≠ 0).
Proof.
  induction fuel as [|fuel IH]; intros v w out0 v' w' out Hrun; [discriminate|].
  cbn [MainC.main_loop] in Hrun.
  destruct (MainC.running (MainC.st v)) eqn:Hrunning.
  2: { injection Hrun as <- <- <-. exists []. split; [reflexivity|].
       split; [constructor|]. intros Hr. congruence. }
  destruct (MainC.turn v w) as [[[o v1] w1] acts1] eqn:Hturn.
  apply mainc_turn_exit in Hturn as (Hq1 & Ho).
  destruct Ho as [->|(-> & Hr1 & Hcause)].
  - apply IH in Hrun as (acts & -> & Hq & Hwhy). exists (acts1 ++ acts).
    split; [rewrite <- !app_assoc; reflexivity|].
    split; [apply Forall_app; auto|]. intros Hr.
    destruct (Hwhy Hr) as [Hin|?]; [|auto]. left. apply elem_of_app. auto.
  - injection Hrun as <- <- <-. exists acts1. split; [reflexivity|].
    split; [exact Hq1|]. intros _. exact Hcause.
Qed.

(** X21.  When [main] of the first program ends, its trace ends with
    the calls that disconnect; the message [wl_display_dispatch] is
    printed exactly when [running] is still set, which is when the loop
    was left not on a close request but because [poll] failed or
    reported an error or a hangup on the display socket; and a failure
    of [poll] ends the loop whatever its [errno], [EINTR] included. *)
Theorem first_program_exit_message (fuel : nat) (v : MainC.loop_vars) (w : W)
    (v' : MainC.loop_vars) (w' : W) (out : list MainC.call) :
  MainC.main_loop fuel v w [] = Some (v', w', out) →
  last out = Some MainC.Disconnect ∧
  (MainC.Shared (Perror "wl_display_dispatch") ∈ out
   ↔ MainC.running (MainC.st v') = true) ∧
  (MainC.running (MainC.st v') = true →
   MainC.Shared (Perror "poll") ∈ out ∨
   Z.land (revents (MainC.slot 0 (MainC.fds v'))) (Z.lor POLLERR POLLHUP) ≠ 0) ∧
  (∀ (u : MainC.loop_vars) (x x1 : W) (errno : Z) (revs : list Z) (n : nat),
     MainC.running (MainC.st u) = true →
     poll (MainC.fds u) 0 x = ((-1, errno, revs), x1) →
     ∃ u',
       MainC.main_loop (S n) u x []
       = Some (u', x1,
               [MainC.Shared (Poll 2 (events (MainC.slot 0 (MainC.fds u))) 0);
                MainC.Shared (Perror "poll");
                MainC.Shared (Perror "wl_display_dispatch");
                MainC.Disconnect])).
Proof.
  intros Hrun.
  apply mainc_main_loop_exit in Hrun as (acts & -> & Hq & Hwhy). cbn [app].
  unfold MainC.finish. split; [|split; [|split]].
  - rewrite !app_assoc. apply last_snoc.
  - split.
    + intros Hin. apply elem_of_app in Hin as [Hin|Hin].
      * rewrite Forall_forall in Hq. destruct (Hq _ Hin) as [Hne _]. contradiction.
      * destruct (MainC.running (MainC.st v')); [reflexivity|].
        apply list_elem_of_singleton in Hin. discriminate.
    + intros ->. apply elem_of_app. right. apply list_elem_of_here.
  - intros Hr. destruct (Hwhy Hr) as [Hin|?]; [|auto]. left.
    apply elem_of_app. auto.
  - intros u x x1 errno revs n Hr Hpoll. eexists.
    cbn [MainC.main_loop]. rewrite Hr. unfold MainC.turn. rewrite Hpoll.
    cbn [Z.eqb Pos.eqb MainC.st app]. unfold MainC.finish. cbn [MainC.st].
    rewrite Hr. reflexivity.
Qed.

End First.

(** * The properties on concrete runs *)

Lemma reap_shrinks_in_order_witness :
  ∃ v' w' out,
    @reap _ (Sim.platform Sim.quiet) three_frames Sim.start = Some (v', w', out) ∧
    map Fence.frame_num (live_fences v') = [0; 3; 5] ∧
    printed out = [4] ∧ len v' = 3%nat.
Proof.
  destruct (@reap_shrinks_in_order _ (Sim.platform Sim.quiet) three_frames Sim.start)
    as (v' & w' & out & Hrun & _); [reflexivity|cbn; lia|].
  exists v', w', out. split; [exact Hrun|].
  vm_compute in Hrun. injection Hrun as <- <- <-.
  repeat split; reflexivity.
Defined.

Lemma track_appends_and_grows_witness :
  tracker_ok (init_vars 7 wl_zero) ∧
  (∃ v' w',
     @track _ (Sim.platform Sim.quiet) 5 (init_vars 7 wl_zero) Sim.start
     = (true, v', w') ∧
     live_fds v' = [ {| fd := 7; events := Z.lor POLLIN POLLOUT; revents := 0 |};
                     {| fd := 100; events := POLLIN; revents := 0 |} ] ∧
     live_fences v' = [ zero_fence;
                        {| Fence.frame_num := 0; Fence.start_ns := 5 |} ] ∧
     cap v' = 10%nat) ∧
  (∃ v' w',
     @track_all _ (Sim.platform Sim.quiet) eleven (init_vars 7 wl_zero) Sim.start
     = (true, v', w') ∧
     cap v' = 20%nat ∧ len v' = 12%nat ∧
     live_fences v' = zero_fence :: map record_of eleven) ∧
  (@track_all _ (Sim.platform Sim.cramped) eleven (init_vars 7 wl_zero)
     Sim.start).1.1 = false ∧
  ∃ v' w' out,
    @main_loop _ (Sim.platform Sim.cramped) 20 2 (cfg true true 20)
      (init_vars 7 wl_zero) Sim.start [] = Some (1, v', w', out) ∧
    drawn out = [0; 1; 2; 3; 4; 5; 6; 7; 8; 9] ∧
    len v' = 10%nat ∧ cap v' = 20%nat ∧ fds v' = [] ∧ fences v' = [].
Proof.
  assert (Hok : tracker_ok (init_vars 7 wl_zero)).
  { unfold tracker_ok. cbn. lia. }
  split; [exact Hok|].
  destruct (@track_appends_and_grows _ (Sim.platform Sim.quiet)
              (init_vars 7 wl_zero) Sim.start 5 eleven Hok)
    as (Happend & _ & _ & _ & _ & _ & Hscenario & _).
  split; [|split; [|split; [reflexivity|]]].
  - destruct Happend as (v' & Hrun & _ & _ & Hcap & _ & _ & Hlp & Hlf & _);
      [left; cbn; lia|].
    exists v'. eexists. split; [exact Hrun|]. split; [exact Hlp|].
    split; [exact Hlf|exact Hcap].
  - eexists _, _. split; [vm_compute; reflexivity|].
    apply (Hscenario 7 wl_zero _ Sim.start); [reflexivity|vm_compute; reflexivity].
  - eexists _, _, _. split; [vm_compute; reflexivity|].
    repeat split; reflexivity.
Defined.

Lemma sim_read_intent_contract (sc : Sim.script) :
  @read_intent_contract _ (Sim.platform sc).
Proof. intros [t [] u] _ _; cbn; auto. Defined.

Lemma sim_flush_contract (sc : Sim.script) :
  @flush_contract _ (Sim.platform sc).
Proof.
  intros [t st u]. cbn. destruct (Z.ltb_spec 0 u); cbn.
  - intros _. destruct (Sim.flush_errno sc t); cbn; lia.
  - destruct (Sim.flush_errno sc t); cbn; lia.
Defined.






Lemma fence_timestamp_latest_witness :
  @fence_timestamp _ (Sim.platform Sim.quiet) 200 Sim.start
  = ((9, []), Sim.start) ∧
  @fence_timestamp _ (Sim.platform Sim.quiet) 201 Sim.start
  = ((0, [Perror "SYNC_IOC_FILE_INFO"]), Sim.start).
Proof.
  destruct (@fence_timestamp_latest _ (Sim.platform Sim.quiet) 200 Sim.start)
    as [_ Hmerged].
  destruct (@fence_timestamp_latest _ (Sim.platform Sim.quiet) 201 Sim.start)
    as [_ Hnone].
  cbn in Hmerged, Hnone. split; [|exact Hnone].
  destruct Hmerged as [Hrun _]; [cbn; lia|repeat constructor; cbn; lia|].
  exact Hrun.
Defined.



(** C8 fails as stated: on a display connection whose queue is never
    emptied the read-intent loop makes another attempt after every
    attempt, whatever bound is put on it, and no turn of the main loop
    completes. *)
Lemma read_intent_retry_has_no_bound :
  (∀ fuel, @prepare_read_loop _ wedged fuel wl_zero tt [] = None) ∧
  (∀ fuel, @asked _ (@read_again _ wedged) (@read_next _ wedged) fuel tt = fuel) ∧
  (∀ inner, @iteration _ wedged inner (cfg true false 3) (init_vars 7 wl_zero) tt
            = None) ∧
  (∀ fuel inner, @main_loop _ wedged fuel inner (cfg true false 3)
                   (init_vars 7 wl_zero) tt [] = None).
Proof.
  assert (Hloop : ∀ fuel s out,
            @prepare_read_loop _ wedged fuel s tt out = None).
  { induction fuel as [|fuel IH]; intros s out; [reflexivity|].
    cbn [prepare_read_loop]. cbn. apply IH. }
  assert (Hiter : ∀ inner, @iteration _ wedged inner (cfg true false 3)
                             (init_vars 7 wl_zero) tt = None).
  { intros inner. unfold iteration. cbn. rewrite Hloop. reflexivity. }
  split; [intros fuel; apply Hloop|]. split; [|split; [exact Hiter|]].
  - induction fuel as [|fuel IH]; [reflexivity|]. cbn [asked].
    change (@read_again _ wedged tt) with true.
    change (@read_next _ wedged tt) with tt. rewrite IH. reflexivity.
  - intros [|fuel] inner; [reflexivity|]. cbn [main_loop].
    change (negb (close (wl (init_vars 7 wl_zero)))
            && (frame_num (init_vars 7 wl_zero) <? max_frames (cfg true false 3)))
      with true. cbn match. rewrite Hiter. reflexivity.
Qed.

Lemma retries_last_as_long_as_asked_witness :
  @prepare_read_loop _ (Sim.platform Sim.paced) 2 wl_zero Sim.busy []
  = Some (set_serial 1 wl_zero, Sim.set_stale false Sim.busy,
          [WlDisplayPrepareRead; WlDisplayDispatchPending; WlDisplayPrepareRead]) ∧
  @flush_loop _ (Sim.platform Sim.paced) 2 Sim.busy []
  = Some (0, 0, Sim.set_unsent 0 Sim.busy, [WlDisplayFlush; WlDisplayFlush]) ∧
  @prepare_read_loop _ (Sim.platform Sim.paced) 1 wl_zero Sim.busy [] = None ∧
  ∃ r, @iteration _ (Sim.platform Sim.paced) 2 (cfg false true 3)
         (init_vars 7 wl_zero) Sim.busy = Some r.
Proof.
  destruct (@retries_last_as_long_as_asked _ (Sim.platform Sim.paced) 2
              wl_zero Sim.busy)
    as (Hread & _ & Hflush & _ & _ & _ & Hturn).
  destruct (@retries_last_as_long_as_asked _ (Sim.platform Sim.paced) 1
              wl_zero Sim.busy)
    as (_ & Hnone & _).
  split; [|split; [|split]].
  - destruct Hread as (s' & out & Hrun & _); [vm_compute; lia|].
    rewrite Hrun. vm_compute in Hrun. injection Hrun as <- <-. reflexivity.
  - destruct Hflush as (Hrun & _); [vm_compute; lia|]. exact Hrun.
  - apply Hnone. reflexivity.
  - destruct (Hturn (sim_read_intent_contract _) (sim_flush_contract _)
                ltac:(lia) (cfg false true 3) (init_vars 7 wl_zero))
      as (o & v' & w' & out & Hrun & _).
    eexists. exact Hrun.
Defined.

Lemma turns_loop_steps {W} `{Platform W} (n inner : nat) (c : config) :
  ∀ (v : main_vars) (w : W) (out : list action) x,
  turns n inner c v w out = Some x → loop_steps c (v, w, out) x.
Proof.
  induction n as [|n IH]; intros v w out x Hrun; cbn [turns] in Hrun.
  - injection Hrun as <-. apply loop_here.
  - destruct (close (wl v)) eqn:Hclose; [discriminate|]. cbn [negb andb] in Hrun.
    destruct (Z.ltb_spec (frame_num v) (max_frames c)) as [Hlt|]; [|discriminate].
    destruct (iteration inner c v w) as [[[[[| |] v1] w1] acts]|] eqn:Hit;
      try discriminate.
    eapply loop_turn; eauto.
Defined.

Lemma at_most_one_frame_callback_witness :
  ∃ v' w' out',
    @turns _ (Sim.platform Sim.paced) 2 2 (cfg false true 3)
      (init_vars 7 wl_zero) Sim.start [] = Some (v', w', out') ∧
    calls WlSurfaceFrame out' = 2%nat ∧ calls WlCallbackDestroy out' = 2%nat ∧
    outstanding out' = 0 ∧
    ∀ pre post, out' = pre ++ post → 0 ≤ outstanding pre ≤ 1.
Proof.
  destruct (@turns _ (Sim.platform Sim.paced) 2 2 (cfg false true 3)
              (init_vars 7 wl_zero) Sim.start [])
    as [[[v' w'] out']|] eqn:Hrun; [|vm_compute in Hrun; discriminate].
  pose proof (turns_loop_steps _ _ _ _ _ _ _ Hrun) as Hsteps.
  destruct (@at_most_one_frame_callback _ (Sim.platform Sim.paced)
              (cfg false true 3) (init_vars 7 wl_zero) Sim.start v' w' out'
              eq_refl)
    as (_ & _ & _ & Hinv).
  destruct (Hinv eq_refl Hsteps) as (Hcount & Hprefix & _).
  exists v', w', out'. split; [reflexivity|].
  vm_compute in Hrun. injection Hrun as <- <- <-.
  repeat split; try reflexivity; apply (Hprefix pre post); assumption.
Defined.


Lemma fatal_errors_cancel_and_break_witness :
  tracker_ok (init_vars 7 wl_zero) ∧
  ∃ v' w' out,
    @main_loop _ (Sim.platform Sim.broken) 1 2 (cfg true true 3)
      (init_vars 7 wl_zero) Sim.start []
    = Some (0, v', w', out) ∧
    out = [GlDrawArrays 0 500 500; EglSwapBuffers; WlDisplayPrepareRead;
           WlDisplayFlush; WlDisplayCancelRead; Close 100; Teardown].
Proof.
  split; [unfold tracker_ok; cbn; lia|].
  pose proof (λ v1 w1 w2 w3 s2,
                @fatal_errors_cancel_and_break _ (Sim.platform Sim.broken)
                  0 2 (cfg true true 3) (init_vars 7 wl_zero) v1
                  Sim.start w1 w2 w3 s2 []) as Hthm.
  edestruct Hthm as (_ & Hfatal & _);
    [unfold tracker_ok; cbn; lia|reflexivity|reflexivity
    |vm_compute; reflexivity|vm_compute; reflexivity|vm_compute; reflexivity|].
  destruct Hfatal as [_ Hrun]; [reflexivity|discriminate|].
  rewrite Hrun. eexists _, _, _. split; reflexivity.
Defined.


Lemma has_ext_matches_initial_parts_witness :
  has_ext egl_short_exts (list_ascii_of_string "EGL_ANDROID_native_fence_sync")
  = Some true.
Proof.
  destruct (has_ext_matches_initial_parts egl_short_exts
              (list_ascii_of_string "EGL_ANDROID_native_fence_sync"))
    as (b & Hrun & Hb); [compute_done|].
  rewrite Hrun. f_equal. apply Hb.
  exists (list_ascii_of_string "EGL_KHR_fence_sync "),
    (list_ascii_of_string "EGL_ANDROID_native_fence"), [].
  split; [reflexivity|]. split.
  - split; [right; reflexivity|]. split; [compute_done|].
    left. split; [reflexivity|discriminate].
  - exists (list_ascii_of_string "_sync"). reflexivity.
Defined.

Lemma has_ext_finds_listed_witness :
  has_ext egl_client_exts (list_ascii_of_string "EGL_EXT_platform_wayland")
  = Some true.
Proof.
  apply (has_ext_finds_listed
           (list_ascii_of_string
              "EGL_EXT_client_extensions EGL_EXT_platform_base ")
           (list_ascii_of_string "EGL_EXT_platform_wayland")
           (list_ascii_of_string " ")).
  - compute_done.
  - discriminate.
  - compute_done.
  - right. reflexivity.
  - right. reflexivity.
Defined.

Lemma has_ext_empty_piece_matches_all_witness :
  has_ext egl_spaced_exts (list_ascii_of_string "EGL_EXT_platform_wayland")
  = Some true.
Proof.
  apply (has_ext_empty_piece_matches_all
           (list_ascii_of_string "EGL_KHR_image ")
           (list_ascii_of_string "EGL_KHR_fence_sync")).
  - compute_done.
  - right. reflexivity.
Defined.

Lemma init_vars_ok (display_fd : Z) (s : wl_state) :
  tracker_ok (init_vars display_fd s).
Proof. unfold tracker_ok. cbn. lia. Defined.

Lemma fences_closed_as_often_as_duplicated_witness :
  ∃ v' w' out,
    @main_loop _ (Sim.platform Sim.alternating) 10 2 (cfg true true 4)
      (init_vars 7 wl_zero) Sim.start [] = Some (0, v', w', out) ∧
    closed out = [100; 102; 101; 103] ∧ drawn out = [0; 1; 2; 3] ∧
    @duplicated_in _ (Sim.platform Sim.alternating) 10 2 (cfg true true 4)
      (init_vars 7 wl_zero) Sim.start = [100; 101; 102; 103] ∧
    closed out ≡ₚ [100; 101; 102; 103].
Proof.
  destruct (@main_loop _ (Sim.platform Sim.alternating) 10 2 (cfg true true 4)
              (init_vars 7 wl_zero) Sim.start [])
    as [[[[code v'] w'] out]|] eqn:Hrun; [|vm_compute in Hrun; discriminate].
  pose proof Hrun as Hval. vm_compute in Hval. injection Hval as <- <- <- <-.
  destruct (@fences_closed_as_often_as_duplicated _ (Sim.platform Sim.alternating)
              10 2 (cfg true true 4) (init_vars 7 wl_zero) Sim.start _ _ _
              (init_vars_ok 7 wl_zero) Hrun)
    as (Hperm & Hlen).
  eexists _, _, _. split; [reflexivity|].
  split; [reflexivity|]. split; [reflexivity|]. split; [reflexivity|].
  exact Hperm.
Defined.

Lemma exit_leaves_no_frame_callback_witness :
  ∃ v' w' out,
    @main_loop _ (Sim.platform Sim.closing) 10 2 (cfg false true 3)
      (init_vars 7 wl_zero) Sim.start [] = Some (0, v', w', out) ∧
    calls WlSurfaceFrame out = 1%nat ∧ calls WlCallbackDestroy out = 1%nat ∧
    outstanding out = 0 ∧ last out = Some Teardown.
Proof.
  destruct (@main_loop _ (Sim.platform Sim.closing) 10 2 (cfg false true 3)
              (init_vars 7 wl_zero) Sim.start [])
    as [[[[code v'] w'] out]|] eqn:Hrun; [|vm_compute in Hrun; discriminate].
  pose proof Hrun as Hval. vm_compute in Hval. injection Hval as <- <- <- <-.
  destruct (@exit_leaves_no_frame_callback _ (Sim.platform Sim.closing)
              10 2 (cfg false true 3) (init_vars 7 wl_zero) Sim.start _ _ _
              eq_refl Hrun)
    as (Hnone & Hlast & _).
  eexists _, _, _. split; [reflexivity|].
  split; [reflexivity|]. split; [reflexivity|]. split; [exact Hnone|exact Hlast].
Defined.

Lemma allocation_failure_returns_at_once_witness :
  ∃ v' w' out,
    @main_loop _ (Sim.platform Sim.cramped) 20 2 (cfg true true 20)
      (init_vars 7 wl_zero) Sim.start [] = Some (1, v', w', out) ∧
    len v' = 10%nat ∧ cap v' = 20%nat ∧ fds v' = [] ∧ fences v' = [] ∧
    closed out = [] ∧ calls Teardown out = 0%nat ∧
    last out = Some EglSwapBuffers ∧
    ∃ held, length held = 9%nat ∧
            held ≡ₚ [100; 101; 102; 103; 104; 105; 106; 107; 108].
Proof.
  destruct (@main_loop _ (Sim.platform Sim.cramped) 20 2 (cfg true true 20)
              (init_vars 7 wl_zero) Sim.start [])
    as [[[[code v'] w'] out]|] eqn:Hrun; [|vm_compute in Hrun; discriminate].
  pose proof Hrun as Hval. vm_compute in Hval. injection Hval as <- <- <- <-.
  destruct (@allocation_failure_returns_at_once _ (Sim.platform Sim.cramped)
              20 2 (cfg true true 20) (init_vars 7 wl_zero) Sim.start _ _ _ _
              (init_vars_ok 7 wl_zero) Hrun)
    as [[=]|(_ & _ & _ & _ & _ & _ & _ & Hnone & Hlast & held & Hn & _ & Hperm)].
  eexists _, _, _. split; [reflexivity|].
  do 5 (split; [reflexivity|]). split; [exact Hnone|]. split; [exact Hlast|].
  exists held. split; [exact Hn|exact Hperm].
Defined.

Lemma slot_zero_is_the_display_socket_witness :
  ∃ v' w' out',
    @turns _ (Sim.platform Sim.alternating) 3 2 (cfg true true 5)
      (init_vars 7 wl_zero) Sim.start [] = Some (v', w', out') ∧
    take 3 (fds v')
    = [ {| fd := 7; events := POLLIN; revents := 0 |};
        {| fd := 101; events := POLLIN; revents := 0 |};
        {| fd := 102; events := POLLIN; revents := POLLIN |} ] ∧
    len v' = 2%nat ∧
    ∃ p0, fds v' !! 0%nat = Some p0 ∧ fd p0 = 7.
Proof.
  destruct (@turns _ (Sim.platform Sim.alternating) 3 2 (cfg true true 5)
              (init_vars 7 wl_zero) Sim.start [])
    as [[[v' w'] out']|] eqn:Hrun; [|vm_compute in Hrun; discriminate].
  pose proof (turns_loop_steps _ _ _ _ _ _ _ Hrun) as Hsteps.
  destruct (@slot_zero_is_the_display_socket _ (Sim.platform Sim.alternating)
              (cfg true true 5) 7 wl_zero Sim.start v' w' out' Hsteps)
    as ((p0 & Hp0 & Hfd & _) & _).
  exists v', w', out'. split; [reflexivity|].
  split; [|split; [|exists p0; auto]];
    vm_compute in Hrun; injection Hrun as <- <- <-; reflexivity.
Defined.

Lemma poll_asks_for_output_after_eagain_witness :
  ∃ v' w' out' o v'' w'' acts,
    @turns _ (Sim.platform congested) 1 2 (cfg true true 5)
      (init_vars 7 wl_zero) Sim.start [] = Some (v', w', out') ∧
    @iteration _ (Sim.platform congested) 2 (cfg true true 5) v' w'
    = Some (o, v'', w'', acts) ∧
    polls acts = [(2%nat, Z.lor POLLIN POLLOUT, 0)].
Proof.
  destruct (@turns _ (Sim.platform congested) 1 2 (cfg true true 5)
              (init_vars 7 wl_zero) Sim.start [])
    as [[[v' w'] out']|] eqn:Hrun; [|vm_compute in Hrun; discriminate].
  pose proof (turns_loop_steps _ _ _ _ _ _ _ Hrun) as Hsteps.
  pose proof Hrun as Hval. vm_compute in Hval. injection Hval as <- <- <-.
  pose proof (λ v1 w1 w2 w3 s2 out1 out2 out3 ret errno,
                @poll_asks_for_output_after_eagain _ (Sim.platform congested)
                  (cfg true true 5) 7 wl_zero Sim.start _ _ _ 2
                  v1 w1 w2 w3 s2 out1 out2 out3 ret errno Hsteps) as Hthm.
  edestruct Hthm as (_ & o & v'' & w'' & acts & Hit & _ & _ & Hagain & _);
    [vm_compute; reflexivity|vm_compute; reflexivity|vm_compute; reflexivity|].
  eexists _, _, _, o, v'', w'', acts. split; [reflexivity|].
  split; [exact Hit|]. apply Hagain; reflexivity.
Defined.

Lemma frames_drawn_are_counted_witness :
  ∃ v' w' out',
    @turns _ (Sim.platform Sim.paced) 3 2 (cfg false true 5)
      (init_vars 7 wl_zero) Sim.start [] = Some (v', w', out') ∧
    frame_num v' = 3 ∧ drawn out' = seqZ 0 (frame_num v').
Proof.
  destruct (@turns _ (Sim.platform Sim.paced) 3 2 (cfg false true 5)
              (init_vars 7 wl_zero) Sim.start [])
    as [[[v' w'] out']|] eqn:Hrun; [|vm_compute in Hrun; discriminate].
  pose proof (turns_loop_steps _ _ _ _ _ _ _ Hrun) as Hsteps.
  destruct (@frames_drawn_are_counted _ (Sim.platform Sim.paced)
              (cfg false true 5) 7 wl_zero Sim.start v' w' out' Hsteps)
    as [_ Hdrawn].
  exists v', w', out'. split; [reflexivity|]. split; [|exact Hdrawn].
  vm_compute in Hrun. injection Hrun as <- <- <-. reflexivity.
Defined.

Lemma without_fences_nothing_is_tracked_witness :
  ∃ v' w' out',
    @turns _ (Sim.platform Sim.quiet) 3 2 (cfg true false 5)
      (init_vars 7 wl_zero) Sim.start [] = Some (v', w', out') ∧
    drawn out' = [0; 1; 2] ∧ len v' = 1%nat ∧ cap v' = 10%nat ∧
    closed out' = [] ∧ printed out' = [].
Proof.
  destruct (@turns _ (Sim.platform Sim.quiet) 3 2 (cfg true false 5)
              (init_vars 7 wl_zero) Sim.start [])
    as [[[v' w'] out']|] eqn:Hrun; [|vm_compute in Hrun; discriminate].
  pose proof (turns_loop_steps _ _ _ _ _ _ _ Hrun) as Hsteps.
  destruct (@without_fences_nothing_is_tracked _ (Sim.platform Sim.quiet)
              (cfg true false 5) 7 wl_zero Sim.start v' w' out' eq_refl Hsteps)
    as (Hlen & Hcap & Hclosed & Hprinted).
  exists v', w', out'. split; [reflexivity|]. split; [|auto].
  vm_compute in Hrun. injection Hrun as <- <- <-. reflexivity.
Defined.

Lemma every_frame_is_tracked_or_reported_witness :
  ∃ v' w' out',
    @turns _ (Sim.platform Sim.alternating) 5 2 (cfg true true 5)
      (init_vars 7 wl_zero) Sim.start [] = Some (v', w', out') ∧
    drawn out' = [0; 1; 2; 3; 4] ∧ printed out' = [0; 2; 4] ∧
    tracked v' = [1; 3] ∧ len v' = 3%nat ∧
    printed out' ++ tracked v' ≡ₚ drawn out'.
Proof.
  destruct (@turns _ (Sim.platform Sim.alternating) 5 2 (cfg true true 5)
              (init_vars 7 wl_zero) Sim.start [])
    as [[[v' w'] out']|] eqn:Hrun; [|vm_compute in Hrun; discriminate].
  pose proof (turns_loop_steps _ _ _ _ _ _ _ Hrun) as Hsteps.
  destruct (@every_frame_is_tracked_or_reported _ (Sim.platform Sim.alternating)
              (cfg true true 5) 7 wl_zero Sim.start v' w' out' eq_refl Hsteps)
    as (Hperm & _).
  exists v', w', out'. split; [reflexivity|].
  split; [|split; [|split; [|split; [|exact Hperm]]]];
    vm_compute in Hrun; injection Hrun as <- <- <-; reflexivity.
Defined.

Lemma capacity_only_doubles_witness :
  ∃ v' w' out',
    @turns _ (Sim.platform Sim.alternating) 19 2 (cfg true true 50)
      (init_vars 7 wl_zero) Sim.start [] = Some (v', w', out') ∧
    len v' = 10%nat ∧ cap v' = 20%nat ∧ length (fds v') = 20%nat ∧
    ∃ k : nat, cap v' = (10 * 2 ^ k)%nat.
Proof.
  destruct (@turns _ (Sim.platform Sim.alternating) 19 2 (cfg true true 50)
              (init_vars 7 wl_zero) Sim.start [])
    as [[[v' w'] out']|] eqn:Hrun; [|vm_compute in Hrun; discriminate].
  pose proof (turns_loop_steps _ _ _ _ _ _ _ Hrun) as Hsteps.
  destruct (@capacity_only_doubles _ (Sim.platform Sim.alternating)
              (cfg true true 50) 7 wl_zero Sim.start v' w' out' Hsteps)
    as (_ & _ & _ & Hcap).
  exists v', w', out'. split; [reflexivity|].
  split; [|split; [|split; [|exact Hcap]]];
    vm_compute in Hrun; injection Hrun as <- <- <-; reflexivity.
Defined.

Lemma synchronized_frames_follow_callbacks_witness :
  ∃ v' w' out',
    @turns _ (Sim.platform Sim.paced) 3 2 (cfg false true 5)
      (init_vars 7 wl_zero) Sim.start [] = Some (v', w', out') ∧
    drawn out' = [0; 1; 2] ∧ calls WlSurfaceFrame out' = 3%nat ∧
    calls WlCallbackDestroy out' = 3%nat ∧
    length (drawn out') = calls WlSurfaceFrame out'.
Proof.
  destruct (@turns _ (Sim.platform Sim.paced) 3 2 (cfg false true 5)
              (init_vars 7 wl_zero) Sim.start [])
    as [[[v' w'] out']|] eqn:Hrun; [|vm_compute in Hrun; discriminate].
  pose proof (turns_loop_steps _ _ _ _ _ _ _ Hrun) as Hsteps.
  destruct (@synchronized_frames_follow_callbacks _ (Sim.platform Sim.paced)
              (cfg false true 5) (init_vars 7 wl_zero) Sim.start v' w' out'
              eq_refl eq_refl Hsteps)
    as (Hdrawn & _).
  exists v', w', out'. split; [reflexivity|].
  split; [|split; [|split; [|exact Hdrawn]]];
    vm_compute in Hrun; injection Hrun as <- <- <-; reflexivity.
Defined.

Lemma silent_server_gets_one_frame_witness :
  ∃ v' w' out',
    @turns _ (Sim.platform Sim.quiet) 3 2 (cfg false true 5)
      (init_vars 7 wl_zero) Sim.start [] = Some (v', w', out') ∧
    drawn out' = [0] ∧ frame_num v' = 1 ∧ frame (wl v') = true ∧
    calls WlCallbackDestroy out' = 0%nat.
Proof.
  destruct (@turns _ (Sim.platform Sim.quiet) 3 2 (cfg false true 5)
              (init_vars 7 wl_zero) Sim.start [])
    as [[[v' w'] out']|] eqn:Hrun; [|vm_compute in Hrun; discriminate].
  pose proof (turns_loop_steps _ _ _ _ _ _ _ Hrun) as Hsteps.
  destruct (@silent_server_gets_one_frame _ (Sim.platform Sim.quiet)
              (cfg false true 5) (init_vars 7 wl_zero) Sim.start v' w' out'
              eq_refl eq_refl)
    as (Hnone & _); [intros x time; apply not_elem_of_nil|exact Hsteps|].
  exists v', w', out'. split; [reflexivity|].
  split; [|split; [|split; [|exact Hnone]]];
    vm_compute in Hrun; injection Hrun as <- <- <-; reflexivity.
Defined.

Lemma a_turn_never_resizes_to_zero_witness :
  ∃ v' w' out,
    @iteration _ (Sim.platform Sim.quiet) 2 fixed_800x600
      (init_vars 7 proposed_1024x768) Sim.start = Some (Continue, v', w', out) ∧
    acks out = [7] ∧ calls (WlEglWindowResize 800 600) out = 1%nat ∧
    Forall resize_ok out.
Proof.
  destruct (@iteration _ (Sim.platform Sim.quiet) 2 fixed_800x600
              (init_vars 7 proposed_1024x768) Sim.start)
    as [[[[o v'] w'] out]|] eqn:Hrun; [|vm_compute in Hrun; discriminate].
  destruct (@a_turn_never_resizes_to_zero _ (Sim.platform Sim.quiet) 2
              fixed_800x600 (init_vars 7 proposed_1024x768) Sim.start o v' w' out
              Hrun)
    as (Hres & _).
  vm_compute in Hrun. injection Hrun as <- <- <- <-.
  eexists _, _, _. split; [reflexivity|]. split; [reflexivity|].
  split; [reflexivity|exact Hres].
Defined.

Lemma mainc_turns_loop_steps {W} `{Platform W} `{Dispatch W} (n : nat) :
  ∀ (v : MainC.loop_vars) (w : W) (out : list MainC.call) x,
  MainC.turns n v w out = Some x → MainC.loop_steps (v, w, out) x.
Proof.
  induction n as [|n IH]; intros v w out x Hrun; cbn [MainC.turns] in Hrun.
  - injection Hrun as <-. apply MainC.loop_here.
  - destruct (MainC.running (MainC.st v)) eqn:Hrunning; [|discriminate].
    destruct (MainC.turn v w) as [[[[| |] v1] w1] acts] eqn:Hturn;
      try discriminate.
    eapply MainC.loop_turn; eauto.
Defined.

Lemma first_program_rearms_callback_witness :
  ∃ v0 w0 out0 v' w' out',
    @MainC.start _ (Sim.platform eager) 7 MainC.state_zero Sim.start
    = (v0, w0, out0) ∧
    @MainC.turns _ (Sim.platform eager) (sim_dispatch eager) 3 v0 w0 out0
    = Some (v', w', out') ∧
    calls EglSwapBuffers (MainC.shared out') = 4%nat ∧
    calls WlCallbackDestroy (MainC.shared out') = 3%nat ∧
    outstanding (MainC.shared out') = 1.
Proof.
  destruct (@MainC.start _ (Sim.platform eager) 7 MainC.state_zero Sim.start)
    as [[v0 w0] out0] eqn:Hstart.
  destruct (@MainC.turns _ (Sim.platform eager) (sim_dispatch eager) 3 v0 w0 out0)
    as [[[v' w'] out']|] eqn:Hrun.
  2: { vm_compute in Hstart. injection Hstart as <- <- <-. vm_compute in Hrun.
       discriminate. }
  pose proof (mainc_turns_loop_steps _ _ _ _ _ Hrun) as Hsteps.
  destruct (@first_program_rearms_callback _ (Sim.platform eager)
              (sim_dispatch eager) 7 MainC.state_zero Sim.start v0 w0 out0
              v' w' out' Hstart Hsteps)
    as (_ & Hcount & _).
  exists v0, w0, out0, v', w', out'. split; [reflexivity|].
  split; [exact Hrun|]. split; [|split; [|exact Hcount]];
    vm_compute in Hstart; injection Hstart as <- <- <-;
    vm_compute in Hrun; injection Hrun as <- <- <-; reflexivity.
Defined.

Lemma first_program_poll_set_witness :
  ∃ v0 w0 out0 v' w' out',
    @MainC.start _ (Sim.platform eager) 7 MainC.state_zero Sim.start
    = (v0, w0, out0) ∧
    @MainC.turns _ (Sim.platform eager) (sim_dispatch eager) 3 v0 w0 out0
    = Some (v', w', out') ∧
    MainC.fds v' = [ {| fd := 7; events := 5; revents := POLLIN |};
                     {| fd := 103; events := POLLIN; revents := 0 |} ] ∧
    polls (MainC.shared out') = [(2%nat, 5, 0); (2%nat, 5, 0); (2%nat, 5, 0)] ∧
    MainC.fence (MainC.st v') = -1.
Proof.
  destruct (@MainC.start _ (Sim.platform eager) 7 MainC.state_zero Sim.start)
    as [[v0 w0] out0] eqn:Hstart.
  destruct (@MainC.turns _ (Sim.platform eager) (sim_dispatch eager) 3 v0 w0 out0)
    as [[[v' w'] out']|] eqn:Hrun.
  2: { vm_compute in Hstart. injection Hstart as <- <- <-. vm_compute in Hrun.
       discriminate. }
  pose proof (mainc_turns_loop_steps _ _ _ _ _ Hrun) as Hsteps.
  destruct (@first_program_poll_set _ (Sim.platform eager)
              (sim_dispatch eager) 7 MainC.state_zero Sim.start v0 w0 out0
              v' w' out' Hstart Hsteps)
    as (_ & Hfence & _).
  exists v0, w0, out0, v', w', out'. split; [reflexivity|].
  split; [exact Hrun|]. split; [|split; [|exact Hfence]];
    vm_compute in Hstart; injection Hstart as <- <- <-;
    vm_compute in Hrun; injection Hrun as <- <- <-; reflexivity.
Defined.

Lemma unsignalled_fence_is_overwritten_witness :
  ∃ v' w' out,
    @MainC.turn _ (Sim.platform eager) (sim_dispatch eager)
      (@MainC.start _ (Sim.platform eager) 7 MainC.state_zero Sim.start).1.1
      Sim.start
    = (Continue, v', w', out) ∧
    fd (MainC.slot 1
          (MainC.fds
             (@MainC.start _ (Sim.platform eager) 7 MainC.state_zero
                Sim.start).1.1))
    = 100 ∧
    fd (MainC.slot 1 (MainC.fds v')) = 101 ∧
    closed (MainC.shared out) = [].
Proof.
  destruct (@unsignalled_fence_is_overwritten _ (Sim.platform eager)
              (sim_dispatch eager)
              (@MainC.start _ (Sim.platform eager) 7 MainC.state_zero
                 Sim.start).1.1
              Sim.start (Sim.set_now 1 Sim.start) (Sim.set_now 1 Sim.start)
              {| fd := 7; events := 5; revents := 0 |}
              {| fd := 100; events := 1; revents := 0 |}
              2 0 POLLIN 0 [] [wl_callback_done 1])
    as (v' & w' & out & Hturn & Hclosed & _);
    [reflexivity|reflexivity|discriminate|reflexivity|discriminate
    |reflexivity|reflexivity|discriminate|reflexivity|discriminate|].
  exists v', w', out. split; [exact Hturn|]. split; [reflexivity|].
  split; [|exact Hclosed].
  vm_compute in Hturn. injection Hturn as <- <- <-. reflexivity.
Defined.

Lemma first_program_exit_message_witness :
  ∃ v' w' out,
    @MainC.main_loop _ (Sim.platform interrupted) (sim_dispatch interrupted) 5
      (@MainC.start _ (Sim.platform interrupted) 7 MainC.state_zero
         Sim.start).1.1
      Sim.start []
    = Some (v', w', out) ∧
    out = [ MainC.Shared (Poll 2 5 0); MainC.Shared (Perror "poll");
            MainC.Shared (Perror "wl_display_dispatch"); MainC.Disconnect ] ∧
    MainC.running (MainC.st v') = true ∧ last out = Some MainC.Disconnect.
Proof.
  destruct (@MainC.main_loop _ (Sim.platform interrupted)
              (sim_dispatch interrupted) 5
              (@MainC.start _ (Sim.platform interrupted) 7 MainC.state_zero
                 Sim.start).1.1
              Sim.start [])
    as [[[v' w'] out]|] eqn:Hrun; [|vm_compute in Hrun; discriminate].
  destruct (@first_program_exit_message _ (Sim.platform interrupted)
              (sim_dispatch interrupted) 5 _ Sim.start v' w' out Hrun)
    as (Hlast & _).
  exists v', w', out. split; [reflexivity|].
  split; [|split; [|exact Hlast]];
    vm_compute in Hrun; injection Hrun as <- <- <-; reflexivity.
Defined.
